(** * Event pipeline: damage detector, order aggregator, batch aggregator

    A shallow embedding of the Go services of the repository and the
    properties of their specification.

    - [Warehouse]: services/warehouse/batch (domain/batch.go,
      domain/batch_events.go, domain/order.go, the mock publisher, the
      in-memory repository, application/batch_service.go,
      application/order_service.go, the DTOs, the Kafka publisher and
      consumer adapters, the HTTP API adapter and config/config.go);
    - [OrderManagement]: services/order_management/order (domain/order.go,
      the in-memory repository, the RabbitMQ publisher,
      application/order_service.go, the RabbitMQ consumer adapter, the
      HTTP API adapter and config/config.go);
    - [Detector]: services/mqtt-order-event-client (main.go and the
      package publisher);
    - [Generator]: the generator of sensor events (main.go).

    Conventions.
    - A Go [error] result is an [option error], [None] for nil; a function
      returning a value and an error returns a [result].  A method with a
      pointer receiver that returns an [error] becomes a function into
      [result]: every such method of the source returns its error before
      it writes to the receiver, so [Err] means "receiver untouched".
    - A Go [map] is a [gmap].  A [range] over a map visits the entries in
      an order the language leaves open, so a search that returns at the
      first hit is the list of all the hits it may return, and a service
      call is the list of its possible runs ([M]).
    - [time.Now()] is an input: a call receives the clock reading [now],
      used for every reading the call makes, and, where the source renders
      the time into a batch id, the rendering [stamp].
    - [int] is [Z], and a sum or product the code computes on [int] or
      [int64] values that are not bounded by the length of a slice is
      wrapped to 64 bits ([wrap64]); [float64] is the binary64 floats of
      [PrimFloat], a string its bytes.
    - What the services call in libraries ([encoding/json], the Kafka,
      RabbitMQ and MQTT clients, the case tables of package [unicode]) is
      a parameter: a record of functions giving the library's answers. *)

From Stdlib Require Import ZArith String Ascii PrimFloat Uint63 FloatOps FloatAxioms SpecFloat.
From stdpp Require Import gmap strings list fin_maps.

Open Scope string_scope.
Open Scope list_scope.
Open Scope Z_scope.

(** ** Common vocabulary *)

(** [time.Time]: an instant, as a number of units of time after some
    origin. *)
Definition Time := Z.

(** Arithmetic on [int64], and on [int] where it is 64 bits wide as on
    the platforms the services are built for, wraps around. *)
Definition wrap64 (z : Z) : Z := (z + 2 ^ 63) mod 2 ^ 64 - 2 ^ 63.

(** A nondeterministic state monad: all the runs of a computation. *)
Definition M (S A : Type) : Type := S → list (A * S).

#[global] Instance M_ret {S} : MRet (M S) := λ A a s, [(a, s)].

#[global] Instance M_bind {S} : MBind (M S) :=
  λ A B f m s, '(a, s1) ← m s; f a s1.

Definition ret {S A} (a : A) : M S A := mret a.

Definition gets {S A} (f : S → A) : M S A := λ s, [(f s, s)].

Definition modify {S} (f : S → S) : M S unit := λ s, [(tt, f s)].

(** One run per element of [l]. *)
Definition choose {S A} (l : list A) : M S A := λ s, (λ a, (a, s)) <$> l.

(** The first element satisfying [p] is replaced by its image under [f]:
    [for i, x := range xs { if p(x) { xs[i] = f(x); return } }]. *)
Fixpoint update_first {A} (p : A → bool) (f : A → A) (l : list A) : option (list A) :=
  match l with
  | [] => None
  | x :: rest =>
      if p x then Some (f x :: rest)
      else cons x <$> update_first p f rest
  end.

(** The first element satisfying [p] is dropped:
    [xs = append(xs[:i], xs[i+1:]...)] at the first hit. *)
Fixpoint remove_first {A} (p : A → bool) (l : list A) : option (list A) :=
  match l with
  | [] => None
  | x :: rest =>
      if p x then Some rest
      else cons x <$> remove_first p rest
  end.

(** [for _, x := range xs { if p(x) { return x } }] over a slice. *)
Fixpoint find_first {A} (p : A → bool) (l : list A) : option A :=
  match l with
  | [] => None
  | x :: rest => if p x then Some x else find_first p rest
  end.

(** The functions of Go's package [strings] the services call.  A string
    is its sequence of bytes.  [strings.ToLower] has two ways: on a text
    whose bytes are all below [utf8.RuneSelf] (0x80) it folds the bytes A
    to Z; on any other text it decodes the runes and maps each through
    [unicode.ToLower] (which takes the Kelvin sign U+212A to k, and the
    dotted capital I U+0130 to i).  The second way rests on the tables of
    package [unicode] and is the parameter [mapped]. *)
Module GoStrings.
Definition lower_byte (c : ascii) : ascii :=
  let n := N_of_ascii c in
  if (65 <=? n)%N && (n <=? 90)%N then ascii_of_N (n + 32) else c.

Fixpoint isASCII (s : string) : bool :=
  match s with
  | EmptyString => true
  | String c rest => (N_of_ascii c <? 128)%N && isASCII rest
  end.

Fixpoint lower_bytes (s : string) : string :=
  match s with
  | EmptyString => EmptyString
  | String c rest => String (lower_byte c) (lower_bytes rest)
  end.

Definition ToLower (mapped : string → string) (s : string) : string :=
  if isASCII s then lower_bytes s else mapped s.

Fixpoint HasPrefix (s prefix : string) {struct prefix} : bool :=
  match prefix, s with
  | EmptyString, _ => true
  | String _ _, EmptyString => false
  | String a prefix', String b s' => bool_decide (a = b) && HasPrefix s' prefix'
  end.

Fixpoint Contains (s substr : string) : bool :=
  HasPrefix s substr
  || match s with
     | EmptyString => false
     | String _ rest => Contains rest substr
     end.
End GoStrings.

(** [substr] occurs in [s]. *)
Definition substring_of (substr s : string) : Prop :=
  ∃ before after, s = before +:+ substr +:+ after.

(** [os.Getenv]: the environment is a map from names to values, and a
    name that is not set reads as the empty string.  [getEnv] is the
    function of that name each service defines, in the same words. *)
Definition Getenv (environ : gmap string string) (key : string) : string :=
  default "" (environ !! key).

Definition getEnv (environ : gmap string string) (key defaultValue : string) : string :=
  let value := Getenv environ key in
  if negb (bool_decide (value = "")) then value else defaultValue.

Module Warehouse.

(** ** domain/batch.go *)

Inductive BatchStatus :=
| BatchStatusPending
| BatchStatusProcessing
| BatchStatusCompleted
| BatchStatusCancelled
| BatchStatusDamaged.

#[global] Instance BatchStatus_eq_dec : EqDecision BatchStatus.
Proof. solve_decision. Defined.

(** [string(status)] for the five constants, and the constant a string
    is, if any ([domain.BatchStatus(s)] on the way in). *)
Definition BatchStatus_string (status : BatchStatus) : string :=
  match status with
  | BatchStatusPending => "pending"
  | BatchStatusProcessing => "processing"
  | BatchStatusCompleted => "completed"
  | BatchStatusCancelled => "cancelled"
  | BatchStatusDamaged => "damaged"
  end.

Definition BatchStatus_of_string (s : string) : option BatchStatus :=
  if bool_decide (s = "pending") then Some BatchStatusPending
  else if bool_decide (s = "processing") then Some BatchStatusProcessing
  else if bool_decide (s = "completed") then Some BatchStatusCompleted
  else if bool_decide (s = "cancelled") then Some BatchStatusCancelled
  else if bool_decide (s = "damaged") then Some BatchStatusDamaged
  else None.

Inductive error :=
| ErrProductMismatch (batchProduct itemProduct : string)
| ErrCannotAddItems (st : BatchStatus)
| ErrCannotRemoveFromCompleted
| ErrOrderNotInBatch (orderID : string)
| ErrCannotStartProcessing (st : BatchStatus)
| ErrCannotComplete (st : BatchStatus)
| ErrCannotCancelCompleted
| ErrBatchNotFound (id : string)
| ErrNoBatchContainingOrder (orderID : string)
| ErrNoPendingBatch (productID : string)
| ErrUnknownAction (action : string)
| ErrBroker (msg : string)
| Wrap (context : string) (cause : error).

Inductive result (A : Type) :=
| Ok (a : A)
| Err (e : error).
Arguments Ok {A} a.
Arguments Err {A} e.

Definition is_ok {A} (r : result A) : bool :=
  match r with Ok _ => true | Err _ => false end.

Module BatchItem.
Record t := mk {
  OrderID : string;
  ProductID : string;
  Quantity : Z;
  Status : string;
  AddedAt : Time;
  ProcessedAt : option Time
}.
End BatchItem.

Module Batch.
Record t := mk {
  ID : string;
  ProductID : string;
  Status : BatchStatus;
  Items : list BatchItem.t;
  TotalItems : Z;
  CreatedAt : Time;
  UpdatedAt : Time;
  ProcessedAt : option Time
}.

Definition with_Items (b : t) (items : list BatchItem.t) (total : Z) (now : Time) : t :=
  mk (ID b) (ProductID b) (Status b) items total (CreatedAt b) now (ProcessedAt b).

Definition with_Status (b : t) (st : BatchStatus) (now : Time) (processed : option Time) : t :=
  mk (ID b) (ProductID b) st (Items b) (TotalItems b) (CreatedAt b) now processed.

Definition has_id (orderID : string) (it : BatchItem.t) : bool :=
  bool_decide (BatchItem.OrderID it = orderID).

Definition NewBatch (id productID : string) (now : Time) : t :=
  mk id productID BatchStatusPending [] 0 now now None.

Definition AddItem (b : t) (orderID productID : string) (quantity : Z)
    (status : string) (now : Time) : result t :=
  if negb (bool_decide (ProductID b = productID)) then
    Err (ErrProductMismatch (ProductID b) productID)
  else if bool_decide (Status b = BatchStatusCompleted)
          || bool_decide (Status b = BatchStatusCancelled) then
    Err (ErrCannotAddItems (Status b))
  else
    match update_first (has_id orderID)
            (λ it, BatchItem.mk (BatchItem.OrderID it) (BatchItem.ProductID it)
                     quantity status now (BatchItem.ProcessedAt it))
            (Items b) with
    | Some items => Ok (with_Items b items (TotalItems b) now)
    | None =>
        let item := BatchItem.mk orderID productID quantity status now None in
        let items := Items b ++ [item] in
        Ok (with_Items b items (Z.of_nat (length items)) now)
    end.

Definition RemoveItem (b : t) (orderID : string) (now : Time) : result t :=
  if bool_decide (Status b = BatchStatusCompleted) then
    Err ErrCannotRemoveFromCompleted
  else
    match remove_first (has_id orderID) (Items b) with
    | Some items => Ok (with_Items b items (Z.of_nat (length items)) now)
    | None => Err (ErrOrderNotInBatch orderID)
    end.

Definition sets_ProcessedAt (status : string) : bool :=
  bool_decide (status = "processed") || bool_decide (status = "shipped")
  || bool_decide (status = "delivered").

Definition UpdateItemStatus (b : t) (orderID status : string) (now : Time) : result t :=
  match update_first (has_id orderID)
          (λ it, BatchItem.mk (BatchItem.OrderID it) (BatchItem.ProductID it)
                   (BatchItem.Quantity it) status (BatchItem.AddedAt it)
                   (if sets_ProcessedAt status then Some now
                    else BatchItem.ProcessedAt it))
          (Items b) with
  | Some items => Ok (with_Items b items (TotalItems b) now)
  | None => Err (ErrOrderNotInBatch orderID)
  end.

Definition StartProcessing (b : t) (now : Time) : result t :=
  if negb (bool_decide (Status b = BatchStatusPending)) then
    Err (ErrCannotStartProcessing (Status b))
  else Ok (with_Status b BatchStatusProcessing now (ProcessedAt b)).

Definition Complete (b : t) (now : Time) : result t :=
  if negb (bool_decide (Status b = BatchStatusProcessing)) then
    Err (ErrCannotComplete (Status b))
  else Ok (with_Status b BatchStatusCompleted now (Some now)).

Definition Cancel (b : t) (now : Time) : result t :=
  if bool_decide (Status b = BatchStatusCompleted) then
    Err ErrCannotCancelCompleted
  else Ok (with_Status b BatchStatusCancelled now (ProcessedAt b)).

Definition MarkAsDamaged (b : t) (now : Time) : result t :=
  Ok (with_Status b BatchStatusDamaged now (ProcessedAt b)).

Definition GetItemByOrderID (b : t) (orderID : string) : result BatchItem.t :=
  match find_first (has_id orderID) (Items b) with
  | Some it => Ok it
  | None => Err (ErrOrderNotInBatch orderID)
  end.

Definition HasOrder (b : t) (orderID : string) : bool :=
  is_ok (GetItemByOrderID b orderID).

Definition IsEmpty (b : t) : bool := bool_decide (length (Items b) = 0%nat).

(** [total += item.Quantity] on [int]. *)
Definition GetTotalQuantity (b : t) : Z :=
  foldl (λ total it, wrap64 (total + BatchItem.Quantity it)) 0 (Items b).
End Batch.

(** ** domain/batch_events.go *)

Inductive BatchEventType :=
| BatchEventCreated
| BatchEventItemAdded
| BatchEventItemRemoved
| BatchEventItemUpdated
| BatchEventProcessing
| BatchEventCompleted
| BatchEventCancelled
| BatchEventDamaged.

#[global] Instance BatchEventType_eq_dec : EqDecision BatchEventType.
Proof. solve_decision. Defined.

Definition BatchEventType_name (t : BatchEventType) : string :=
  match t with
  | BatchEventCreated => "batch.created"
  | BatchEventItemAdded => "batch.item_added"
  | BatchEventItemRemoved => "batch.item_removed"
  | BatchEventItemUpdated => "batch.item_updated"
  | BatchEventProcessing => "batch.processing_started"
  | BatchEventCompleted => "batch.completed"
  | BatchEventCancelled => "batch.cancelled"
  | BatchEventDamaged => "batch.marked_damaged"
  end.

Module BatchEvent.
Record t := mk {
  EventType : BatchEventType;
  BatchID : string;
  ProductID : string;
  Batch : Batch.t;
  OrderID : option string;
  ItemDetails : option BatchItem.t;
  Timestamp : Time
}.
End BatchEvent.

Definition batch_event (ty : BatchEventType) (batch : Batch.t)
    (orderID : option string) (item : option BatchItem.t) (now : Time) : BatchEvent.t :=
  BatchEvent.mk ty (Batch.ID batch) (Batch.ProductID batch) batch orderID item now.

Definition NewBatchCreatedEvent (batch : Batch.t) (now : Time) :=
  batch_event BatchEventCreated batch None None now.
Definition NewBatchItemAddedEvent (batch : Batch.t) (orderID : string)
    (item : BatchItem.t) (now : Time) :=
  batch_event BatchEventItemAdded batch (Some orderID) (Some item) now.
Definition NewBatchItemRemovedEvent (batch : Batch.t) (orderID : string) (now : Time) :=
  batch_event BatchEventItemRemoved batch (Some orderID) None now.
Definition NewBatchItemUpdatedEvent (batch : Batch.t) (orderID : string)
    (item : BatchItem.t) (now : Time) :=
  batch_event BatchEventItemUpdated batch (Some orderID) (Some item) now.
Definition NewBatchProcessingStartedEvent (batch : Batch.t) (now : Time) :=
  batch_event BatchEventProcessing batch None None now.
Definition NewBatchCompletedEvent (batch : Batch.t) (now : Time) :=
  batch_event BatchEventCompleted batch None None now.
Definition NewBatchCancelledEvent (batch : Batch.t) (now : Time) :=
  batch_event BatchEventCancelled batch None None now.
Definition NewBatchDamagedEvent (batch : Batch.t) (now : Time) :=
  batch_event BatchEventDamaged batch None None now.

(** The port [BatchEventPublisher]: an implementation has a state of its
    own and answers each event with [None] (nil) or an error. *)
Class BatchEventPublisher (P : Type) :=
  PublishBatchEvent : BatchEvent.t → P → option error * P.

(** ** domain/mock_event_publisher.go *)

Module MockBatchEventPublisher.
Record t := mk {
  PublishedEvents : list BatchEvent.t;
  ShouldFail : bool;
  FailureError : option error
}.

Definition NewMockBatchEventPublisher : t := mk [] false None.

Definition Publish (event : BatchEvent.t) (m : t) : option error * t :=
  if ShouldFail m then
    match FailureError m with
    | Some e => (Some e, m)
    | None => (Some (ErrBroker "mock publish failure"), m)
    end
  else (None, mk (PublishedEvents m ++ [event]) (ShouldFail m) (FailureError m)).

Definition SetShouldFail (shouldFail : bool) (err : option error) (m : t) : t :=
  mk (PublishedEvents m) shouldFail err.

Definition GetPublishedEvents (m : t) : list BatchEvent.t := PublishedEvents m.

Definition GetEventCount (m : t) : Z := Z.of_nat (length (PublishedEvents m)).

Definition GetEventsByType (m : t) (eventType : BatchEventType) : list BatchEvent.t :=
  filter (λ event, BatchEvent.EventType event = eventType) (PublishedEvents m).

Definition Reset (m : t) : t := mk [] false None.
End MockBatchEventPublisher.

#[global] Instance mock_publisher : BatchEventPublisher MockBatchEventPublisher.t :=
  MockBatchEventPublisher.Publish.

(** ** infrastructure/driven-adapters/batch_memory_repository.go

    The repository is the map [batches] from batch id to batch.  [Save] and
    the finders copy the batch, so a stored batch changes only through
    [Save] and [Delete]. *)

Module BatchMemoryRepository.
Definition Save (r : gmap string Batch.t) (batch : Batch.t) : gmap string Batch.t :=
  <[Batch.ID batch := batch]> r.

Definition FindByID (r : gmap string Batch.t) (id : string) : result Batch.t :=
  match r !! id with
  | Some batch => Ok batch
  | None => Err (ErrBatchNotFound id)
  end.

(** [for _, batch := range r.batches { if p(batch) { return batch, nil } };
    return nil, notFound]: every answer the loop can give. *)
Definition range_find (p : Batch.t → bool) (notFound : error)
    (r : gmap string Batch.t) : list (result Batch.t) :=
  match filter (λ b, p b = true) ((map_to_list r).*2) with
  | [] => [Err notFound]
  | hits => Ok <$> hits
  end.

Definition FindByOrderID (r : gmap string Batch.t) (orderID : string) :=
  range_find (λ b, Batch.HasOrder b orderID) (ErrNoBatchContainingOrder orderID) r.

Definition is_pending_for (productID : string) (b : Batch.t) : bool :=
  bool_decide (Batch.ProductID b = productID)
  && bool_decide (Batch.Status b = BatchStatusPending).

Definition FindPendingBatchForProduct (r : gmap string Batch.t) (productID : string) :=
  range_find (is_pending_for productID) (ErrNoPendingBatch productID) r.

Definition Delete (r : gmap string Batch.t) (id : string) : result (gmap string Batch.t) :=
  match r !! id with
  | Some _ => Ok (delete id r)
  | None => Err (ErrBatchNotFound id)
  end.

(** [for _, batch := range r.batches { if p(batch) { result =
    append(result, batch) } }; return result, nil]: the slice built, for
    each order the iteration may take.  A nil slice and an empty one are
    both the empty list; the error is always nil. *)
Definition range_collect (p : Batch.t → bool) (r : gmap string Batch.t)
    : list (list Batch.t) :=
  (λ visited, filter (λ b, p b = true) visited) <$> permutations ((map_to_list r).*2).

Definition FindByProductID (r : gmap string Batch.t) (productID : string) :=
  range_collect (λ b, bool_decide (Batch.ProductID b = productID)) r.

Definition FindByStatus (r : gmap string Batch.t) (status : BatchStatus) :=
  range_collect (λ b, bool_decide (Batch.Status b = status)) r.

Definition GetAll (r : gmap string Batch.t) : list (list Batch.t) :=
  range_collect (λ _, true) r.

Definition GetBatchCount (r : gmap string Batch.t) : Z := Z.of_nat (size r).
End BatchMemoryRepository.

(** ** application/batch_service.go *)

(** What a [BatchService] can reach: the repository's map and the state
    of the publisher behind the port. *)
Record State (P : Type) := mkState {
  batches : gmap string Batch.t;
  eventPublisher : P
}.
Arguments mkState {P} _ _.
Arguments batches {P} _.
Arguments eventPublisher {P} _.

Definition generateBatchID (productID stamp : string) : string :=
  "BATCH-" +:+ productID +:+ "-" +:+ stamp.

Section BatchService.
Context {P : Type} `{!BatchEventPublisher P}.

Definition Save (batch : Batch.t) : M (State P) unit :=
  modify (λ s, mkState (BatchMemoryRepository.Save (batches s) batch) (eventPublisher s)).

Definition FindByID (id : string) : M (State P) (result Batch.t) :=
  gets (λ s, BatchMemoryRepository.FindByID (batches s) id).

Definition FindByOrderID (orderID : string) : M (State P) (result Batch.t) :=
  r ← gets batches; choose (BatchMemoryRepository.FindByOrderID r orderID).

Definition FindPendingBatchForProduct (productID : string) : M (State P) (result Batch.t) :=
  r ← gets batches; choose (BatchMemoryRepository.FindPendingBatchForProduct r productID).

Definition Delete (id : string) : M (State P) (option error) :=
  λ s, match BatchMemoryRepository.Delete (batches s) id with
       | Ok r => [(None, mkState r (eventPublisher s))]
       | Err e => [(Some e, s)]
       end.

(** [if err := s.eventPublisher.PublishBatchEvent(ev); err != nil
    { log.Printf(...) }]: the answer of the publisher is only logged. *)
Definition publish (event : BatchEvent.t) : M (State P) unit :=
  modify (λ s, mkState (batches s) (PublishBatchEvent event (eventPublisher s)).2).

Definition AddOrderToBatch (orderID productID : string) (quantity : Z)
    (status : string) (now : Time) (stamp : string) : M (State P) (result Batch.t) :=
  found ← FindPendingBatchForProduct productID;
  let '(batch, isNewBatch) :=
    match found with
    | Ok batch => (batch, false)
    | Err _ =>
        (Batch.NewBatch (generateBatchID productID stamp) productID now, true)
    end in
  match Batch.AddItem batch orderID productID quantity status now with
  | Err e => ret (Err (Wrap "failed to add order to batch" e))
  | Ok batch =>
      Save batch;;
      (if isNewBatch then publish (NewBatchCreatedEvent batch now) else ret tt);;
      match Batch.GetItemByOrderID batch orderID with
      | Err _ => ret tt
      | Ok item => publish (NewBatchItemAddedEvent batch orderID item now)
      end;;
      ret (Ok batch)
  end.

Definition RemoveOrderFromBatch (orderID : string) (now : Time) : M (State P) (option error) :=
  found ← FindByOrderID orderID;
  match found with
  | Err e => ret (Some (Wrap "failed to find batch for order" e))
  | Ok batch =>
      match Batch.RemoveItem batch orderID now with
      | Err e => ret (Some (Wrap "failed to remove order from batch" e))
      | Ok batch =>
          publish (NewBatchItemRemovedEvent batch orderID now);;
          if Batch.IsEmpty batch then
            d ← Delete (Batch.ID batch);
            match d with
            | Some e => ret (Some (Wrap "failed to delete empty batch" e))
            | None => ret None
            end
          else Save batch;; ret None
      end
  end.

Definition UpdateOrderStatus (orderID status : string) (now : Time) : M (State P) (option error) :=
  found ← FindByOrderID orderID;
  match found with
  | Err e => ret (Some (Wrap "failed to find batch for order" e))
  | Ok batch =>
      match Batch.UpdateItemStatus batch orderID status now with
      | Err e => ret (Some (Wrap "failed to update order status" e))
      | Ok batch =>
          Save batch;;
          match Batch.GetItemByOrderID batch orderID with
          | Err _ => ret tt
          | Ok item => publish (NewBatchItemUpdatedEvent batch orderID item now)
          end;;
          ret None
      end
  end.

(** The shape shared by [ProcessBatch], [CompleteBatch], [CancelBatch]
    and [MarkBatchAsDamaged]: find by id, apply the transition, save,
    publish. *)
Definition transition (batchID : string) (step : Batch.t → result Batch.t)
    (context : string) (event : Batch.t → BatchEvent.t) : M (State P) (option error) :=
  found ← FindByID batchID;
  match found with
  | Err e => ret (Some (Wrap "failed to find batch" e))
  | Ok batch =>
      match step batch with
      | Err e => ret (Some (Wrap context e))
      | Ok batch => Save batch;; publish (event batch);; ret None
      end
  end.

Definition ProcessBatch (batchID : string) (now : Time) :=
  transition batchID (λ b, Batch.StartProcessing b now)
    "failed to start processing batch" (λ b, NewBatchProcessingStartedEvent b now).

Definition CompleteBatch (batchID : string) (now : Time) :=
  transition batchID (λ b, Batch.Complete b now)
    "failed to complete batch" (λ b, NewBatchCompletedEvent b now).

Definition CancelBatch (batchID : string) (now : Time) :=
  transition batchID (λ b, Batch.Cancel b now)
    "failed to cancel batch" (λ b, NewBatchCancelledEvent b now).

Definition MarkBatchAsDamaged (batchID : string) (now : Time) :=
  transition batchID (λ b, Batch.MarkAsDamaged b now)
    "failed to mark batch as damaged" (λ b, NewBatchDamagedEvent b now).

Definition GetBatchByOrderID (orderID : string) : M (State P) (result Batch.t) :=
  FindByOrderID orderID.

Definition GetBatchesByProductID (productID : string) : M (State P) (result (list Batch.t)) :=
  r ← gets batches; found ← choose (BatchMemoryRepository.FindByProductID r productID);
  ret (Ok found).

Definition GetBatchesByStatus (status : BatchStatus) : M (State P) (result (list Batch.t)) :=
  r ← gets batches; found ← choose (BatchMemoryRepository.FindByStatus r status);
  ret (Ok found).

Definition GetAllBatches : M (State P) (result (list Batch.t)) :=
  r ← gets batches; found ← choose (BatchMemoryRepository.GetAll r);
  ret (Ok found).
End BatchService.

(** ** application: the batches as the API shows them *)

Module BatchItemDTO.
Record t := mk {
  OrderID : string;
  ProductID : string;
  Quantity : Z;
  Status : string;
  AddedAt : Time;
  ProcessedAt : option Time
}.
End BatchItemDTO.

Module BatchDTO.
Record t := mk {
  ID : string;
  ProductID : string;
  Status : string;
  Items : list BatchItemDTO.t;
  TotalItems : Z;
  CreatedAt : Time;
  UpdatedAt : Time;
  ProcessedAt : option Time
}.
End BatchDTO.

Definition ToBatchItemDTO (item : BatchItem.t) : BatchItemDTO.t :=
  BatchItemDTO.mk (BatchItem.OrderID item) (BatchItem.ProductID item)
    (BatchItem.Quantity item) (BatchItem.Status item) (BatchItem.AddedAt item)
    (BatchItem.ProcessedAt item).

Definition ToBatchDTO (batch : Batch.t) : BatchDTO.t :=
  let items := ToBatchItemDTO <$> Batch.Items batch in
  BatchDTO.mk (Batch.ID batch) (Batch.ProductID batch)
    (BatchStatus_string (Batch.Status batch)) items (Batch.TotalItems batch)
    (Batch.CreatedAt batch) (Batch.UpdatedAt batch) (Batch.ProcessedAt batch).

Definition ToBatchDTOs (batches : list Batch.t) : list BatchDTO.t :=
  ToBatchDTO <$> batches.

(** ** domain/order.go (the batch service's view of an order) *)

Module Order.
Record t := mk {
  ID : string;
  CustomerID : string;
  ProductID : string;
  Quantity : Z;
  Status : string;
  TotalAmount : float;
  CreatedAt : Time;
  UpdatedAt : Time
}.
End Order.

Module OrderEvent.
Record t := mk {
  EventType : string;
  OrderID : string;
  Order : Order.t;
  Timestamp : Time
}.

Definition warehouseRelevantEvents : gmap string bool :=
  list_to_map [
    ("order.damage_processed", true);
    ("order.created", true);
    ("order.cancelled", true);
    ("order.shipped", true);
    ("order.delivered", true);
    ("order.returned", true);
    ("order.inventory_allocated", true);
    ("order.inventory_released", true)
  ].

(** A missing key of a [map[string]bool] reads as [false]. *)
Definition IsWarehouseRelevant (oe : t) : bool :=
  default false (warehouseRelevantEvents !! EventType oe).

Definition GetWarehouseAction (oe : t) : string :=
  if bool_decide (EventType oe = "order.damage_processed") then "process_damage"
  else if bool_decide (EventType oe = "order.created") then "allocate_inventory"
  else if bool_decide (EventType oe = "order.cancelled") then "release_inventory"
  else if bool_decide (EventType oe = "order.shipped") then "update_inventory"
  else if bool_decide (EventType oe = "order.delivered") then "confirm_delivery"
  else if bool_decide (EventType oe = "order.returned") then "process_return"
  else if bool_decide (EventType oe = "order.inventory_allocated") then "confirm_allocation"
  else if bool_decide (EventType oe = "order.inventory_released") then "confirm_release"
  else "unknown".
End OrderEvent.

(** ** application/order_service.go *)

Section OrderService.
Context {P : Type} `{!BatchEventPublisher P}.

(** The block the three damage cases share: try to update the item; when
    that fails, add the order to a batch.  [Ok None]: the item was
    updated; [Ok (Some batch)]: the order was added to [batch]. *)
Definition update_or_add (event : OrderEvent.t) (itemStatus : string)
    (now : Time) (stamp : string) : M (State P) (result (option Batch.t)) :=
  err ← UpdateOrderStatus (OrderEvent.OrderID event) itemStatus now;
  match err with
  | Some _ =>
      added ← AddOrderToBatch (OrderEvent.OrderID event)
                (Order.ProductID (OrderEvent.Order event))
                (Order.Quantity (OrderEvent.Order event)) itemStatus now stamp;
      match added with
      | Err e => ret (Err e)
      | Ok batch => ret (Ok (Some batch))
      end
  | None => ret (Ok None)
  end.

Definition processDamage (event : OrderEvent.t) (now : Time) (stamp : string)
    : M (State P) (option error) :=
  let status := Order.Status (OrderEvent.Order event) in
  if bool_decide (status = "damage_detected_minor") then
    r ← update_or_add event "damage_minor" now stamp;
    match r with
    | Err e => ret (Some e)
    | Ok _ => ret None
    end
  else if bool_decide (status = "damage_detected_major") then
    r ← update_or_add event "damage_major" now stamp;
    match r with
    | Err e => ret (Some e)
    | Ok (Some batch) =>
        MarkBatchAsDamaged (Batch.ID batch) now;; ret None
    | Ok None =>
        found ← GetBatchByOrderID (OrderEvent.OrderID event);
        match found with
        | Ok batch => MarkBatchAsDamaged (Batch.ID batch) now;; ret None
        | Err _ => ret None
        end
    end
  else if bool_decide (status = "damage_processed") then
    r ← update_or_add event "damage_processed" now stamp;
    match r with
    | Err e => ret (Some e)
    | Ok _ => ret None
    end
  else ret None.

Definition allocateInventory (event : OrderEvent.t) (now : Time) (stamp : string)
    : M (State P) (option error) :=
  r ← AddOrderToBatch (OrderEvent.OrderID event)
        (Order.ProductID (OrderEvent.Order event))
        (Order.Quantity (OrderEvent.Order event)) "allocated" now stamp;
  match r with
  | Err e => ret (Some e)
  | Ok _ => ret None
  end.

Definition releaseInventory (event : OrderEvent.t) (now : Time) : M (State P) (option error) :=
  RemoveOrderFromBatch (OrderEvent.OrderID event) now.

Definition updateInventory (event : OrderEvent.t) (now : Time) : M (State P) (option error) :=
  UpdateOrderStatus (OrderEvent.OrderID event) "shipped" now.

Definition confirmDelivery (event : OrderEvent.t) (now : Time) : M (State P) (option error) :=
  UpdateOrderStatus (OrderEvent.OrderID event) "delivered" now.

Definition processReturn (event : OrderEvent.t) (now : Time) (stamp : string)
    : M (State P) (option error) :=
  err ← UpdateOrderStatus (OrderEvent.OrderID event) "returned" now;
  match err with
  | Some e => ret (Some e)
  | None =>
      r ← AddOrderToBatch (OrderEvent.OrderID event +:+ "-return")
            (Order.ProductID (OrderEvent.Order event))
            (Order.Quantity (OrderEvent.Order event)) "returned" now stamp;
      match r with
      | Err e => ret (Some e)
      | Ok _ => ret None
      end
  end.

Definition confirmAllocation (event : OrderEvent.t) (now : Time) : M (State P) (option error) :=
  UpdateOrderStatus (OrderEvent.OrderID event) "allocation_confirmed" now.

Definition confirmRelease (event : OrderEvent.t) (now : Time) : M (State P) (option error) :=
  UpdateOrderStatus (OrderEvent.OrderID event) "release_confirmed" now.

Definition HandleOrderEvent (event : OrderEvent.t) (now : Time) (stamp : string)
    : M (State P) (option error) :=
  if negb (OrderEvent.IsWarehouseRelevant event) then ret None
  else
    let action := OrderEvent.GetWarehouseAction event in
    if bool_decide (action = "process_damage") then processDamage event now stamp
    else if bool_decide (action = "allocate_inventory") then allocateInventory event now stamp
    else if bool_decide (action = "release_inventory") then releaseInventory event now
    else if bool_decide (action = "update_inventory") then updateInventory event now
    else if bool_decide (action = "confirm_delivery") then confirmDelivery event now
    else if bool_decide (action = "process_return") then processReturn event now stamp
    else if bool_decide (action = "confirm_allocation") then confirmAllocation event now
    else if bool_decide (action = "confirm_release") then confirmRelease event now
    else ret (Some (ErrUnknownAction action)).
End OrderService.

(** ** infrastructure/driving-adapters/order_event_consumer_adapter.go *)

(** What [reader.ReadMessage] gives: an error (a timeout among them), or a
    message with its value. *)
Inductive Read :=
| ReadFails (text : string)
| ReadGives (value : string).

Section OrderEventConsumerAdapter.
Context {P : Type} `{!BatchEventPublisher P}.

(** [unmarshal] is [json.Unmarshal] into a [domain.OrderEvent], [None]
    when it returns an error; the error is logged and the message left. *)
Definition translateMessage (unmarshal : string → option OrderEvent.t) (value : string)
    : option OrderEvent.t :=
  unmarshal value.

(** The loop of [Start] over the reads made before the context is done,
    each with the clock of its handling.  After a failed read the loop
    sleeps 2 seconds and goes on; the result of the handler is logged. *)
Fixpoint Start (unmarshal : string → option OrderEvent.t)
    (reads : list (Read * Time * string)) : M (State P) unit :=
  match reads with
  | [] => ret tt
  | (ReadFails _, _, _) :: rest => Start unmarshal rest
  | (ReadGives value, now, stamp) :: rest =>
      match translateMessage unmarshal value with
      | None => Start unmarshal rest
      | Some orderEvent =>
          HandleOrderEvent orderEvent now stamp;;
          Start unmarshal rest
      end
  end.
End OrderEventConsumerAdapter.

(** ** infrastructure/driving-adapters/api_service_adapter.go *)

(** What a handler hands to [c.JSON]: the status code and the fields of
    the [gin.H], in the order the source writes them. *)
Module Gin.
Inductive Value :=
| VString (s : string)
| VInt (n : Z)
| VError (e : error)
| VBatch (b : BatchDTO.t)
| VBatches (l : list BatchDTO.t).

Definition H := list (string * Value).

Record Response := mkResponse {
  code : Z;
  body : H
}.
End Gin.

Section ApiServiceAdapter.
Context {P : Type} `{!BatchEventPublisher P}.

Definition getAllBatchesHandler : M (State P) Gin.Response :=
  r ← GetAllBatches;
  match r with
  | Err e =>
      ret (Gin.mkResponse 500
             [("error", Gin.VString "Failed to retrieve batches");
              ("details", Gin.VError e)])
  | Ok found =>
      let batchDTOs := ToBatchDTOs found in
      ret (Gin.mkResponse 200
             [("batches", Gin.VBatches batchDTOs);
              ("count", Gin.VInt (Z.of_nat (length batchDTOs)))])
  end.

Definition getBatchesByProductHandler (productID : string) : M (State P) Gin.Response :=
  if bool_decide (productID = "") then
    ret (Gin.mkResponse 400 [("error", Gin.VString "Product ID is required")])
  else
    r ← GetBatchesByProductID productID;
    match r with
    | Err e =>
        ret (Gin.mkResponse 500
               [("error", Gin.VString "Failed to retrieve batches for product");
                ("details", Gin.VError e)])
    | Ok found =>
        let batchDTOs := ToBatchDTOs found in
        ret (Gin.mkResponse 200
               [("product_id", Gin.VString productID);
                ("batches", Gin.VBatches batchDTOs);
                ("count", Gin.VInt (Z.of_nat (length batchDTOs)))])
    end.

(** [domain.BatchStatus(statusStr)] may be any string.  The status of a
    stored batch is one of the five constants, so for any other string
    the loop of [FindByStatus] matches nothing. *)
Definition getBatchesByStatusHandler (statusStr : string) : M (State P) Gin.Response :=
  if bool_decide (statusStr = "") then
    ret (Gin.mkResponse 400 [("error", Gin.VString "Status is required")])
  else
    r ← match BatchStatus_of_string statusStr with
        | Some status => GetBatchesByStatus status
        | None => ret (Ok [])
        end;
    match r with
    | Err e =>
        ret (Gin.mkResponse 500
               [("error", Gin.VString "Failed to retrieve batches by status");
                ("details", Gin.VError e)])
    | Ok found =>
        let batchDTOs := ToBatchDTOs found in
        ret (Gin.mkResponse 200
               [("status", Gin.VString statusStr);
                ("batches", Gin.VBatches batchDTOs);
                ("count", Gin.VInt (Z.of_nat (length batchDTOs)))])
    end.

Definition getBatchByOrderHandler (orderID : string) : M (State P) Gin.Response :=
  if bool_decide (orderID = "") then
    ret (Gin.mkResponse 400 [("error", Gin.VString "Order ID is required")])
  else
    r ← GetBatchByOrderID orderID;
    match r with
    | Err e =>
        ret (Gin.mkResponse 404
               [("error", Gin.VString "Batch not found for order");
                ("details", Gin.VError e)])
    | Ok batch =>
        ret (Gin.mkResponse 200
               [("order_id", Gin.VString orderID);
                ("batch", Gin.VBatch (ToBatchDTO batch))])
    end.
End ApiServiceAdapter.

(** ** config/config.go *)

Module Config.
Record KafkaConfig := mkKafkaConfig {
  OrderEventsTopic : string;
  BatchEventsTopic : string;
  BrokerAddress : string;
  GroupID : string
}.

Record HTTPConfig := mkHTTPConfig { Port : string }.

Record t := mk {
  Kafka : KafkaConfig;
  HTTP : HTTPConfig
}.

Definition LoadConfig (environ : gmap string string) : t :=
  mk (mkKafkaConfig
        (getEnv environ "KAFKA_ORDER_EVENTS_TOPIC" "order-events")
        (getEnv environ "KAFKA_BATCH_EVENTS_TOPIC" "warehouse-batch-events")
        (getEnv environ "KAFKA_BROKER_ADDRESS" "localhost:9092")
        (getEnv environ "KAFKA_GROUP_ID" "warehouse-batch-service"))
     (mkHTTPConfig (getEnv environ "HTTP_PORT" "8080")).
End Config.

(** ** The calls of the batch service, and the states they reach *)

Inductive Call :=
| CallAddOrderToBatch (orderID productID : string) (quantity : Z) (status : string)
| CallRemoveOrderFromBatch (orderID : string)
| CallUpdateOrderStatus (orderID status : string)
| CallProcessBatch (batchID : string)
| CallCompleteBatch (batchID : string)
| CallCancelBatch (batchID : string)
| CallMarkBatchAsDamaged (batchID : string).

Section Reachable.
Context {P : Type} `{!BatchEventPublisher P}.

(** The states one call may lead to from [s], at clock reading [now]. *)
Definition call (c : Call) (now : Time) (stamp : string) (s : State P) : list (State P) :=
  match c with
  | CallAddOrderToBatch o p q st => snd <$> AddOrderToBatch o p q st now stamp s
  | CallRemoveOrderFromBatch o => snd <$> RemoveOrderFromBatch o now s
  | CallUpdateOrderStatus o st => snd <$> UpdateOrderStatus o st now s
  | CallProcessBatch id => snd <$> ProcessBatch id now s
  | CallCompleteBatch id => snd <$> CompleteBatch id now s
  | CallCancelBatch id => snd <$> CancelBatch id now s
  | CallMarkBatchAsDamaged id => snd <$> MarkBatchAsDamaged id now s
  end.

(** [NewBatchMemoryRepository] starts from the empty map. *)
Inductive reachable : State P → Prop :=
| reachable_new (p : P) : reachable (mkState ∅ p)
| reachable_call s c now stamp s' :
    reachable s → s' ∈ call c now stamp s → reachable s'.
End Reachable.

(** The invariant of the specification, on the repository's map. *)
Definition items_match_product (b : Batch.t) : Prop :=
  ∀ it, it ∈ Batch.Items b → BatchItem.ProductID it = Batch.ProductID b.

Definition total_is_length (b : Batch.t) : Prop :=
  Batch.TotalItems b = Z.of_nat (length (Batch.Items b)).

Definition one_pending_per_product (r : gmap string Batch.t) : Prop :=
  ∀ id1 id2 b1 b2,
    r !! id1 = Some b1 → r !! id2 = Some b2 →
    Batch.ProductID b1 = Batch.ProductID b2 →
    Batch.Status b1 = BatchStatusPending →
    Batch.Status b2 = BatchStatusPending →
    id1 = id2.

Definition batch_invariant (r : gmap string Batch.t) : Prop :=
  (∀ id b, r !! id = Some b → items_match_product b ∧ total_is_length b)
  ∧ one_pending_per_product r.

(** Every batch is stored under its own id ([r.batches[batch.ID] = ...]). *)
Definition keyed_by_id (r : gmap string Batch.t) : Prop :=
  ∀ id b, r !! id = Some b → Batch.ID b = id.

Definition well_formed (b : Batch.t) : Prop :=
  items_match_product b ∧ total_is_length b.

(** A status transition keeps the items and never produces [pending]. *)
Definition is_transition (step : Batch.t → result Batch.t) : Prop :=
  ∀ b b', step b = Ok b' →
    Batch.ID b' = Batch.ID b ∧ Batch.ProductID b' = Batch.ProductID b
    ∧ Batch.Items b' = Batch.Items b ∧ Batch.TotalItems b' = Batch.TotalItems b
    ∧ Batch.Status b' ≠ BatchStatusPending.

(** The invariant of the specification together with the fact that makes
    it inductive: a batch sits under its own id. *)
Definition repository_invariant (r : gmap string Batch.t) : Prop :=
  keyed_by_id r
  ∧ (∀ id b, r !! id = Some b → well_formed b)
  ∧ one_pending_per_product r.


(** The publisher after it was handed [events], one after the other. *)
Definition published {P : Type} `{!BatchEventPublisher P} (events : list BatchEvent.t)
    (p : P) : P :=
  foldl (λ p event, (PublishBatchEvent event p).2) p events.

(** The methods of [Batch] that write to the batch. *)
Inductive Method :=
| DoAddItem (orderID productID : string) (quantity : Z) (status : string)
| DoRemoveItem (orderID : string)
| DoUpdateItemStatus (orderID status : string)
| DoStartProcessing
| DoComplete
| DoCancel
| DoMarkAsDamaged.

Definition invoke (m : Method) (b : Batch.t) (now : Time) : result Batch.t :=
  match m with
  | DoAddItem o p q st => Batch.AddItem b o p q st now
  | DoRemoveItem o => Batch.RemoveItem b o now
  | DoUpdateItemStatus o st => Batch.UpdateItemStatus b o st now
  | DoStartProcessing => Batch.StartProcessing b now
  | DoComplete => Batch.Complete b now
  | DoCancel => Batch.Cancel b now
  | DoMarkAsDamaged => Batch.MarkAsDamaged b now
  end.

(** The status changes the methods of [Batch] make. *)
Definition status_step (from to : BatchStatus) : Prop :=
  (from = BatchStatusPending ∧ to = BatchStatusProcessing)
  ∨ (from = BatchStatusProcessing ∧ to = BatchStatusCompleted)
  ∨ (from ≠ BatchStatusCompleted ∧ to = BatchStatusCancelled)
  ∨ to = BatchStatusDamaged.

(** The order ids of the items of a batch, in the order of the items. *)
Definition order_ids (b : Batch.t) : list string :=
  BatchItem.OrderID <$> Batch.Items b.

(** A computation that leads from reachable states to reachable states
    only, and one that has a run from every state. *)
Definition stays_reachable {P : Type} `{!BatchEventPublisher P} {A : Type}
    (m : M (State P) A) : Prop :=
  ∀ s x s', reachable s → (x, s') ∈ m s → reachable s'.

Definition runs {S A : Type} (m : M S A) : Prop := ∀ s, ∃ run, run ∈ m s.

(** What one run of [RemoveOrderFromBatch o] does, from [s] to [s'] with
    result [r]: no batch holds the order; or the batch picked is completed
    and nothing changes; or the item is removed, and the batch deleted
    when it was the only item. *)
Definition removal_outcome {P : Type} (s : State P) (o : string) (now : Time)
    (r : option error) (s' : State P) : Prop :=
  (is_Some r ∧ s' = s
   ∧ ∀ id b, batches s !! id = Some b → Batch.HasOrder b o = false)
  ∨ ∃ id batch,
      batches s !! id = Some batch ∧ Batch.HasOrder batch o = true
      ∧ if decide (Batch.Status batch = BatchStatusCompleted) then
          is_Some r ∧ s' = s
        else
          r = None
          ∧ if decide (length (Batch.Items batch) = 1%nat) then
              batches s' = delete id (batches s)
            else
              ∃ b', Batch.RemoveItem batch o now = Ok b'
                    ∧ batches s' = <[id := b']> (batches s).

(** Two items that differ at most in [AddedAt], and in that only when they
    are the item of order [o]. *)
Definition same_item_but_AddedAt (o : string) (i1 i2 : BatchItem.t) : Prop :=
  BatchItem.OrderID i1 = BatchItem.OrderID i2
  ∧ BatchItem.ProductID i1 = BatchItem.ProductID i2
  ∧ BatchItem.Quantity i1 = BatchItem.Quantity i2
  ∧ BatchItem.Status i1 = BatchItem.Status i2
  ∧ BatchItem.ProcessedAt i1 = BatchItem.ProcessedAt i2
  ∧ (BatchItem.OrderID i1 ≠ o → BatchItem.AddedAt i1 = BatchItem.AddedAt i2).

(** Two batches that differ at most in [UpdatedAt] and in the [AddedAt] of
    the item of order [o]: same fields otherwise, same items in the same
    order. *)
Definition same_batch_but_times (o : string) (b1 b2 : Batch.t) : Prop :=
  Batch.ID b1 = Batch.ID b2
  ∧ Batch.ProductID b1 = Batch.ProductID b2
  ∧ Batch.Status b1 = Batch.Status b2
  ∧ Batch.TotalItems b1 = Batch.TotalItems b2
  ∧ Batch.CreatedAt b1 = Batch.CreatedAt b2
  ∧ Batch.ProcessedAt b1 = Batch.ProcessedAt b2
  ∧ Forall2 (same_item_but_AddedAt o) (Batch.Items b1) (Batch.Items b2).

(** The second of two identical [AddOrderToBatch] calls, from [s1] to
    [s2]: both calls answer with a batch, the first answer [b1] is what the
    repository holds under its id, and the second call only replaces it
    by [b2], equal to [b1] but for the two time stamps. *)
Definition add_again_outcome {P : Type} (o : string) (r1 r2 : result Batch.t)
    (s1 s2 : State P) : Prop :=
  ∃ b1 b2,
    r1 = Ok b1 ∧ r2 = Ok b2
    ∧ batches s1 !! Batch.ID b1 = Some b1
    ∧ batches s2 = <[Batch.ID b1 := b2]> (batches s1)
    ∧ same_batch_but_times o b1 b2.

(** The status of the item of order [o] in [b], if [b] holds the order. *)
Definition item_status (b : Batch.t) (o : string) : option string :=
  BatchItem.Status <$> find_first (Batch.has_id o) (Batch.Items b).

(** The batch [AddOrderToBatch] adds to: a stored pending batch of the
    product, or, when the product has none, a new batch under the
    generated id. *)
Definition selected_for_add (r : gmap string Batch.t) (p : string) (now : Time)
    (stamp : string) (target : Batch.t) : Prop :=
  (∃ id, r !! id = Some target
         ∧ Batch.ProductID target = p ∧ Batch.Status target = BatchStatusPending)
  ∨ (target = Batch.NewBatch (generateBatchID p stamp) p now
     ∧ ∀ id b, r !! id = Some b →
               ¬ (Batch.ProductID b = p ∧ Batch.Status b = BatchStatusPending)).

(** One run of [processReturn], from [s] to [s'] with result [r]. *)
Definition return_outcome {P : Type} (event : OrderEvent.t) (now : Time) (stamp : string)
    (s : State P) (r : option error) (s' : State P) : Prop :=
  let o := OrderEvent.OrderID event in
  let p := Order.ProductID (OrderEvent.Order event) in
  let q := Order.Quantity (OrderEvent.Order event) in
  (is_Some r ∧ s' = s
   ∧ ∀ id b, batches s !! id = Some b → Batch.HasOrder b o = false)
  ∨ ∃ id batch updated target added,
      batches s !! id = Some batch ∧ Batch.HasOrder batch o = true
      ∧ Batch.UpdateItemStatus batch o "returned" now = Ok updated
      ∧ item_status updated o = Some "returned"
      ∧ selected_for_add (<[id := updated]> (batches s)) p now stamp target
      ∧ Batch.AddItem target (o +:+ "-return") p q "returned" now = Ok added
      ∧ item_status added (o +:+ "-return") = Some "returned"
      ∧ Batch.Status added = BatchStatusPending
      ∧ r = None
      ∧ batches s' = <[Batch.ID added := added]> (<[id := updated]> (batches s))
      ∧ (Batch.Status batch ≠ BatchStatusPending →
         generateBatchID p stamp ≠ id →
         Batch.ID added ≠ id
         ∧ batches s' !! id = Some updated
         ∧ batches s' !! Batch.ID added = Some added).



(** ** infrastructure/driven-adapters/batch_event_publisher_adapter.go *)

(** The part of [github.com/segmentio/kafka-go] the adapter uses: the
    fields it sets on a [kafka.Writer] (times in seconds), and messages. *)
Module Kafka.
Inductive RequiredAcks := RequireNone | RequireOne | RequireAll.
Inductive Balancer := LeastBytes.

Record Writer := mkWriter {
  Addr : string;
  Topic : string;
  WriterBalancer : Balancer;
  WriterRequiredAcks : RequiredAcks;
  Async : bool;
  WriteTimeout : Z;
  ReadTimeout : Z
}.

Record Header := mkHeader { HeaderKey : string; HeaderValue : string }.

Record Message := mkMessage {
  Key : string;
  Value : string;
  Headers : list Header
}.
End Kafka.

(** What lies outside the adapter: [json.Marshal] on events, the RFC 3339
    rendering of a time, the answer of the broker to the [n]-th call of
    [WriteMessages] ([None] is nil, [Some text] an error with that text),
    and [strings.Map(unicode.ToLower, _)], the lower-casing of a text
    that is not all ASCII. *)
Record Environment := mkEnvironment {
  json_Marshal : BatchEvent.t → result string;
  format_RFC3339 : Time → string;
  WriteMessages : nat → option string;
  unicode_ToLower : string → string
}.

(** What the adapter does to the outside, in order.  Writers are told
    apart by a number: 0 for the one the constructor makes, one more for
    each writer made later. *)
Inductive Action :=
| DoWriteMessages (writerNo : nat) (w : Kafka.Writer) (timeout : Z) (msg : Kafka.Message)
| DoClose (writerNo : nat)
| DoSleep (seconds : Z).

Definition is_write (a : Action) : bool :=
  match a with DoWriteMessages _ _ _ _ => true | _ => false end.

Module BatchEventPublisherAdapter.
Record t := mk {
  writer : Kafka.Writer;
  writerNo : nat;
  topic : string;
  brokerAddress : string;
  actions : list Action
}.

Definition new_writer (brokerAddress topic : string) : Kafka.Writer :=
  Kafka.mkWriter brokerAddress topic Kafka.LeastBytes Kafka.RequireOne false 10 10.

Definition NewBatchEventPublisherAdapter (brokerAddress topic : string) : t :=
  mk (new_writer brokerAddress topic) 0 topic brokerAddress [].

Definition record (a : Action) (p : t) : t :=
  mk (writer p) (writerNo p) (topic p) (brokerAddress p) (actions p ++ [a]).

Definition recreateWriter (p : t) : t :=
  mk (new_writer (brokerAddress p) (topic p)) (S (writerNo p)) (topic p)
    (brokerAddress p) (actions p).

Definition unknown_topic_patterns : list string :=
  [ "[3] unknown topic or partition";
    "unknowntopicorpartition";
    "unknown topic or partition";
    "topic or partition that does not exist" ].

Definition isUnknownTopicOrPartitionError (env : Environment) (err : option string) : bool :=
  match err with
  | None => false
  | Some text =>
      let errStr := GoStrings.ToLower (unicode_ToLower env) text in
      GoStrings.Contains errStr "[3] unknown topic or partition"
      || GoStrings.Contains errStr "unknowntopicorpartition"
      || GoStrings.Contains errStr "unknown topic or partition"
      || GoStrings.Contains errStr "topic or partition that does not exist"
  end.

Definition message_of (env : Environment) (event : BatchEvent.t) (eventData : string)
    : Kafka.Message :=
  Kafka.mkMessage (BatchEvent.BatchID event) eventData
    ([ Kafka.mkHeader "event_type" (BatchEventType_name (BatchEvent.EventType event));
       Kafka.mkHeader "batch_id" (BatchEvent.BatchID event);
       Kafka.mkHeader "product_id" (BatchEvent.ProductID event);
       Kafka.mkHeader "timestamp" (format_RFC3339 env (BatchEvent.Timestamp event)) ]
     ++ match BatchEvent.OrderID event with
        | Some orderID => [Kafka.mkHeader "order_id" orderID]
        | None => []
        end).

(** [p.writer.WriteMessages(ctx, message)] under a 10 second deadline: the
    call is recorded and the broker's answer to it returned. *)
Definition write (env : Environment) (message : Kafka.Message) (p : t) : option string * t :=
  (WriteMessages env (length (filter (λ a, is_write a = true) (actions p))),
   record (DoWriteMessages (writerNo p) (writer p) 10 message) p).

Definition PublishBatchEvent (env : Environment) (event : BatchEvent.t) (p : t)
    : option error * t :=
  match json_Marshal env event with
  | Err e => (Some (Wrap "failed to marshal batch event" e), p)
  | Ok eventData =>
      let message := message_of env event eventData in
      let '(err, p) := write env message p in
      match err with
      | Some text =>
          if isUnknownTopicOrPartitionError env err then
            let p := record (DoClose (writerNo p)) p in
            let p := recreateWriter p in
            let p := record (DoSleep 2) p in
            let '(retryErr, p) := write env message p in
            match retryErr with
            | Some retryText =>
                (Some (Wrap "failed to write batch event to Kafka after retry"
                         (ErrBroker retryText)), p)
            | None => (None, p)
            end
          else (Some (Wrap "failed to write batch event to Kafka" (ErrBroker text)), p)
      | None => (None, p)
      end
  end.
End BatchEventPublisherAdapter.

Definition kafka_publisher (env : Environment)
  : BatchEventPublisher BatchEventPublisherAdapter.t :=
  BatchEventPublisherAdapter.PublishBatchEvent env.

(** Matching without regard to case, said without lower-casing anything.
    Two bytes are the same letter when they are equal, or are an upper
    case letter of A to Z and the lower case letter 32 places on. *)
Definition same_letter (a b : ascii) : Prop :=
  a = b
  ∨ ∃ upper lower : N,
      (65 ≤ upper ≤ 90)%N ∧ lower = (upper + 32)%N
      ∧ ((N_of_ascii a = upper ∧ N_of_ascii b = lower)
         ∨ (N_of_ascii a = lower ∧ N_of_ascii b = upper)).

Inductive equal_ignoring_case : string → string → Prop :=
| equal_ignoring_case_nil : equal_ignoring_case "" ""
| equal_ignoring_case_cons a b s t :
    same_letter a b → equal_ignoring_case s t →
    equal_ignoring_case (String a s) (String b t).

(** [pattern] occurs in [text], letter for letter but for the case. *)
Definition occurs_ignoring_case (pattern text : string) : Prop :=
  ∃ before middle after,
    text = before +:+ middle +:+ after ∧ equal_ignoring_case middle pattern.

(** A text of ASCII bytes only. *)
Definition all_ascii (text : string) : Prop :=
  Forall (λ c, (N_of_ascii c < 128)%N) (list_ascii_of_string text).

(** The broker error texts the specification has retried: one of the four
    patterns occurs in the text without regard to case.  For a text that
    is not all ASCII, case is what package [unicode] makes of it: the
    pattern occurs in the text as [unicode.ToLower] maps it. *)
Definition unknown_topic_error (env : Environment) (text : string) : Prop :=
  ∃ pattern,
    pattern ∈ BatchEventPublisherAdapter.unknown_topic_patterns
    ∧ ((all_ascii text ∧ occurs_ignoring_case pattern text)
       ∨ (¬ all_ascii text ∧ substring_of pattern (unicode_ToLower env text))).

(** An adapter as the constructor makes it and [PublishBatchEvent] keeps
    it: the writer is configured from the adapter's address and topic. *)
Definition built (p : BatchEventPublisherAdapter.t) : Prop :=
  BatchEventPublisherAdapter.writer p
  = BatchEventPublisherAdapter.new_writer
      (BatchEventPublisherAdapter.brokerAddress p) (BatchEventPublisherAdapter.topic p).

(** One [PublishBatchEvent] on adapter [p], ending in [p'] with result
    [err], for an event that marshals to [eventData]. *)
Definition publish_outcome (env : Environment) (event : BatchEvent.t)
    (p : BatchEventPublisherAdapter.t) (err : option error)
    (p' : BatchEventPublisherAdapter.t) : Prop :=
  ∀ eventData, json_Marshal env event = Ok eventData →
    let message := BatchEventPublisherAdapter.message_of env event eventData in
    let n := length (filter (λ a, is_write a = true) (BatchEventPublisherAdapter.actions p)) in
    let first :=
      DoWriteMessages (BatchEventPublisherAdapter.writerNo p)
        (BatchEventPublisherAdapter.writer p) 10 message in
    match WriteMessages env n with
    | None => err = None ∧ p' = BatchEventPublisherAdapter.record first p
    | Some text =>
        (unknown_topic_error env text →
           BatchEventPublisherAdapter.actions p'
           = BatchEventPublisherAdapter.actions p
             ++ [ first;
                  DoClose (BatchEventPublisherAdapter.writerNo p);
                  DoSleep 2;
                  DoWriteMessages (S (BatchEventPublisherAdapter.writerNo p))
                    (BatchEventPublisherAdapter.writer p) 10 message ]
           ∧ BatchEventPublisherAdapter.writerNo p' = S (BatchEventPublisherAdapter.writerNo p)
           ∧ BatchEventPublisherAdapter.writer p' = BatchEventPublisherAdapter.writer p
           ∧ (err = None ↔ WriteMessages env (S n) = None))
        ∧ (¬ unknown_topic_error env text →
           err = Some (Wrap "failed to write batch event to Kafka" (ErrBroker text))
           ∧ p' = BatchEventPublisherAdapter.record first p)
    end.

(** The repository after a service call is the same whatever the
    publisher behind the port is and whatever it answers. *)
Definition repository_ignores_publisher (env : Environment) : Prop :=
  ∀ (Q : Type) (other : BatchEventPublisher Q) (c : Call) (now : Time) (stamp : string)
    (s : State BatchEventPublisherAdapter.t) (t : State Q),
    batches s = batches t →
    Forall2 (λ s' t', batches s' = batches t')
      (@call _ (kafka_publisher env) c now stamp s)
      (@call Q other c now stamp t).

(** Two runs that agree on the result and on the repository, and two
    computations that keep agreeing from states with the same repository:
    they may differ in the publisher only. *)
Definition agree {P Q A : Type} (x : A * State P) (y : A * State Q) : Prop :=
  x.1 = y.1 ∧ batches x.2 = batches y.2.

Definition sim {P Q A : Type} (m : M (State P) A) (m' : M (State Q) A) : Prop :=
  ∀ s t, batches s = batches t → Forall2 agree (m s) (m' t).
End Warehouse.

Module OrderManagement.

(** ** domain/order.go *)

Inductive error :=
| ErrOrderNotFound (id : string)
| ErrBroker (msg : string)
| ErrJSON
| Wrap (context : string) (cause : error).

Inductive result (A : Type) :=
| Ok (a : A)
| Err (e : error).
Arguments Ok {A} a.
Arguments Err {A} e.

Module Order.
Record t := mk {
  ID : string;
  CustomerID : string;
  ProductID : string;
  Quantity : Z;
  Status : string;
  TotalAmount : float;
  CreatedAt : Time;
  UpdatedAt : Time
}.

Definition with_Status (o : t) (status : string) (now : Time) : t :=
  mk (ID o) (CustomerID o) (ProductID o) (Quantity o) status (TotalAmount o)
    (CreatedAt o) now.
End Order.

Module OrderEvent.
Record t := mk {
  EventType : string;
  OrderID : string;
  Order : Order.t;
  Timestamp : Time
}.
End OrderEvent.

Module OrderDamageDetails.
Record t := mk {
  Temperature : float;
  Humidity : Z;
  Status : string;
  MqttTopic : string
}.
End OrderDamageDetails.

Module OrderDamageEvent.
Record t := mk {
  EventID : string;
  Type_ : string;
  Source : string;
  OccurredAt : Time;
  OrderID : string;
  Severity : string;
  Description : string;
  Details : OrderDamageDetails.t
}.
End OrderDamageEvent.

Module MQTTOrderEvent.
Record t := mk {
  MqttTopic : string;
  Payload : string;
  Timestamp : float
}.
End MQTTOrderEvent.

(** The port [OrderEventPublisher], with the state of its implementation. *)
Class OrderEventPublisher (P : Type) :=
  PublishOrderEvent : OrderEvent.t → P → option error * P.

(** The port [OrderEventHandler], with the state of its implementation;
    the time is the handler's clock reading. *)
Class OrderEventHandler (H : Type) := {
  HandleOrderEvent : OrderEvent.t → Time → H → option error * H;
  HandleOrderDamageEvent : OrderDamageEvent.t → Time → H → option error * H
}.

(** ** infrastructure/driven-adapters/memory_order_repository.go *)

Module MemoryOrderRepository.
Definition Save (r : gmap string Order.t) (order : Order.t) : gmap string Order.t :=
  <[Order.ID order := order]> r.

Definition FindByID (r : gmap string Order.t) (id : string) : result Order.t :=
  match r !! id with
  | Some order => Ok order
  | None => Err (ErrOrderNotFound id)
  end.

Definition Update (r : gmap string Order.t) (order : Order.t) : result (gmap string Order.t) :=
  match r !! Order.ID order with
  | Some _ => Ok (<[Order.ID order := order]> r)
  | None => Err (ErrOrderNotFound (Order.ID order))
  end.

Definition Delete (r : gmap string Order.t) (id : string) : result (gmap string Order.t) :=
  match r !! id with
  | Some _ => Ok (delete id r)
  | None => Err (ErrOrderNotFound id)
  end.

(** [for _, order := range r.orders { orders = append(orders, order) }]:
    the slice built, for each order the iteration may take; the error is
    always nil. *)
Definition FindAll (r : gmap string Order.t) : list (list Order.t) :=
  permutations ((map_to_list r).*2).
End MemoryOrderRepository.

(** ** infrastructure/driven-adapters/rabbitmq_publisher.go

    [PublishOrderEvent] marshals the event and hands it to the channel.
    [json_Marshal] is [json.Marshal] on an event ([None] when it returns
    an error, as it does for an amount that is not a finite number),
    [accepts] the channel's answer to the [n]-th publish ([None] is nil),
    [sent] the events the channel took. *)
Module RabbitMQPublisher.
Record t := mk {
  exchangeName : string;
  queueName : string;
  routingKey : string;
  json_Marshal : OrderEvent.t → option string;
  accepts : nat → option string;
  attempts : nat;
  sent : list OrderEvent.t
}.

Definition Publish (event : OrderEvent.t) (p : t) : option error * t :=
  match json_Marshal p event with
  | None => (Some ErrJSON, p)
  | Some body =>
      match accepts p (attempts p) with
      | Some text =>
          (Some (ErrBroker text),
           mk (exchangeName p) (queueName p) (routingKey p) (json_Marshal p) (accepts p)
             (S (attempts p)) (sent p))
      | None =>
          (None,
           mk (exchangeName p) (queueName p) (routingKey p) (json_Marshal p) (accepts p)
             (S (attempts p)) (sent p ++ [event]))
      end
  end.
End RabbitMQPublisher.

#[global] Instance rabbitmq_publisher : OrderEventPublisher RabbitMQPublisher.t :=
  RabbitMQPublisher.Publish.

(** ** application/order_service.go *)

Record State (P : Type) := mkState {
  orders : gmap string Order.t;
  eventPublisher : P
}.
Arguments mkState {P} _ _.
Arguments orders {P} _.
Arguments eventPublisher {P} _.

(** The [switch event.Severity] of [HandleOrderDamageEvent]. *)
Definition newStatus (severity : string) : string :=
  if bool_decide (severity = "minor") then "damage_detected_minor"
  else if bool_decide (severity = "major") then "damage_detected_major"
  else if bool_decide (severity = "critical") then "cancelled_damage"
  else "damage_detected_unknown".

Section OrderService.
Context {P : Type} `{!OrderEventPublisher P}.

(** [if err := s.eventPublisher.PublishOrderEvent(ev); err != nil
    { log.Printf(...) }]. *)
Definition publish (event : OrderEvent.t) (s : State P) : State P :=
  mkState (orders s) (PublishOrderEvent event (eventPublisher s)).2.

(** [id] is the answer of [uuid.New().String()]. *)
Definition CreateOrder (id customerID productID : string) (quantity : Z)
    (totalAmount : float) (now : Time) (s : State P) : result Order.t * State P :=
  let order := Order.mk id customerID productID quantity "created" totalAmount now now in
  let s := mkState (MemoryOrderRepository.Save (orders s) order) (eventPublisher s) in
  (Ok order, publish (OrderEvent.mk "order.created" (Order.ID order) order now) s).

Definition UpdateOrderStatus (id status : string) (now : Time) (s : State P)
    : result Order.t * State P :=
  match MemoryOrderRepository.FindByID (orders s) id with
  | Err e => (Err (Wrap "order not found" e), s)
  | Ok order =>
      let order := Order.with_Status order status now in
      match MemoryOrderRepository.Update (orders s) order with
      | Err e => (Err (Wrap "failed to update order" e), s)
      | Ok r =>
          (Ok order,
           publish (OrderEvent.mk "order.updated" (Order.ID order) order now)
             (mkState r (eventPublisher s)))
      end
  end.

Definition GetOrder (id : string) (s : State P) : result Order.t :=
  MemoryOrderRepository.FindByID (orders s) id.

Definition GetAllOrders (s : State P) : list (result (list Order.t)) :=
  Ok <$> MemoryOrderRepository.FindAll (orders s).

Definition OrderService_HandleOrderEvent (event : OrderEvent.t) (now : Time) (s : State P)
    : option error * State P :=
  (None, s).

Definition OrderService_HandleOrderDamageEvent (event : OrderDamageEvent.t) (now : Time)
    (s : State P) : option error * State P :=
  let '(order, s) :=
    match MemoryOrderRepository.FindByID (orders s) (OrderDamageEvent.OrderID event) with
    | Err _ =>
        let newOrder :=
          Order.mk (OrderDamageEvent.OrderID event) "unknown" "unknown" 1
            "created_from_damage_event" 0%float (OrderDamageEvent.OccurredAt event) now in
        (newOrder,
         mkState (MemoryOrderRepository.Save (orders s) newOrder) (eventPublisher s))
    | Ok order => (order, s)
    end in
  let order := Order.with_Status order (newStatus (OrderDamageEvent.Severity event)) now in
  match MemoryOrderRepository.Update (orders s) order with
  | Err e => (Some (Wrap "failed to update order status after damage event" e), s)
  | Ok r =>
      (None,
       publish (OrderEvent.mk "order.damage_processed" (Order.ID order) order now)
         (mkState r (eventPublisher s)))
  end.

#[global] Instance order_service : OrderEventHandler (State P) := {
  HandleOrderEvent := OrderService_HandleOrderEvent;
  HandleOrderDamageEvent := OrderService_HandleOrderDamageEvent
}.

(** The states of the order service: it starts on an empty repository,
    and each call of the API or of the consumer leads to the next. *)
Inductive reachable : State P → Prop :=
| reachable_new (p : P) : reachable (mkState ∅ p)
| reachable_CreateOrder s id customerID productID quantity totalAmount now :
    reachable s →
    reachable (CreateOrder id customerID productID quantity totalAmount now s).2
| reachable_UpdateOrderStatus s id status now :
    reachable s → reachable (UpdateOrderStatus id status now s).2
| reachable_HandleOrderDamageEvent s event now :
    reachable s → reachable (OrderService_HandleOrderDamageEvent event now s).2.
End OrderService.

(** ** infrastructure/driving-adapters/order_consumer_adapter.go *)

(** [encoding/json] on the three types the adapter decodes into: [None]
    when [json.Unmarshal] returns an error. *)
Record Json := mkJson {
  unmarshal_MQTTOrderEvent : string → option MQTTOrderEvent.t;
  unmarshal_OrderEvent : string → option OrderEvent.t;
  unmarshal_OrderDamageEvent : string → option OrderDamageEvent.t
}.

(** What [translateMessage] returns in its [interface{}]. *)
Inductive Translated :=
| IsOrderDamageEvent (e : OrderDamageEvent.t)
| IsOrderEvent (e : OrderEvent.t).

(** [delivery.Ack(false)], [delivery.Nack(false, true)] and
    [delivery.Nack(false, false)]. *)
Inductive Settlement :=
| Ack
| NackRequeue
| NackNoRequeue.

Definition zero_Order : Order.t := Order.mk "" "" "" 0 "" 0%float 0 0.

Definition handleOrderDamageEvent (json : Json) (mqttEvent : MQTTOrderEvent.t)
    : result OrderDamageEvent.t :=
  match unmarshal_OrderDamageEvent json (MQTTOrderEvent.Payload mqttEvent) with
  | Some damageEvent => Ok damageEvent
  | None => Err ErrJSON
  end.

Definition translateMessage (json : Json) (body : string) (now : Time) : result Translated :=
  let viaWrapper :=
    match unmarshal_MQTTOrderEvent json body with
    | Some mqttEvent =>
        if bool_decide (MQTTOrderEvent.MqttTopic mqttEvent = "events/order-damage") then
          Some match handleOrderDamageEvent json mqttEvent with
               | Ok e => Ok (IsOrderDamageEvent e)
               | Err e => Err e
               end
        else None
    | None => None
    end in
  match viaWrapper with
  | Some answer => answer
  | None =>
      match unmarshal_OrderEvent json body with
      | Some event => Ok (IsOrderEvent event)
      | None => Ok (IsOrderEvent (OrderEvent.mk "order.message" "unknown" zero_Order now))
      end
  end.

Section Consumer.
Context {H : Type} `{!OrderEventHandler H}.

(** The body of the [case delivery, ok := <-msgs] branch of [Start], for
    one delivery.  Both types [translateMessage] returns have a case in
    the type switch, so its [default] branch is never taken. *)
Definition consume (json : Json) (body : string) (now : Time) (h : H) : Settlement * H :=
  match translateMessage json body now with
  | Err _ => (NackNoRequeue, h)
  | Ok event =>
      let '(handlingErr, h) :=
        match event with
        | IsOrderDamageEvent e => HandleOrderDamageEvent e now h
        | IsOrderEvent e => HandleOrderEvent e now h
        end in
      match handlingErr with
      | Some _ => (NackRequeue, h)
      | None => (Ack, h)
      end
  end.

(** [Start] on the deliveries that arrive before the context is done. *)
Fixpoint Start (json : Json) (deliveries : list (string * Time)) (h : H) : list Settlement * H :=
  match deliveries with
  | [] => ([], h)
  | (body, now) :: rest =>
      let '(settled, h) := consume json body now h in
      let '(more, h) := Start json rest h in
      (settled :: more, h)
  end.
End Consumer.

(** ** infrastructure/driving-adapters/api_service_adapter.go *)

Module CreateOrderRequest.
Record t := mk {
  CustomerID : string;
  ProductID : string;
  Quantity : Z;
  TotalAmount : float
}.
End CreateOrderRequest.

(** What a handler hands to [c.JSON]: the status code and the body, an
    order, a list of orders or a [gin.H] with the one field [error]. *)
Inductive Body :=
| ErrorBody (text : string)
| OrderBody (order : Order.t)
| OrdersBody (found : list Order.t).

Record Response := mkResponse {
  code : Z;
  body : Body
}.

Section ApiServiceAdapter.
Context {P : Type} `{!OrderEventPublisher P}.

(** [bound] is what [c.ShouldBindJSON(&req)] makes of the request: the
    request, or the text of its error (a body that is not JSON, a field
    that is required and missing, a quantity below 1, ...).  [id] is the
    answer of [uuid.New().String()]. *)
Definition createOrderHandler (bound : CreateOrderRequest.t + string) (id : string)
    (now : Time) (s : State P) : Response * State P :=
  match bound with
  | inr text => (mkResponse 400 (ErrorBody text), s)
  | inl req =>
      let '(created, s) :=
        CreateOrder id (CreateOrderRequest.CustomerID req) (CreateOrderRequest.ProductID req)
          (CreateOrderRequest.Quantity req) (CreateOrderRequest.TotalAmount req) now s in
      match created with
      | Err _ => (mkResponse 500 (ErrorBody "Failed to create order"), s)
      | Ok order => (mkResponse 201 (OrderBody order), s)
      end
  end.

Definition getAllOrdersHandler (s : State P) : list Response :=
  (λ r, match r with
        | Err _ => mkResponse 500 (ErrorBody "Failed to get orders")
        | Ok found => mkResponse 200 (OrdersBody found)
        end) <$> GetAllOrders s.

Definition getOrderHandler (id : string) (s : State P) : Response :=
  match GetOrder id s with
  | Err _ => mkResponse 404 (ErrorBody "Order not found")
  | Ok order => mkResponse 200 (OrderBody order)
  end.

(** [bound] is the status of the request, or the text of the error of
    [c.ShouldBindJSON]. *)
Definition updateOrderStatusHandler (id : string) (bound : string + string) (now : Time)
    (s : State P) : Response * State P :=
  match bound with
  | inr text => (mkResponse 400 (ErrorBody text), s)
  | inl status =>
      let '(updated, s) := UpdateOrderStatus id status now s in
      match updated with
      | Err _ => (mkResponse 404 (ErrorBody "Order not found"), s)
      | Ok order => (mkResponse 200 (OrderBody order), s)
      end
  end.
End ApiServiceAdapter.

(** ** config/config.go *)

Module Config.
Record RabbitMQConfig := mkRabbitMQConfig {
  URL : string;
  ExchangeName : string;
  ConsumerQueueName : string;
  ConsumerRoutingKey : string;
  PublisherQueueName : string;
  PublisherRoutingKey : string
}.

Record HTTPConfig := mkHTTPConfig { Port : string }.

Record t := mk {
  RabbitMQ : RabbitMQConfig;
  HTTP : HTTPConfig
}.

(** [fmt.Sprintf("amqp://%s:%s@%s:%s/", user, password, host, port)]. *)
Definition LoadConfig (environ : gmap string string) : t :=
  let rabbitmqURL := getEnv environ "RABBITMQ_URL" "" in
  let rabbitmqURL :=
    if bool_decide (rabbitmqURL = "") then
      let host := getEnv environ "RABBITMQ_HOST" "localhost" in
      let port := getEnv environ "RABBITMQ_PORT" "5672" in
      let user := getEnv environ "RABBITMQ_USER" "guest" in
      let password := getEnv environ "RABBITMQ_PASSWORD" "guest" in
      "amqp://" +:+ user +:+ ":" +:+ password +:+ "@" +:+ host +:+ ":" +:+ port +:+ "/"
    else rabbitmqURL in
  mk (mkRabbitMQConfig rabbitmqURL
        (getEnv environ "RABBITMQ_EXCHANGE" "events")
        (getEnv environ "RABBITMQ_CONSUMER_QUEUE" "order-damage-queue")
        (getEnv environ "RABBITMQ_CONSUMER_ROUTING_KEY" "order.damage")
        (getEnv environ "RABBITMQ_PUBLISHER_QUEUE" "order-events-queue")
        (getEnv environ "RABBITMQ_PUBLISHER_ROUTING_KEY" "order.events"))
     (mkHTTPConfig (getEnv environ "HTTP_PORT" "8081")).
End Config.

(** Orders sit under their own id ([r.orders[order.ID] = order]). *)
Definition keyed_by_id (r : gmap string Order.t) : Prop :=
  ∀ id o, r !! id = Some o → Order.ID o = id.

(** One [HandleOrderDamageEvent] of the service with the RabbitMQ
    publisher, from [s] to [s'] with result [r].  The order is updated
    and the result is nil whatever becomes of the event; the event
    [order.damage_processed] with the order as updated reaches the
    channel once when it marshals, and is published (taken by the
    channel) exactly when the channel then accepts it. *)
Definition damage_event_outcome (event : OrderDamageEvent.t) (now : Time)
    (s : State RabbitMQPublisher.t) (r : option error) (s' : State RabbitMQPublisher.t)
    : Prop :=
  let id := OrderDamageEvent.OrderID event in
  let p := eventPublisher s in
  let p' := eventPublisher s' in
  ∃ order,
    r = None
    ∧ orders s' = <[id := order]> (orders s)
    ∧ Order.ID order = id
    ∧ Order.Status order = newStatus (OrderDamageEvent.Severity event)
    ∧ Order.UpdatedAt order = now
    ∧ match orders s !! id with
      | None =>
          Order.CustomerID order = "unknown" ∧ Order.ProductID order = "unknown"
          ∧ Order.Quantity order = 1 ∧ Order.TotalAmount order = 0%float
          ∧ Order.CreatedAt order = OrderDamageEvent.OccurredAt event
      | Some old =>
          Order.CustomerID order = Order.CustomerID old
          ∧ Order.ProductID order = Order.ProductID old
          ∧ Order.Quantity order = Order.Quantity old
          ∧ Order.TotalAmount order = Order.TotalAmount old
          ∧ Order.CreatedAt order = Order.CreatedAt old
      end
    ∧ let orderEvent := OrderEvent.mk "order.damage_processed" id order now in
      match RabbitMQPublisher.json_Marshal p orderEvent with
      | None =>
          RabbitMQPublisher.attempts p' = RabbitMQPublisher.attempts p
          ∧ RabbitMQPublisher.sent p' = RabbitMQPublisher.sent p
      | Some body =>
          RabbitMQPublisher.attempts p' = S (RabbitMQPublisher.attempts p)
          ∧ RabbitMQPublisher.sent p'
            = RabbitMQPublisher.sent p
              ++ match RabbitMQPublisher.accepts p (RabbitMQPublisher.attempts p) with
                 | None => [orderEvent]
                 | Some refusal => []
                 end
      end.

(** The status table of the specification. *)
Definition status_table (severity status : string) : Prop :=
  (severity = "minor" → status = "damage_detected_minor")
  ∧ (severity = "major" → status = "damage_detected_major")
  ∧ (severity = "critical" → status = "cancelled_damage")
  ∧ (severity ≠ "minor" → severity ≠ "major" → severity ≠ "critical" →
     status = "damage_detected_unknown").
End OrderManagement.

Module Detector.

(** ** main.go: what the client receives *)

Module EventData.
Record t := mk {
  Temperature : float;
  Humidity : float;
  Status : string
}.
End EventData.

Module Event.
Record t := mk {
  ID : string;
  Timestamp : Time;
  Type_ : string;
  Source : string;
  Data : EventData.t
}.
End Event.

Module EventStore.
Record t := mk {
  events : list Event.t;
  maxSize : nat
}.

Definition NewEventStore (maxSize : nat) : t := mk [] maxSize.

(** [es.events = es.events[len(es.events)-es.maxSize:]] when too long. *)
Definition AddEvent (es : t) (event : Event.t) : t :=
  let events := events es ++ [event] in
  if (maxSize es <? length events)%nat then
    mk (drop (length events - maxSize es) events) (maxSize es)
  else mk events (maxSize es).

Definition GetEvents (es : t) : list Event.t := events es.

(** [nil] when the store is empty, else [&es.events[len(es.events)-1]]. *)
Definition GetLatestEvent (es : t) : option Event.t := last (events es).

Definition GetEventCount (es : t) : Z := Z.of_nat (length (events es)).
End EventStore.

(** ** publisher/OrderPublisher.go and publisher/MqttPublisher.go *)

Module DamageDetails.
Record t := mk {
  Temperature : float;
  Humidity : float;
  Status : string;
  MqttTopic : string
}.
End DamageDetails.

Module OrderDamageEvent.
Record t := mk {
  EventID : string;
  Type_ : string;
  Source : string;
  OccurredAt : Time;
  OrderID : string;
  Severity : string;
  Description : string;
  Details : DamageDetails.t
}.
End OrderDamageEvent.

(** [temperature >= 30] on [float64] is [30 <=? temperature]. *)
Definition deriveSeverity (temperature humidity : float) : string :=
  let severity := "minor" in
  let severity :=
    if (30 <=? temperature)%float || (80 <=? humidity)%float then "major" else severity in
  let severity :=
    if (40 <=? temperature)%float || (90 <=? humidity)%float then "critical" else severity in
  severity.

(** Where a damage event can go: the topic of the MQTT publisher, or the
    topic of the Kafka publisher of the same package. *)
Inductive Sink :=
| MqttTopic (topic : string)
| KafkaTopic (topic : string).

(** One publish handed to a client library, under a deadline in seconds. *)
Record Attempt := mkAttempt {
  sink : Sink;
  timeout : Z;
  sent : OrderDamageEvent.t
}.

(** What the publishers take from outside: the text
    [fmt.Sprintf("Potential damage detected: temp=%.2fC, humidity=%.2f%%", ...)],
    [json.Marshal] on the event (the payload, or the text of its error:
    it returns one for a temperature or humidity that is not a finite
    number) and the answer of the client library to a publish ([None] is
    nil). *)
Record Environment := mkEnvironment {
  describe : float → float → string;
  json_Marshal : OrderDamageEvent.t → string + string;
  answer : Attempt → option string
}.

Definition damage_event (env : Environment) (sensorID source : string)
    (temperature humidity : float) (status mqttTopic : string) (now : Time)
    : OrderDamageEvent.t :=
  OrderDamageEvent.mk sensorID "order.damage" source now sensorID
    (deriveSeverity temperature humidity) (describe env temperature humidity)
    (DamageDetails.mk temperature humidity status mqttTopic).

(** A publisher pointer: [None] is nil, [Some topic] a connected publisher
    with that topic. *)
Definition MqttPublisher := option string.
Definition Publisher := option string.

(** Both [PublishOrderDamageFromSensor] methods: the result and the
    publishes made. *)
Definition MqttPublisher_PublishOrderDamageFromSensor (env : Environment)
    (p : MqttPublisher) (ctxTimeout : Z) (sensorID source : string)
    (temperature humidity : float) (status mqttTopic : string) (now : Time)
    : option string * list Attempt :=
  match p with
  | None => (None, [])
  | Some topic =>
      let evt := damage_event env sensorID source temperature humidity status mqttTopic now in
      match json_Marshal env evt with
      | inr text => (Some text, [])
      | inl payload =>
          let attempt := mkAttempt (MqttTopic topic) ctxTimeout evt in
          (answer env attempt, [attempt])
      end
  end.

Definition Publisher_PublishOrderDamageFromSensor (env : Environment)
    (p : Publisher) (ctxTimeout : Z) (sensorID source : string)
    (temperature humidity : float) (status mqttTopic : string) (now : Time)
    : option string * list Attempt :=
  match p with
  | None => (None, [])
  | Some topic =>
      let evt := damage_event env sensorID source temperature humidity status mqttTopic now in
      match json_Marshal env evt with
      | inr text => (Some text, [])
      | inl payload =>
          let attempt := mkAttempt (KafkaTopic topic) ctxTimeout evt in
          (answer env attempt, [attempt])
      end
  end.

(** ** main.go: the package variables and the message handler *)

Record Globals := mkGlobals {
  minTemperature : float;
  eventStore : EventStore.t;
  orderPublisher : MqttPublisher
}.

(** [var minTemperature float64 = 10.0]; [main] makes the store and the
    publisher. *)
Definition started (publisher : MqttPublisher) : Globals :=
  mkGlobals 10%float (EventStore.NewEventStore 1000) publisher.

(** [messageHandler] on a message of [topic]; [payload] is what
    [json.Unmarshal] makes of the bytes, [None] when it fails.  The result
    of the publish is only logged. *)
Definition messageHandler (env : Environment) (topic : string) (payload : option Event.t)
    (now : Time) (g : Globals) : Globals * list Attempt :=
  match payload with
  | None => (g, [])
  | Some event =>
      let g := mkGlobals (minTemperature g) (EventStore.AddEvent (eventStore g) event)
                 (orderPublisher g) in
      if (EventData.Temperature (Event.Data event) <? minTemperature g)%float then
        (g, (MqttPublisher_PublishOrderDamageFromSensor env (orderPublisher g) 5
               (Event.ID event) "mqtt-order-event-client"
               (EventData.Temperature (Event.Data event))
               (EventData.Humidity (Event.Data event))
               (EventData.Status (Event.Data event)) topic now).2)
      else (g, [])
  end.

(** The endpoints [/events], [/events/latest] and [/events/count] of
    [startHTTPServer]: the status code and what goes into the body. *)
Inductive Body :=
| EventsBody (events : list Event.t) (count : Z)
| EventBody (event : Event.t)
| CountBody (count : Z)
| ErrorBody (text : string).

Definition eventsHandler (g : Globals) : Z * Body :=
  let events := EventStore.GetEvents (eventStore g) in
  (200, EventsBody events (Z.of_nat (length events))).

Definition latestHandler (g : Globals) : Z * Body :=
  match EventStore.GetLatestEvent (eventStore g) with
  | None => (404, ErrorBody "No events available")
  | Some event => (200, EventBody event)
  end.

Definition countHandler (g : Globals) : Z * Body :=
  (200, CountBody (EventStore.GetEventCount (eventStore g))).

(** The messages of a connection, handled one after the other: the
    package variables at the end, and the publishes made, in order. *)
Fixpoint handle_messages (env : Environment)
    (messages : list (string * option Event.t * Time)) (g : Globals)
    : Globals * list Attempt :=
  match messages with
  | [] => (g, [])
  | (topic, payload, now) :: rest =>
      let '(g, attempts) := messageHandler env topic payload now g in
      let '(g, more) := handle_messages env rest g in
      (g, attempts ++ more)
  end.

(** The severity of a reading by its humidity alone. *)
Definition severity_by_humidity (humidity : float) : string :=
  if (90 <=? humidity)%float then "critical"
  else if (80 <=? humidity)%float then "major"
  else "minor".

(** The severity rule of the specification. *)
Definition severity_rule (temperature humidity : float) : string :=
  if (40 <=? temperature)%float || (90 <=? humidity)%float then "critical"
  else if (30 <=? temperature)%float || (80 <=? humidity)%float then "major"
  else "minor".
End Detector.

(** * The event generator (services/mqtt-event-generator/main.go) *)

Module Generator.

(** [float64(n)] for an [int64] [n] above [-2^63]. *)
Definition float64_of_int (n : Z) : float :=
  if n <? 0 then (- of_uint63 (Uint63.of_Z (- n)))%float
  else of_uint63 (Uint63.of_Z n).

Module EventData.
Record t := mk {
  Temperature : float;
  Humidity : float;
  Status : string
}.
End EventData.

Module Event.
Record t := mk {
  ID : string;
  Timestamp : Time;
  Type_ : string;
  Source : string;
  Data : EventData.t
}.
End Event.

(** The package variables [MinTemperature] and [MaxTemperature]. *)
Record Limits := mkLimits {
  MinTemperature : float;
  MaxTemperature : float
}.

(** [var ( MinTemperature = 07.0; MaxTemperature = 12.0 )]. *)
Definition initial : Limits := mkLimits 7 12.

(** [r] is the answer of [rand.Float64()]. *)
Definition GetTemperatureRandom (lowerLimit upperLimit r : float) : float :=
  (lowerLimit + r * (upperLimit - lowerLimit))%float.

(** [50.0 + (float64(time.Now().Unix()%30) - 15)]; Go's [%] truncates
    towards zero, as [Z.rem] does. *)
Definition humidity (unix : Z) : float :=
  (50 + (float64_of_int (Z.rem unix 30) - 15))%float.

(** [unix] is [time.Now().Unix()], [render] is [fmt.Sprintf("evt_%d", _)]
    and [r] the answer of [rand.Float64()]. *)
Definition generateEvent (render : Z → string) (g : Limits) (unix : Z) (now : Time)
    (r : float) : Event.t :=
  Event.mk (render unix) now "sensor_reading" "temperature_sensor_03"
    (EventData.mk (GetTemperatureRandom (MinTemperature g) (MaxTemperature g) r)
       (humidity unix) "active").

(** [atoi] is [strconv.Atoi], [None] when it returns an error. *)
Definition getEventIntervalMs (atoi : string → option Z) (environ : gmap string string)
    (key : string) (defaultValue : Z) : Z :=
  let value := Getenv environ key in
  if negb (bool_decide (value = "")) then
    match atoi value with
    | Some interval => if 0 <? interval then interval else defaultValue
    | None => defaultValue
    end
  else defaultValue.

(** [time.Duration(eventInterval) * time.Millisecond]: the period handed
    to [time.NewTicker], in nanoseconds, a product on [int64].
    [time.NewTicker] panics when the period is not positive. *)
Definition tickerPeriod (eventInterval : Z) : Z := wrap64 (wrap64 eventInterval * 1000000).

Definition NewTicker_panics (d : Z) : bool := d <=? 0.

(** [parse] is [strconv.ParseFloat(_, 64)], [None] when it returns an
    error. *)
Definition getEnvFloat (parse : string → option float) (environ : gmap string string)
    (key : string) (defaultValue : float) : float :=
  let value := Getenv environ key in
  if negb (bool_decide (value = "")) then
    match parse value with
    | Some floatVal => floatVal
    | None => defaultValue
    end
  else defaultValue.

(** The limits [main] starts with; [None] when it stops at
    [log.Fatalf] because [MinTemperature >= MaxTemperature]. *)
Definition startup (parse : string → option float) (environ : gmap string string)
    : option Limits :=
  let g := mkLimits (getEnvFloat parse environ "TEMP_MIN" 7)
             (getEnvFloat parse environ "TEMP_MAX" 12) in
  if (MaxTemperature g <=? MinTemperature g)%float then None else Some g.

Module TemperatureLimitsRequest.
Record t := mk {
  MinTemperature : float;
  MaxTemperature : float
}.
End TemperatureLimitsRequest.

(** [temperatureLimitsHandler]: the status code and the limits in force
    afterwards.  [decoded] is what [json.NewDecoder(r.Body).Decode(&req)]
    makes of the body, [None] when it returns an error. *)
Definition temperatureLimitsHandler (method : string)
    (decoded : option TemperatureLimitsRequest.t) (g : Limits) : Z * Limits :=
  if negb (bool_decide (method = "POST")) then (405, g)
  else
    match decoded with
    | None => (400, g)
    | Some req =>
        if (TemperatureLimitsRequest.MaxTemperature req
            <=? TemperatureLimitsRequest.MinTemperature req)%float
        then (400, g)
        else
          (200, mkLimits (TemperatureLimitsRequest.MinTemperature req)
                  (TemperatureLimitsRequest.MaxTemperature req))
    end.

(** The requests to [/temperature-limits], served one after the other. *)
Definition serve (requests : list (string * option TemperatureLimitsRequest.t))
    (g : Limits) : Limits :=
  foldl (λ g request, (temperatureLimitsHandler request.1 request.2 g).2) g requests.
End Generator.


(** * Concrete states used as examples

    In the examples an instant is a number of milliseconds after
    2025-01-01 00:00:00, and a stamp the rendering of that instant by
    [time.Format("20060102150405")]. *)

Module Examples.
Import Warehouse.

Definition mock0 : State MockBatchEventPublisher.t :=
  mkState ∅ MockBatchEventPublisher.NewMockBatchEventPublisher.

(** The state after one [AddOrderToBatch] on an empty repository. *)
Definition after_first_add : State MockBatchEventPublisher.t :=
  default mock0
    (head (call (CallAddOrderToBatch "order-1" "p1" 5 "allocated") 100 "20250101000000" mock0)).

(** ... and after the order is removed again. *)
Definition after_removal : State MockBatchEventPublisher.t :=
  default mock0 (head (snd <$> RemoveOrderFromBatch "order-1" 200 after_first_add)).

(** Two identical [AddOrderToBatch] calls in a row, at different times. *)
Definition first_add : result Batch.t * State MockBatchEventPublisher.t :=
  default (Err (ErrNoPendingBatch "p1"), mock0)
    (head (AddOrderToBatch "order-1" "p1" 5 "allocated" 100 "20250101000000" mock0)).

Definition second_add : result Batch.t * State MockBatchEventPublisher.t :=
  default (Err (ErrNoPendingBatch "p1"), mock0)
    (head (AddOrderToBatch "order-1" "p1" 5 "allocated" 50000 "20250101000050" first_add.2)).

Definition item1 : BatchItem.t := BatchItem.mk "order-1" "p1" 5 "allocated" 100 None.

Definition batch_with (status : BatchStatus) : Batch.t :=
  Batch.mk "BATCH-p1-20250101000000" "p1" status [item1] 1 100 100 None.

Definition damaged_batch : Batch.t := batch_with BatchStatusDamaged.

(** The pending batch of [order-1] with [order-2] added 50 units later. *)
Definition second_item_added : Batch.t :=
  Batch.mk "BATCH-p1-20250101000000" "p1" BatchStatusPending
    [item1; BatchItem.mk "order-2" "p1" 3 "allocated" 150 None] 2 100 150 None.

Definition order_of (id : string) (quantity : Z) (status : string) : Order.t :=
  Order.mk id "unknown" "p1" quantity status 0%float 90 95.



(** The batch of [order-1] once it is cancelled, or marked damaged. *)
Definition after_cancel : State MockBatchEventPublisher.t :=
  default mock0
    (head (call (CallCancelBatch "BATCH-p1-20250101000000") 120 "20250101000000"
             after_first_add)).

Definition after_marked_damaged : State MockBatchEventPublisher.t :=
  default mock0
    (head (call (CallMarkBatchAsDamaged "BATCH-p1-20250101000000") 120 "20250101000000"
             after_first_add)).

(** The batch of [order-1] once it is being processed. *)
Definition after_processing : State MockBatchEventPublisher.t :=
  default mock0
    (head (call (CallProcessBatch "BATCH-p1-20250101000000") 120 "20250101000000"
             after_first_add)).

Definition return_order1 : OrderEvent.t :=
  OrderEvent.mk "order.returned" "order-1" (order_of "order-1" 5 "returned") 125.

(** The return handled one minute after the batch was created. *)
Definition after_return : State MockBatchEventPublisher.t :=
  default mock0
    (head (snd <$> HandleOrderEvent return_order1 60130 "20250101000100" after_processing)).

(** The events a list of order events leaves in the mock publisher, and
    the repository it leaves, along the first run (the examples below have
    one run only). *)
Fixpoint handle_all (events : list (OrderEvent.t * Time * string))
    (s : State MockBatchEventPublisher.t) : State MockBatchEventPublisher.t :=
  match events with
  | [] => s
  | (event, now, stamp) :: rest =>
      handle_all rest (default s (head (snd <$> HandleOrderEvent event now stamp s)))
  end.

Definition published_types (s : State MockBatchEventPublisher.t) : list string :=
  (λ e, BatchEventType_name (BatchEvent.EventType e))
    <$> MockBatchEventPublisher.PublishedEvents (eventPublisher s).

Definition order_event (eventType orderID : string) (quantity : Z) (status : string)
    : OrderEvent.t :=
  OrderEvent.mk eventType orderID (order_of orderID quantity status) 96.

(** What a run leaves in the repository, with the call's result. *)
Definition outcomes {A} (runs : list (A * State MockBatchEventPublisher.t))
  : list (A * gmap string Batch.t) :=
  (λ '(r, s), (r, batches s)) <$> runs.

(** A broker that reports a missing topic on the first write only. *)
Definition recovering_env : Environment :=
  mkEnvironment (λ event, Ok ("{}" : string)) (λ _, "2025-01-01T00:00:00Z")
    (λ n, match n with
          | O => Some "[3] Unknown Topic Or Partition: the request is for a topic or partition that does not exist on this broker"
          | _ => None
          end)
    (λ text, text).

Definition adapter0 : BatchEventPublisherAdapter.t :=
  BatchEventPublisherAdapter.NewBatchEventPublisherAdapter "kafka:9092" "warehouse-batch-events".

Definition created_event : BatchEvent.t :=
  NewBatchCreatedEvent (batch_with BatchStatusPending) 100.

(** Order events about [order-1], and one about an order no batch holds. *)
Definition created_order1 : OrderEvent.t := order_event "order.created" "order-1" 5 "created".

Definition cancelled_order1 : OrderEvent.t :=
  order_event "order.cancelled" "order-1" 5 "cancelled".

Definition shipped_order9 : OrderEvent.t := order_event "order.shipped" "order-9" 1 "shipped".

(** What the consumer reads in the examples: a read that times out, a
    value that does not decode and one that decodes into the cancellation
    of [order-1] (values are named by a short text). *)
Definition example_unmarshal (value : string) : option OrderEvent.t :=
  if bool_decide (value = "cancel order-1") then Some cancelled_order1 else None.

Definition example_reads : list (Read * Time * string) :=
  [(ReadFails "context deadline exceeded", 150, "20250101000000");
   (ReadGives "not json", 160, "20250101000000");
   (ReadGives "cancel order-1", 200, "20250101000000")].

(** The listings of the repository of [after_first_add], by status. *)
Definition listed_by_status (status : BatchStatus) : list Batch.t :=
  if decide (status = BatchStatusPending) then [batch_with BatchStatusPending] else [].

(** The answer to [GET /api/v1/batches/order/order-1] in [after_first_add]. *)
Definition order1_response : Gin.Response :=
  Gin.mkResponse 200
    [("order_id", Gin.VString "order-1");
     ("batch", Gin.VBatch (ToBatchDTO (batch_with BatchStatusPending)))].
End Examples.

Module OrderExamples.
Import OrderManagement.

Definition damage1 : OrderDamageEvent.t :=
  OrderDamageEvent.mk "evt_1" "order.damage" "mqtt-order-event-client" 50 "evt_1" "minor"
    "Potential damage detected: temp=9.25C, humidity=58.00%"
    (OrderDamageDetails.mk 9.25%float 58 "active" "events/sensor").

(** Bodies are named by a short text, not spelled out in JSON. *)
Definition wrapper_body : string := "wrapper(events/order-damage, evt_1)".

(** [encoding/json] on the bodies of the examples: [wrapper_body] is a
    wrapper whose payload is [damage1]; the other body used, [not json],
    decodes into nothing. *)
Definition example_json : Json :=
  mkJson
    (λ body, if bool_decide (body = wrapper_body)
             then Some (MQTTOrderEvent.mk "events/order-damage" "evt_1" 0%float)
             else None)
    (λ body, None)
    (λ payload, if bool_decide (payload = "evt_1") then Some damage1 else None).

Definition publisher_with (accepts : nat → option string) : RabbitMQPublisher.t :=
  RabbitMQPublisher.mk "events" "order-events-queue" "order.events" (λ _, Some "{}")
    accepts 0 [].

(** An empty repository behind a channel that takes every event ... *)
Definition working : State RabbitMQPublisher.t :=
  mkState ∅ (publisher_with (λ _, None)).

(** ... and behind one that refuses every event. *)
Definition broken : State RabbitMQPublisher.t :=
  mkState ∅ (publisher_with (λ _, Some "channel/connection is not open")).

(** The service after [order-1] is created at time 50. *)
Definition with_order1 : State RabbitMQPublisher.t :=
  (CreateOrder "order-1" "c1" "p1" 5 10%float 50 working).2.

Definition example_deliveries : list (string * Time) :=
  [(wrapper_body, 60); ("not json", 70)].
End OrderExamples.

Module DetectorExamples.
Import Detector.

Definition quiet_env : Environment :=
  mkEnvironment (λ _ _, "Potential damage detected") (λ _, inl "{}") (λ _, None).

Definition reading (temperature humidity : float) : Event.t :=
  Event.mk "evt_1" 40 "sensor" "sensor-1" (EventData.mk temperature humidity "active").

(** A cold and humid reading, and the publish it leads to. *)
Definition cold_humid_messages : list (string * option Event.t * Time) :=
  [("events/sensor", Some (reading 9.25 85), 50)].

Definition cold_humid_attempt : Attempt :=
  mkAttempt (MqttTopic "events/order-damage") 5
    (damage_event quiet_env "evt_1" "mqtt-order-event-client" 9.25 85 "active"
       "events/sensor" 50).
End DetectorExamples.

(** * Properties *)

(** ** Runs of a computation *)

Section Runs.
Context {S : Type}.

Lemma run_bind {A B} (m : M S A) (f : A → M S B) s y :
  y ∈ (m ≫= f) s ↔ ∃ a s1, (a, s1) ∈ m s ∧ y ∈ f a s1.
Proof.
  unfold mbind at 1, M_bind. rewrite list_elem_of_bind. split.
  - intros ([a s1] & ? & ?). eauto.
  - intros (a & s1 & ? & ?). exists (a, s1). eauto.
Qed.

Lemma run_ret {A} (a : A) (s : S) y : y ∈ ret a s ↔ y = (a, s).
Proof. unfold ret, mret, M_ret. apply list_elem_of_singleton. Qed.

Lemma run_gets {A} (f : S → A) s y : y ∈ gets f s ↔ y = (f s, s).
Proof. apply list_elem_of_singleton. Qed.

Lemma run_modify (f : S → S) s y : y ∈ modify f s ↔ y = (tt, f s).
Proof. apply list_elem_of_singleton. Qed.

Lemma run_choose {A} (l : list A) (s : S) y : y ∈ choose l s ↔ ∃ a, y = (a, s) ∧ a ∈ l.
Proof. unfold choose. apply list_elem_of_fmap. Qed.
End Runs.

(** ** Slices *)

Section Slices.
Context {A : Type}.
Implicit Types (p : A → bool) (f : A → A) (l : list A).

Lemma update_first_None p f l :
  update_first p f l = None ↔ find_first p l = None.
Proof.
  induction l as [|x l IH]; simpl; first done.
  destruct (p x); first done.
  destruct (update_first p f l); simpl; intuition congruence.
Qed.

Lemma update_first_length p f l l' :
  update_first p f l = Some l' → length l' = length l.
Proof.
  revert l'. induction l as [|x l IH]; intros l'; simpl; [done|].
  destruct (p x); [intros [= <-]; done|].
  destruct (update_first p f l); simpl; [|done].
  intros [= <-]. simpl. f_equal. by apply IH.
Qed.

Lemma update_first_elem p f l l' y :
  update_first p f l = Some l' → y ∈ l' → y ∈ l ∨ ∃ x, x ∈ l ∧ p x = true ∧ y = f x.
Proof.
  revert l'. induction l as [|x l IH]; intros l'; simpl; [done|].
  destruct (p x) eqn:Hp.
  - intros [= <-]. rewrite !elem_of_cons. intros [->|?]; [|by auto].
    right. exists x. rewrite elem_of_cons. auto.
  - destruct (update_first p f l); simpl; [|done].
    intros [= <-]. rewrite !elem_of_cons. intros [->|Hy]; [by auto|].
    destruct (IH _ eq_refl Hy) as [?|(z & ? & ? & ?)]; [by auto|].
    right. exists z. rewrite elem_of_cons. auto.
Qed.

Lemma remove_first_elem p l l' y :
  remove_first p l = Some l' → y ∈ l' → y ∈ l.
Proof.
  revert l'. induction l as [|x l IH]; intros l'; simpl; [done|].
  destruct (p x).
  - intros [= <-]. rewrite elem_of_cons. auto.
  - destruct (remove_first p l); simpl; [|done].
    intros [= <-]. rewrite !elem_of_cons. intros [->|?]; eauto.
Qed.

Lemma remove_first_None p l :
  remove_first p l = None ↔ find_first p l = None.
Proof.
  induction l as [|x l IH]; simpl; first done.
  destruct (p x); first done.
  destruct (remove_first p l); simpl; intuition congruence.
Qed.

Lemma find_first_Some p l x : find_first p l = Some x → x ∈ l ∧ p x = true.
Proof.
  induction l as [|y l IH]; simpl; [done|].
  destruct (p y) eqn:Hp.
  - intros [= <-]. rewrite elem_of_cons. auto.
  - intros H. destruct (IH H). rewrite elem_of_cons. auto.
Qed.

Lemma find_first_None p l : find_first p l = None ↔ ∀ x, x ∈ l → p x = false.
Proof.
  induction l as [|y l IH]; simpl.
  - split; [intros _ x Hx; by apply elem_of_nil in Hx|done].
  - destruct (p y) eqn:Hp.
    + split; [done|]. intros H. specialize (H y). rewrite elem_of_cons in H.
      rewrite H in Hp; [done|auto].
    + rewrite IH. split.
      * intros H x. rewrite elem_of_cons. intros [->|?]; auto.
      * intros H x Hx. apply H. rewrite elem_of_cons. auto.
Qed.
End Slices.

Import Warehouse.

(** ** The batch aggregate *)


Lemma has_id_true o it : Batch.has_id o it = true ↔ BatchItem.OrderID it = o.
Proof. unfold Batch.has_id. apply bool_decide_eq_true. Qed.

Lemma HasOrder_find b o :
  Batch.HasOrder b o = true ↔ ∃ it, find_first (Batch.has_id o) (Batch.Items b) = Some it.
Proof.
  unfold Batch.HasOrder, Batch.GetItemByOrderID.
  destruct (find_first _ _) as [it|]; simpl.
  - split; [eauto|done].
  - split; [done|]. intros [it' H]. discriminate H.
Qed.

Lemma HasOrder_false b o :
  Batch.HasOrder b o = false ↔ find_first (Batch.has_id o) (Batch.Items b) = None.
Proof.
  unfold Batch.HasOrder, Batch.GetItemByOrderID.
  destruct (find_first _ _); simpl; split; done.
Qed.

Lemma AddItem_Ok b o p q st now b' :
  Batch.AddItem b o p q st now = Ok b' →
  Batch.ID b' = Batch.ID b ∧ Batch.ProductID b' = Batch.ProductID b
  ∧ Batch.Status b' = Batch.Status b ∧ Batch.ProductID b = p.
Proof.
  unfold Batch.AddItem. case_bool_decide; simpl; [|done].
  destruct (_ || _); [done|].
  destruct (update_first _ _ _); intros [= <-]; done.
Qed.

Lemma AddItem_well_formed b o p q st now b' :
  well_formed b → Batch.AddItem b o p q st now = Ok b' → well_formed b'.
Proof.
  intros [Hm Ht]. unfold Batch.AddItem. case_bool_decide as Hp; simpl; [|done].
  destruct (_ || _); [done|].
  destruct (update_first _ _ _) as [items|] eqn:Hu; intros [= <-]; split.
  - intros it Hit. simpl in *.
    destruct (update_first_elem _ _ _ _ _ Hu Hit) as [?|(x & Hx & _ & ->)]; simpl; auto.
  - unfold total_is_length in *. simpl. by rewrite (update_first_length _ _ _ _ Hu).
  - intros it. simpl. rewrite elem_of_app, list_elem_of_singleton.
    intros [?| ->]; simpl; auto.
  - unfold total_is_length. done.
Qed.

Lemma AddItem_succeeds b o q st now :
  Batch.Status b ≠ BatchStatusCompleted → Batch.Status b ≠ BatchStatusCancelled →
  ∃ b', Batch.AddItem b o (Batch.ProductID b) q st now = Ok b'.
Proof.
  intros H1 H2. unfold Batch.AddItem.
  rewrite bool_decide_eq_true_2 by done. simpl.
  rewrite !bool_decide_eq_false_2 by done. simpl.
  destruct (update_first _ _ _); eauto.
Qed.

Lemma RemoveItem_Ok b o now b' :
  Batch.RemoveItem b o now = Ok b' →
  Batch.ID b' = Batch.ID b ∧ Batch.ProductID b' = Batch.ProductID b
  ∧ Batch.Status b' = Batch.Status b.
Proof.
  unfold Batch.RemoveItem. case_bool_decide; [done|].
  destruct (remove_first _ _); intros [= <-]; done.
Qed.

Lemma RemoveItem_well_formed b o now b' :
  well_formed b → Batch.RemoveItem b o now = Ok b' → well_formed b'.
Proof.
  intros [Hm Ht]. unfold Batch.RemoveItem. case_bool_decide; [done|].
  destruct (remove_first _ _) as [items|] eqn:Hr; intros [= <-]; split.
  - intros it Hit. simpl in *. eauto using remove_first_elem.
  - done.
Qed.

Lemma UpdateItemStatus_Ok b o st now b' :
  Batch.UpdateItemStatus b o st now = Ok b' →
  Batch.ID b' = Batch.ID b ∧ Batch.ProductID b' = Batch.ProductID b
  ∧ Batch.Status b' = Batch.Status b.
Proof.
  unfold Batch.UpdateItemStatus.
  destruct (update_first _ _ _); intros [= <-]; done.
Qed.

Lemma UpdateItemStatus_well_formed b o st now b' :
  well_formed b → Batch.UpdateItemStatus b o st now = Ok b' → well_formed b'.
Proof.
  intros [Hm Ht]. unfold Batch.UpdateItemStatus.
  destruct (update_first _ _ _) as [items|] eqn:Hu; intros [= <-]; split.
  - intros it Hit. simpl in *.
    destruct (update_first_elem _ _ _ _ _ Hu Hit) as [?|(x & Hx & _ & ->)]; simpl; auto.
  - unfold total_is_length in *. simpl. by rewrite (update_first_length _ _ _ _ Hu).
Qed.


Lemma StartProcessing_transition now : is_transition (λ b, Batch.StartProcessing b now).
Proof. intros b b'. unfold Batch.StartProcessing. destruct (negb _); intros [= <-]; done. Qed.

Lemma Complete_transition now : is_transition (λ b, Batch.Complete b now).
Proof. intros b b'. unfold Batch.Complete. destruct (negb _); intros [= <-]; done. Qed.

Lemma Cancel_transition now : is_transition (λ b, Batch.Cancel b now).
Proof. intros b b'. unfold Batch.Cancel. case_bool_decide; intros [= <-]; done. Qed.

Lemma MarkAsDamaged_transition now : is_transition (λ b, Batch.MarkAsDamaged b now).
Proof. intros b b'. unfold Batch.MarkAsDamaged. intros [= <-]; done. Qed.

(** ** The repository *)

Lemma range_find_spec p e (r : gmap string Batch.t) x :
  x ∈ BatchMemoryRepository.range_find p e r ↔
    (x = Err e ∧ ∀ id b, r !! id = Some b → p b = false)
    ∨ (∃ id b, x = Ok b ∧ r !! id = Some b ∧ p b = true).
Proof.
  unfold BatchMemoryRepository.range_find.
  assert (Hin : ∀ b, b ∈ filter (λ b, p b = true) (map_to_list r).*2
                     ↔ ∃ id, r !! id = Some b ∧ p b = true).
  { intros b. rewrite list_elem_of_filter, list_elem_of_fmap. split.
    - intros (Hp & [id b'] & -> & Hin). apply elem_of_map_to_list in Hin. eauto.
    - intros (id & Hl & Hp). split; [done|]. exists (id, b).
      split; [done|]. by apply elem_of_map_to_list. }
  destruct (filter _ _) as [|b0 bs] eqn:Hf.
  - rewrite list_elem_of_singleton. split.
    + intros ->. left. split; [done|]. intros id b Hl.
      destruct (p b) eqn:Hp; [|done].
      assert (b ∈ @nil Batch.t) as Hb by (apply Hin; eauto).
      by apply elem_of_nil in Hb.
    + intros [[-> _]|(id & b & -> & Hl & Hp)]; [done|].
      assert (b ∈ @nil Batch.t) as Hb by (apply Hin; eauto).
      by apply elem_of_nil in Hb.
  - rewrite list_elem_of_fmap. split.
    + intros (b & -> & Hb). apply Hin in Hb as (id & ? & ?). right. eauto 6.
    + intros [[-> Hnone]|(id & b & -> & Hl & Hp)].
      * assert (b0 ∈ b0 :: bs) as Hb by (apply elem_of_cons; auto).
        apply Hin in Hb as (id & Hl & Hp). rewrite (Hnone _ _ Hl) in Hp. done.
      * exists b. split; [done|]. apply Hin. eauto.
Qed.

Lemma is_pending_for_true p b :
  BatchMemoryRepository.is_pending_for p b = true ↔
    Batch.ProductID b = p ∧ Batch.Status b = BatchStatusPending.
Proof.
  unfold BatchMemoryRepository.is_pending_for.
  rewrite andb_true_iff, !bool_decide_eq_true. done.
Qed.

(** ** The batch service, run by run *)

Ltac run_inv :=
  repeat match goal with
  | H : _ ∈ (_ ≫= _) _ |- _ =>
      let a := fresh "a" in let s := fresh "s" in let H1 := fresh "Hrun" in
      apply run_bind in H as (a & s & H1 & H)
  | H : _ ∈ ret _ _ |- _ => apply run_ret in H
  | H : _ ∈ gets _ _ |- _ => apply run_gets in H
  | H : _ ∈ modify _ _ |- _ => apply run_modify in H
  | H : _ ∈ choose _ _ |- _ =>
      let a := fresh "a" in let H1 := fresh "Hin" in
      apply run_choose in H as (a & H & H1)
  | H : (_, _) = (_, _) |- _ => simplify_eq
  end.

Section RepositoryRuns.
Context {P : Type} `{!BatchEventPublisher P}.
Implicit Types (s : State P) (b batch : Batch.t).

Lemma Save_run batch s y :
  y ∈ Save batch s ↔ y = (tt, mkState (<[Batch.ID batch := batch]> (batches s)) (eventPublisher s)).
Proof. unfold Save. by rewrite run_modify. Qed.

Lemma publish_run ev s y :
  y ∈ publish ev s ↔
  y = (tt, mkState (batches s) (PublishBatchEvent ev (eventPublisher s)).2).
Proof. unfold publish. by rewrite run_modify. Qed.

Lemma publish_batches ev s u s' : (u, s') ∈ publish ev s → batches s' = batches s.
Proof. intros H. apply publish_run in H. by injection H as _ ->. Qed.

Lemma FindByOrderID_run o s x s' :
  (x, s') ∈ FindByOrderID o s ↔
    s' = s ∧
    ((x = Err (ErrNoBatchContainingOrder o)
      ∧ ∀ id b, batches s !! id = Some b → Batch.HasOrder b o = false)
     ∨ ∃ id b, x = Ok b ∧ batches s !! id = Some b ∧ Batch.HasOrder b o = true).
Proof.
  unfold FindByOrderID. rewrite run_bind. split.
  - intros (r & s1 & Hg & Hc). run_inv.
    apply range_find_spec in Hin. done.
  - intros [-> H]. exists (batches s), s. split; [by apply run_gets|].
    apply run_choose. exists x. split; [done|]. by apply range_find_spec.
Qed.

Lemma FindPendingBatchForProduct_run p s x s' :
  (x, s') ∈ FindPendingBatchForProduct p s ↔
    s' = s ∧
    ((x = Err (ErrNoPendingBatch p)
      ∧ ∀ id b, batches s !! id = Some b →
                ¬ (Batch.ProductID b = p ∧ Batch.Status b = BatchStatusPending))
     ∨ ∃ id b, x = Ok b ∧ batches s !! id = Some b
               ∧ Batch.ProductID b = p ∧ Batch.Status b = BatchStatusPending).
Proof.
  unfold FindPendingBatchForProduct. rewrite run_bind.
  assert (Hspec : ∀ r, x ∈ BatchMemoryRepository.FindPendingBatchForProduct r p ↔
    ((x = Err (ErrNoPendingBatch p)
      ∧ ∀ id b, r !! id = Some b →
                ¬ (Batch.ProductID b = p ∧ Batch.Status b = BatchStatusPending))
     ∨ ∃ id b, x = Ok b ∧ r !! id = Some b
               ∧ Batch.ProductID b = p ∧ Batch.Status b = BatchStatusPending)).
  { intros r. unfold BatchMemoryRepository.FindPendingBatchForProduct.
    rewrite range_find_spec. split.
    - intros [[-> Hn]|(id & b & -> & Hl & Hp)].
      + left. split; [done|]. intros id b Hl Hp.
        apply is_pending_for_true in Hp. rewrite (Hn _ _ Hl) in Hp. done.
      + right. apply is_pending_for_true in Hp as [? ?]. eauto 6.
    - intros [[-> Hn]|(id & b & -> & Hl & Hp)].
      + left. split; [done|]. intros id b Hl.
        destruct (BatchMemoryRepository.is_pending_for p b) eqn:Hp; [|done].
        apply is_pending_for_true in Hp. by destruct (Hn _ _ Hl).
      + right. exists id, b. rewrite is_pending_for_true. done. }
  split.
  - intros (r & s1 & Hg & Hc). run_inv. by apply Hspec in Hin.
  - intros [-> H]. exists (batches s), s. split; [by apply run_gets|].
    apply run_choose. exists x. split; [done|]. by apply Hspec.
Qed.

End RepositoryRuns.

Ltac svc_inv :=
  repeat first
    [ progress run_inv
    | match goal with
      | H : _ ∈ Save _ _ |- _ => apply Save_run in H
      | H : _ ∈ publish _ _ |- _ => apply publish_run in H
      | H : _ ∈ FindByOrderID _ _ |- _ => apply FindByOrderID_run in H as [-> H]
      | H : _ ∈ FindPendingBatchForProduct _ _ |- _ =>
          apply FindPendingBatchForProduct_run in H as [-> H]
      end ].

Section ServiceRuns.
Context {P : Type} `{!BatchEventPublisher P}.
Implicit Types (s : State P) (b batch : Batch.t).

(** [AddOrderToBatch] never fails on the in-memory repository: it picks
    the product's pending batch, or a fresh one, and stores the batch
    with the item added. *)
Lemma AddOrderToBatch_run o p q st now stamp s r s' :
  (r, s') ∈ AddOrderToBatch o p q st now stamp s →
  ∃ batch b',
    ((∃ id, batches s !! id = Some batch
            ∧ Batch.ProductID batch = p ∧ Batch.Status batch = BatchStatusPending)
     ∨ (batch = Batch.NewBatch (generateBatchID p stamp) p now
        ∧ ∀ id b, batches s !! id = Some b →
                  ¬ (Batch.ProductID b = p ∧ Batch.Status b = BatchStatusPending)))
    ∧ Batch.AddItem batch o p q st now = Ok b'
    ∧ r = Ok b'
    ∧ batches s' = <[Batch.ID b' := b']> (batches s).
Proof.
  unfold AddOrderToBatch. intros H. apply run_bind in H as (found & s1 & Hf & H).
  apply FindPendingBatchForProduct_run in Hf as [-> Hf].
  set (batch := match found with
                | Ok batch => batch
                | Err _ => Batch.NewBatch (generateBatchID p stamp) p now
                end).
  assert (Hsel : (∃ id, batches s !! id = Some batch
            ∧ Batch.ProductID batch = p ∧ Batch.Status batch = BatchStatusPending)
     ∨ (batch = Batch.NewBatch (generateBatchID p stamp) p now
        ∧ ∀ id b, batches s !! id = Some b →
                  ¬ (Batch.ProductID b = p ∧ Batch.Status b = BatchStatusPending))).
  { destruct Hf as [[-> Hn]|(id & b & -> & Hl & Hp & Hst)]; [right|left]; eauto. }
  assert (Hpend : Batch.ProductID batch = p ∧ Batch.Status batch = BatchStatusPending).
  { destruct Hsel as [(id & _ & ? & ?)|[-> _]]; done. }
  destruct Hpend as [Hp Hst].
  destruct (AddItem_succeeds batch o q st now) as [b' Hadd]; [by rewrite Hst..|].
  rewrite Hp in Hadd.
  exists batch, b'. split; [done|]. split; [done|].
  assert (Hgoal : ∀ isNew, (r, s') ∈
    (match Batch.AddItem batch o p q st now with
     | Err e => ret (Err (Wrap "failed to add order to batch" e))
     | Ok batch0 =>
         Save batch0;;
         (if isNew : bool then publish (NewBatchCreatedEvent batch0 now) else ret tt);;
         match Batch.GetItemByOrderID batch0 o with
         | Err _ => ret tt
         | Ok item => publish (NewBatchItemAddedEvent batch0 o item now)
         end;;
         ret (Ok batch0)
     end) s → r = Ok b' ∧ batches s' = <[Batch.ID b' := b']> (batches s)).
  { intros isNew. rewrite Hadd. intros Hr. svc_inv. split; [done|].
    destruct isNew, (Batch.GetItemByOrderID b' o); by svc_inv. }
  subst batch. destruct found; [exact (Hgoal false H)|exact (Hgoal true H)].
Qed.
Lemma UpdateOrderStatus_run o st now s r s' :
  (r, s') ∈ UpdateOrderStatus o st now s →
  (r = Some (Wrap "failed to find batch for order" (ErrNoBatchContainingOrder o))
   ∧ s' = s
   ∧ ∀ id b, batches s !! id = Some b → Batch.HasOrder b o = false)
  ∨ ∃ id batch b',
      batches s !! id = Some batch ∧ Batch.HasOrder batch o = true
      ∧ Batch.UpdateItemStatus batch o st now = Ok b'
      ∧ r = None
      ∧ batches s' = <[Batch.ID b' := b']> (batches s).
Proof.
  unfold UpdateOrderStatus. intros H. svc_inv.
  destruct Hrun as [[-> Hn]|(id & batch & -> & Hl & Ho)].
  - svc_inv. left. done.
  - right. exists id, batch.
    destruct (Batch.UpdateItemStatus batch o st now) as [b'|e] eqn:Hu.
    + exists b'. svc_inv. do 4 (split; [done|]).
      destruct (Batch.GetItemByOrderID b' o); by svc_inv.
    + exfalso. unfold Batch.UpdateItemStatus in Hu.
      destruct (update_first _ _ _) eqn:Hup; [done|].
      apply update_first_None in Hup. apply HasOrder_find in Ho as [it Hit].
      congruence.
Qed.

Lemma RemoveOrderFromBatch_run o now s r s' :
  (r, s') ∈ RemoveOrderFromBatch o now s →
  (r = Some (Wrap "failed to find batch for order" (ErrNoBatchContainingOrder o))
   ∧ s' = s
   ∧ ∀ id b, batches s !! id = Some b → Batch.HasOrder b o = false)
  ∨ ∃ id batch,
      batches s !! id = Some batch ∧ Batch.HasOrder batch o = true
      ∧ ((Batch.Status batch = BatchStatusCompleted
          ∧ r = Some (Wrap "failed to remove order from batch" ErrCannotRemoveFromCompleted)
          ∧ s' = s)
         ∨ ∃ b', Batch.Status batch ≠ BatchStatusCompleted
                 ∧ Batch.RemoveItem batch o now = Ok b'
                 ∧ if Batch.IsEmpty b' then
                     match batches s !! Batch.ID b' with
                     | Some _ => r = None ∧ batches s' = delete (Batch.ID b') (batches s)
                     | None => is_Some r ∧ batches s' = batches s
                     end
                   else r = None ∧ batches s' = <[Batch.ID b' := b']> (batches s)).
Proof.
  unfold RemoveOrderFromBatch. intros H. svc_inv.
  destruct Hrun as [[-> Hn]|(id & batch & -> & Hl & Ho)].
  - svc_inv. left. done.
  - right. exists id, batch. do 2 (split; [done|]).
    destruct (Batch.RemoveItem batch o now) as [b'|e] eqn:Hr.
    + right. exists b'. split.
      { intros Hc. unfold Batch.RemoveItem in Hr.
        by rewrite bool_decide_eq_true_2 in Hr. }
      split; [done|]. svc_inv.
      destruct (Batch.IsEmpty b').
      * svc_inv. unfold Delete, BatchMemoryRepository.Delete in Hrun. simpl in Hrun.
        destruct (batches s !! Batch.ID b') eqn:Hk.
        -- apply list_elem_of_singleton in Hrun. simplify_eq. by svc_inv.
        -- apply list_elem_of_singleton in Hrun. simplify_eq. svc_inv. eauto.
      * by svc_inv.
    + left. unfold Batch.RemoveItem in Hr. case_bool_decide as Hc.
      * simplify_eq. by svc_inv.
      * exfalso. destruct (remove_first _ _) eqn:Hrm; [done|].
        apply remove_first_None in Hrm. apply HasOrder_find in Ho as [it Hit].
        congruence.
Qed.

Lemma transition_run id step ctx ev s r s' :
  (r, s') ∈ transition id step ctx ev s →
  (batches s !! id = None ∧ is_Some r ∧ s' = s)
  ∨ ∃ batch, batches s !! id = Some batch
      ∧ ((∃ e, step batch = Err e ∧ r = Some (Wrap ctx e) ∧ s' = s)
         ∨ ∃ b', step batch = Ok b' ∧ r = None
                 ∧ batches s' = <[Batch.ID b' := b']> (batches s)).
Proof.
  unfold transition, FindByID, BatchMemoryRepository.FindByID. intros H.
  apply run_bind in H as (found & s1 & Hf & H). apply run_gets in Hf.
  injection Hf as -> ->.
  destruct (batches s !! id) as [batch|] eqn:Hl.
  - right. exists batch. split; [done|].
    destruct (step batch) as [b'|e] eqn:Hs; svc_inv; eauto.
  - left. svc_inv. eauto.
Qed.
End ServiceRuns.

(** ** The repository invariant *)


Lemma repository_invariant_empty : repository_invariant ∅.
Proof.
  split; [|split].
  - intros id b H. by rewrite lookup_empty in H.
  - intros id b H. by rewrite lookup_empty in H.
  - intros id1 id2 b1 b2 H. by rewrite lookup_empty in H.
Qed.

(** Saving a new version of a stored batch: same id and product, and not
    pending unless it was. *)
Lemma save_stored_preserves (r : gmap string Batch.t) id b b' :
  repository_invariant r →
  r !! id = Some b →
  Batch.ID b' = Batch.ID b →
  Batch.ProductID b' = Batch.ProductID b →
  well_formed b' →
  (Batch.Status b' = BatchStatusPending → Batch.Status b = BatchStatusPending) →
  repository_invariant (<[Batch.ID b' := b']> r).
Proof.
  intros (Hk & Hw & Hone) Hl Hid Hp Hwf Hst.
  assert (Batch.ID b' = id) as Hid' by (rewrite Hid; eauto).
  rewrite Hid'. split; [|split].
  - intros k x. rewrite lookup_insert_Some. intros [[<- <-]|[_ ?]]; eauto.
  - intros k x. rewrite lookup_insert_Some. intros [[<- <-]|[_ ?]]; eauto.
  - intros k1 k2 x1 x2. rewrite !lookup_insert_Some.
    intros [[<- <-]|[Hne1 H1]] [[<- <-]|[Hne2 H2]] Hpp Hs1 Hs2; [done| | |by eauto].
    + apply (Hone id k2 b x2); try done; [congruence|auto].
    + apply (Hone k1 id x1 b); try done; [congruence|auto].
Qed.

(** Saving a pending batch for a product that has none. *)
Lemma save_fresh_preserves (r : gmap string Batch.t) p b' :
  repository_invariant r →
  (∀ id b, r !! id = Some b →
     ¬ (Batch.ProductID b = p ∧ Batch.Status b = BatchStatusPending)) →
  Batch.ProductID b' = p →
  well_formed b' →
  repository_invariant (<[Batch.ID b' := b']> r).
Proof.
  intros (Hk & Hw & Hone) Hnone Hp Hwf. split; [|split].
  - intros k x. rewrite lookup_insert_Some. intros [[<- <-]|[_ ?]]; eauto.
  - intros k x. rewrite lookup_insert_Some. intros [[<- <-]|[_ ?]]; eauto.
  - intros k1 k2 x1 x2. rewrite !lookup_insert_Some.
    intros [[<- <-]|[Hne1 H1]] [[<- <-]|[Hne2 H2]] Hpp Hs1 Hs2; [done| | |by eauto].
    + destruct (Hnone _ _ H2). split; [congruence|done].
    + destruct (Hnone _ _ H1). split; [congruence|done].
Qed.

Lemma delete_preserves (r : gmap string Batch.t) id :
  repository_invariant r → repository_invariant (delete id r).
Proof.
  intros (Hk & Hw & Hone). split; [|split].
  - intros k x. rewrite lookup_delete_Some. intros [_ ?]; eauto.
  - intros k x. rewrite lookup_delete_Some. intros [_ ?]; eauto.
  - intros k1 k2 x1 x2. rewrite !lookup_delete_Some.
    intros [_ H1] [_ H2]. eauto.
Qed.

Lemma NewBatch_well_formed id p now : well_formed (Batch.NewBatch id p now).
Proof.
  split; [|done]. intros it Hit. simpl in Hit. by apply elem_of_nil in Hit.
Qed.

Section Preservation.
Context {P : Type} `{!BatchEventPublisher P}.
Implicit Types (s : State P).

Lemma AddOrderToBatch_preserves o p q st now stamp s r s' :
  repository_invariant (batches s) →
  (r, s') ∈ AddOrderToBatch o p q st now stamp s →
  repository_invariant (batches s').
Proof.
  intros Hinv H.
  apply AddOrderToBatch_run in H as (batch & b' & Hsel & Hadd & -> & ->).
  destruct (AddItem_Ok _ _ _ _ _ _ _ Hadd) as (Hid & Hp & Hst & Hbp).
  destruct Hsel as [(id & Hl & _ & _)|[-> Hnone]].
  - eapply save_stored_preserves; eauto; [|congruence].
    eapply AddItem_well_formed; [|exact Hadd]. by apply Hinv in Hl.
  - eapply (save_fresh_preserves _ p); eauto.
    eapply AddItem_well_formed; [|exact Hadd]. apply NewBatch_well_formed.
Qed.

Lemma UpdateOrderStatus_preserves o st now s r s' :
  repository_invariant (batches s) →
  (r, s') ∈ UpdateOrderStatus o st now s →
  repository_invariant (batches s').
Proof.
  intros Hinv H.
  apply UpdateOrderStatus_run in H
    as [(_ & -> & _)|(id & batch & b' & Hl & _ & Hu & _ & ->)]; [done|].
  destruct (UpdateItemStatus_Ok _ _ _ _ _ Hu) as (Hid & Hp & Hst).
  eapply save_stored_preserves; eauto; [|congruence].
  eapply UpdateItemStatus_well_formed; [|exact Hu]. by apply Hinv in Hl.
Qed.

Lemma RemoveOrderFromBatch_preserves o now s r s' :
  repository_invariant (batches s) →
  (r, s') ∈ RemoveOrderFromBatch o now s →
  repository_invariant (batches s').
Proof.
  intros Hinv H.
  apply RemoveOrderFromBatch_run in H
    as [(_ & -> & _)|(id & batch & Hl & _ & [(_ & _ & ->)|(b' & _ & Hr & H)])];
    [done..|].
  destruct (RemoveItem_Ok _ _ _ _ Hr) as (Hid & Hp & Hst).
  destruct (Batch.IsEmpty b').
  - destruct (batches s !! Batch.ID b'); destruct H as [_ ->]; [|done].
    by apply delete_preserves.
  - destruct H as [_ ->].
    eapply save_stored_preserves; eauto; [|congruence].
    eapply RemoveItem_well_formed; [|exact Hr]. by apply Hinv in Hl.
Qed.

Lemma transition_preserves id step ctx ev s r s' :
  is_transition step →
  repository_invariant (batches s) →
  (r, s') ∈ transition id step ctx ev s →
  repository_invariant (batches s').
Proof.
  intros Hstep Hinv H.
  apply transition_run in H
    as [(_ & _ & ->)|(batch & Hl & [(e & _ & _ & ->)|(b' & Hs & _ & ->)])];
    [done..|].
  destruct (Hstep _ _ Hs) as (Hid & Hp & Hitems & Htotal & Hnp).
  eapply save_stored_preserves; eauto; [|done].
  destruct Hinv as (_ & Hw & _). destruct (Hw _ _ Hl) as [Hm Ht].
  split.
  - intros it. rewrite Hitems, Hp. apply Hm.
  - unfold total_is_length. rewrite Hitems, Htotal. apply Ht.
Qed.

Lemma call_preserves c now stamp s s' :
  repository_invariant (batches s) →
  s' ∈ call c now stamp s →
  repository_invariant (batches s').
Proof.
  intros Hinv. destruct c; simpl; rewrite list_elem_of_fmap;
    intros ([r s1] & -> & H); simpl.
  - eauto using AddOrderToBatch_preserves.
  - eauto using RemoveOrderFromBatch_preserves.
  - eauto using UpdateOrderStatus_preserves.
  - eapply transition_preserves; [apply StartProcessing_transition| |]; eauto.
  - eapply transition_preserves; [apply Complete_transition| |]; eauto.
  - eapply transition_preserves; [apply Cancel_transition| |]; eauto.
  - eapply transition_preserves; [apply MarkAsDamaged_transition| |]; eauto.
Qed.

Lemma reachable_repository_invariant s :
  reachable s → repository_invariant (batches s).
Proof.
  induction 1 as [p|s c now stamp s' _ IH Hstep].
  - apply repository_invariant_empty.
  - eauto using call_preserves.
Qed.
End Preservation.

(** C3.  Every repository state reachable through the calls of the batch
    service keeps the items of each stored batch on the batch's product,
    [TotalItems] equal to the number of items, and at most one pending
    batch per product. *)
Theorem C3_reachable_batch_invariant {P : Type} `{!BatchEventPublisher P} (s : State P) :
  reachable s → batch_invariant (batches s).
Proof.
  intros H. apply reachable_repository_invariant in H as (_ & Hw & Hone).
  split; [|done]. intros id b Hl. apply (Hw _ _ Hl).
Qed.

(** The states of the examples are reachable. *)
Lemma reachable_after_first_add : reachable Examples.after_first_add.
Proof.
  eapply (reachable_call Examples.mock0
            (CallAddOrderToBatch "order-1" "p1" 5 "allocated") 100 "20250101000000").
  - apply reachable_new.
  - vm_compute. left.
Qed.

Lemma reachable_after_cancel : reachable Examples.after_cancel.
Proof.
  eapply (reachable_call Examples.after_first_add
            (CallCancelBatch "BATCH-p1-20250101000000") 120 "20250101000000").
  - apply reachable_after_first_add.
  - vm_compute. left.
Qed.

Lemma reachable_after_marked_damaged : reachable Examples.after_marked_damaged.
Proof.
  eapply (reachable_call Examples.after_first_add
            (CallMarkBatchAsDamaged "BATCH-p1-20250101000000") 120 "20250101000000").
  - apply reachable_after_first_add.
  - vm_compute. left.
Qed.

Lemma reachable_after_processing : reachable Examples.after_processing.
Proof.
  eapply (reachable_call Examples.after_first_add
            (CallProcessBatch "BATCH-p1-20250101000000") 120 "20250101000000").
  - apply reachable_after_first_add.
  - vm_compute. left.
Qed.

Lemma C3_reachable_batch_invariant_witness :
  batch_invariant (batches Examples.after_first_add).
Proof.
  apply (C3_reachable_batch_invariant Examples.after_first_add).
  apply reachable_after_first_add.
Defined.

(** ** The damaged status *)

Lemma remove_first_length {A} (p : A → bool) (l l' : list A) :
  remove_first p l = Some l' → length l = S (length l').
Proof.
  revert l'. induction l as [|x l IH]; intros l'; simpl; first done.
  destruct (p x); [by intros [= <-]|].
  destruct (remove_first p l); simpl; [|done].
  intros [= <-]. simpl. f_equal. by apply IH.
Qed.

Lemma find_first_update_first {A} (p : A → bool) (f : A → A) (l l' : list A) :
  (∀ x, p x = true → p (f x) = true) →
  update_first p f l = Some l' → ∃ x, find_first p l' = Some x.
Proof.
  intros Hf. revert l'. induction l as [|x l IH]; intros l'; simpl; first done.
  destruct (p x) eqn:Hp.
  - intros [= <-]. simpl. rewrite (Hf _ Hp). eauto.
  - destruct (update_first p f l); simpl; [|done].
    intros [= <-]. simpl. rewrite Hp. eauto.
Qed.

Lemma find_first_app_new {A} (p : A → bool) (l : list A) (y : A) :
  p y = true → ∃ x, find_first p (l ++ [y]) = Some x.
Proof.
  intros Hy. induction l as [|x l IH]; simpl.
  - rewrite Hy. eauto.
  - destruct (p x); eauto.
Qed.

Lemma AddItem_HasOrder b o p q st now b' :
  Batch.AddItem b o p q st now = Ok b' → Batch.HasOrder b' o = true.
Proof.
  unfold Batch.AddItem. destruct (negb _); [done|]. destruct (_ || _); [done|].
  destruct (update_first _ _ _) as [items|] eqn:Hu; intros [= <-];
    apply HasOrder_find; simpl.
  - eapply find_first_update_first; [|exact Hu].
    intros x. by rewrite !has_id_true.
  - apply find_first_app_new. by apply has_id_true.
Qed.

(** C4 fails: a damaged batch can still be cancelled, and items can still
    be added to it and removed from it. *)
Lemma C4_damaged_not_terminal_counterexample :
  Batch.Status Examples.damaged_batch = BatchStatusDamaged
  ∧ Batch.Cancel Examples.damaged_batch 200
    = Ok (Batch.mk "BATCH-p1-20250101000000" "p1" BatchStatusCancelled
            [Examples.item1] 1 100 200 None)
  ∧ Batch.AddItem Examples.damaged_batch "order-2" "p1" 3 "allocated" 200
    = Ok (Batch.mk "BATCH-p1-20250101000000" "p1" BatchStatusDamaged
            [Examples.item1; BatchItem.mk "order-2" "p1" 3 "allocated" 200 None]
            2 100 200 None)
  ∧ Batch.RemoveItem Examples.damaged_batch "order-1" 200
    = Ok (Batch.mk "BATCH-p1-20250101000000" "p1" BatchStatusDamaged [] 0 100 200 None).
Proof. repeat split; vm_compute; reflexivity. Qed.

(** C4, amended.  On a damaged batch [StartProcessing] and [Complete] fail
    with a domain error and [MarkAsDamaged] keeps the status; [Cancel]
    succeeds and makes the batch cancelled; [AddItem] for the batch's
    product and [RemoveItem] of an order of the batch succeed and change
    the items, the status staying damaged. *)
Theorem C4_damaged_batch_operations (b : Batch.t) (now : Time) :
  Batch.Status b = BatchStatusDamaged →
  Batch.StartProcessing b now = Err (ErrCannotStartProcessing BatchStatusDamaged)
  ∧ Batch.Complete b now = Err (ErrCannotComplete BatchStatusDamaged)
  ∧ (∃ b', Batch.MarkAsDamaged b now = Ok b' ∧ Batch.Status b' = BatchStatusDamaged
           ∧ Batch.Items b' = Batch.Items b)
  ∧ (∃ b', Batch.Cancel b now = Ok b' ∧ Batch.Status b' = BatchStatusCancelled
           ∧ Batch.Items b' = Batch.Items b)
  ∧ (∀ o q st, ∃ b', Batch.AddItem b o (Batch.ProductID b) q st now = Ok b'
                     ∧ Batch.Status b' = BatchStatusDamaged
                     ∧ Batch.HasOrder b' o = true)
  ∧ (∀ o, Batch.HasOrder b o = true →
          ∃ b', Batch.RemoveItem b o now = Ok b'
                ∧ Batch.Status b' = BatchStatusDamaged
                ∧ length (Batch.Items b) = S (length (Batch.Items b'))).
Proof.
  intros Hd. repeat split.
  - unfold Batch.StartProcessing. by rewrite Hd.
  - unfold Batch.Complete. by rewrite Hd.
  - eexists. split; [reflexivity|]. done.
  - unfold Batch.Cancel. rewrite Hd. simpl. eauto.
  - intros o q st.
    destruct (AddItem_succeeds b o q st now) as [b' Hadd]; [by rewrite Hd..|].
    exists b'. split; [done|]. split.
    + destruct (AddItem_Ok _ _ _ _ _ _ _ Hadd) as (_ & _ & -> & _). done.
    + eauto using AddItem_HasOrder.
  - intros o Ho. unfold Batch.RemoveItem. rewrite Hd. simpl.
    apply HasOrder_find in Ho as [it Hit].
    destruct (remove_first _ _) as [items|] eqn:Hr.
    + eexists. split; [reflexivity|]. split; [done|]. simpl.
      eauto using remove_first_length.
    + apply remove_first_None in Hr. congruence.
Qed.

Lemma C4_damaged_batch_operations_witness :
  Batch.StartProcessing Examples.damaged_batch 200
  = Err (ErrCannotStartProcessing BatchStatusDamaged).
Proof.
  apply (C4_damaged_batch_operations Examples.damaged_batch 200). reflexivity.
Defined.

(** ** Removing the last item *)

Lemma RemoveItem_length b o now b' :
  Batch.RemoveItem b o now = Ok b' →
  length (Batch.Items b) = S (length (Batch.Items b')).
Proof.
  unfold Batch.RemoveItem. case_bool_decide; [done|].
  destruct (remove_first _ _) eqn:Hr; intros [= <-]. simpl.
  eauto using remove_first_length.
Qed.

(** C5 fails: removing the only item of a cancelled batch, or of a damaged
    batch, deletes the batch. *)
Lemma C5_terminal_batch_deleted_counterexample :
  (reachable Examples.after_cancel
   ∧ batches Examples.after_cancel
     = {[ "BATCH-p1-20250101000000" :=
            Batch.mk "BATCH-p1-20250101000000" "p1" BatchStatusCancelled
              [Examples.item1] 1 100 120 None ]}
   ∧ Examples.outcomes (RemoveOrderFromBatch "order-1" 200 Examples.after_cancel)
     = [(None, ∅)])
  ∧ (reachable Examples.after_marked_damaged
     ∧ batches Examples.after_marked_damaged
       = {[ "BATCH-p1-20250101000000" :=
              Batch.mk "BATCH-p1-20250101000000" "p1" BatchStatusDamaged
                [Examples.item1] 1 100 120 None ]}
     ∧ Examples.outcomes (RemoveOrderFromBatch "order-1" 200 Examples.after_marked_damaged)
       = [(None, ∅)]).
Proof.
  split; (split; [|split]);
    first [apply reachable_after_cancel | apply reachable_after_marked_damaged
          | vm_compute; reflexivity].
Qed.

(** C5, amended.  In a reachable state [RemoveOrderFromBatch] picks a batch
    holding the order.  If that batch is completed the removal fails with a
    domain error and nothing changes, the item staying in the batch.
    Otherwise, whatever the status (pending, processing, cancelled or
    damaged), the call succeeds: the batch is deleted when the order was
    its only item, and is stored without the item when it has others. *)
Theorem C5_last_item_removal {P : Type} `{!BatchEventPublisher P}
    (s : State P) (o : string) (now : Time) (r : option error) (s' : State P) :
  reachable s →
  (r, s') ∈ RemoveOrderFromBatch o now s →
  removal_outcome s o now r s'.
Proof.
  intros Hreach H. apply reachable_repository_invariant in Hreach as (Hk & _ & _).
  unfold removal_outcome.
  apply RemoveOrderFromBatch_run in H
    as [(-> & -> & Hn)|(id & batch & Hl & Ho & [(Hc & -> & ->)|(b' & Hc & Hr & H)])].
  - left. eauto.
  - right. exists id, batch. do 2 (split; [done|]).
    rewrite decide_True by done. eauto.
  - right. exists id, batch. do 2 (split; [done|]).
    rewrite decide_False by done.
    destruct (RemoveItem_Ok _ _ _ _ Hr) as (Hid & _ & _).
    pose proof (RemoveItem_length _ _ _ _ Hr) as Hlen.
    rewrite Hid, (Hk _ _ Hl) in H. rewrite Hl in H.
    unfold Batch.IsEmpty in H. case_bool_decide as He.
    + destruct H as [-> ->]. split; [done|].
      rewrite decide_True by lia. done.
    + destruct H as [-> ->]. split; [done|].
      rewrite decide_False by lia. eauto.
Qed.

Lemma C5_last_item_removal_witness :
  removal_outcome Examples.after_first_add "order-1" 200 None Examples.after_removal.
Proof.
  apply C5_last_item_removal.
  - apply reachable_after_first_add.
  - vm_compute. left.
Defined.

(** ** Adding the same order twice *)

Lemma update_first_Forall2 {A} (p : A → bool) (f : A → A) (l l' : list A) :
  update_first p f l = Some l' →
  ∃ x, find_first p l = Some x ∧ Forall2 (λ a b, b = a ∨ (a = x ∧ b = f x)) l l'.
Proof.
  revert l'. induction l as [|y l IH]; intros l'; simpl; first done.
  destruct (p y) eqn:Hp.
  - intros [= <-]. exists y. split; [done|]. constructor; [by right|].
    apply Forall2_same_length_lookup_2; [done|]. intros i a b Ha Hb. left. congruence.
  - destruct (update_first p f l) as [l0|]; simpl; [|done].
    intros [= <-]. destruct (IH _ eq_refl) as (x & Hx & Hall).
    exists x. split; [done|]. constructor; [by left|done].
Qed.

Lemma AddItem_item b o p q st now b' :
  Batch.AddItem b o p q st now = Ok b' →
  ∃ it, find_first (Batch.has_id o) (Batch.Items b') = Some it
        ∧ BatchItem.OrderID it = o ∧ BatchItem.Quantity it = q
        ∧ BatchItem.Status it = st.
Proof.
  unfold Batch.AddItem. destruct (negb _); [done|]. destruct (_ || _); [done|].
  destruct (update_first _ _ _) as [items|] eqn:Hu; intros [= <-]; simpl.
  - clear -Hu. revert items Hu.
    induction (Batch.Items b) as [|y l IH]; intros items; simpl; first done.
    destruct (Batch.has_id o y) eqn:Hy.
    + intros [= <-]. simpl. apply has_id_true in Hy.
      unfold Batch.has_id. simpl. rewrite bool_decide_eq_true_2 by done. eauto.
    + destruct (update_first _ _ l) as [l0|]; simpl; [|done].
      intros [= <-]. simpl. rewrite Hy. eauto.
  - apply update_first_None in Hu. clear -Hu.
    induction (Batch.Items b) as [|y l IH]; simpl in *.
    + unfold Batch.has_id. simpl. rewrite bool_decide_eq_true_2 by done. eauto.
    + destruct (Batch.has_id o y); [done|]. eauto.
Qed.

(** Adding an order the batch already holds with the same quantity and
    status changes only the two time stamps. *)
Lemma AddItem_again b o p q st now it b' :
  find_first (Batch.has_id o) (Batch.Items b) = Some it →
  BatchItem.OrderID it = o → BatchItem.Quantity it = q → BatchItem.Status it = st →
  Batch.AddItem b o p q st now = Ok b' →
  same_batch_but_times o b b'.
Proof.
  intros Hfind Hid Hq Hst. unfold Batch.AddItem.
  destruct (negb _); [done|]. destruct (_ || _); [done|].
  destruct (update_first _ _ _) as [items|] eqn:Hu.
  - intros [= <-]. repeat split; simpl.
    destruct (update_first_Forall2 _ _ _ _ Hu) as (x & Hx & Hall).
    assert (x = it) as -> by congruence.
    eapply Forall2_impl; [exact Hall|].
    intros a c [->|[-> ->]]; repeat split; simpl; done.
  - apply update_first_None in Hu. congruence.
Qed.

(** C9.  In a reachable state, a second [AddOrderToBatch] with the
    arguments of the first leaves the repository as the first call left
    it, except for [UpdatedAt] of the batch and [AddedAt] of the item: the
    item is updated in place, no item is added and [TotalItems] is
    unchanged. *)
Theorem C9_add_order_twice {P : Type} `{!BatchEventPublisher P}
    (s s1 s2 : State P) (o p : string) (q : Z) (st : string)
    (now1 now2 : Time) (stamp1 stamp2 : string) (r1 r2 : result Batch.t) :
  reachable s →
  (r1, s1) ∈ AddOrderToBatch o p q st now1 stamp1 s →
  (r2, s2) ∈ AddOrderToBatch o p q st now2 stamp2 s1 →
  add_again_outcome o r1 r2 s1 s2.
Proof.
  intros Hreach H1 H2.
  assert (reachable s1) as Hreach1.
  { eapply (reachable_call s (CallAddOrderToBatch o p q st) now1 stamp1); [done|].
    simpl. apply list_elem_of_fmap. by exists (r1, s1). }
  apply reachable_repository_invariant in Hreach1 as (Hk1 & _ & Hone1).
  apply AddOrderToBatch_run in H1 as (batch & b1 & Hsel & Hadd1 & -> & Hs1).
  apply AddOrderToBatch_run in H2 as (batch2 & b2 & Hsel2 & Hadd2 & -> & Hs2).
  destruct (AddItem_Ok _ _ _ _ _ _ _ Hadd1) as (Hid1 & Hp1 & Hst1 & Hbp1).
  assert (Batch.Status b1 = BatchStatusPending) as Hpend1.
  { rewrite Hst1. destruct Hsel as [(? & _ & _ & ?)|[-> _]]; done. }
  assert (batches s1 !! Batch.ID b1 = Some b1) as Hl1.
  { rewrite Hs1. apply lookup_insert_eq. }
  assert (batch2 = b1) as ->.
  { destruct Hsel2 as [(id2 & Hl2 & Hp2 & Hst2)|[_ Hnone]].
    - assert (id2 = Batch.ID b1) as -> by (eapply Hone1; eauto; congruence).
      congruence.
    - destruct (Hnone _ _ Hl1). split; [congruence|done]. }
  destruct (AddItem_item _ _ _ _ _ _ _ Hadd1) as (it & Hfind & Hio & Hiq & Hist).
  pose proof (AddItem_again _ _ _ _ _ _ _ _ Hfind Hio Hiq Hist Hadd2) as Hsame.
  exists b1, b2. do 3 (split; [done|]). split; [|done].
  rewrite Hs2. destruct Hsame as (-> & _). done.
Qed.

Lemma C9_add_order_twice_witness :
  add_again_outcome "order-1" Examples.first_add.1 Examples.second_add.1
    Examples.first_add.2 Examples.second_add.2.
Proof.
  apply (C9_add_order_twice Examples.mock0 _ _ "order-1" "p1" 5 "allocated"
           100 50000 "20250101000000" "20250101000050").
  - apply reachable_new.
  - vm_compute. left.
  - vm_compute. left.
Defined.

(** ** Damage and return events *)

Lemma update_first_find {A} (p : A → bool) (f : A → A) (l l' : list A) :
  (∀ x, p x = true → p (f x) = true) →
  update_first p f l = Some l' →
  ∃ x, find_first p l = Some x ∧ find_first p l' = Some (f x).
Proof.
  intros Hf. revert l'. induction l as [|y l IH]; intros l'; simpl; first done.
  destruct (p y) eqn:Hp.
  - intros [= <-]. simpl. rewrite (Hf _ Hp). eauto.
  - destruct (update_first p f l) as [l0|]; simpl; [|done].
    intros [= <-]. simpl. rewrite Hp. eauto.
Qed.

Lemma UpdateItemStatus_item_status b o st now b' :
  Batch.UpdateItemStatus b o st now = Ok b' → item_status b' o = Some st.
Proof.
  unfold Batch.UpdateItemStatus, item_status.
  destruct (update_first _ _ _) as [items|] eqn:Hu; intros [= <-]; simpl.
  apply update_first_find in Hu as (x & _ & ->); [done|].
  intros x. by rewrite !has_id_true.
Qed.

Lemma AddItem_item_status b o p q st now b' :
  Batch.AddItem b o p q st now = Ok b' → item_status b' o = Some st.
Proof.
  intros H. apply AddItem_item in H as (it & Hfind & _ & _ & Hst).
  unfold item_status. rewrite Hfind. simpl. by rewrite Hst.
Qed.

Lemma item_status_HasOrder b o st : item_status b o = Some st → Batch.HasOrder b o = true.
Proof.
  unfold item_status. intros H. apply HasOrder_find.
  destruct (find_first _ _); [eauto|done].
Qed.

Section DamageAndReturn.
Context {P : Type} `{!BatchEventPublisher P}.
Implicit Types (s : State P).

Lemma AddOrderToBatch_selected o p q st now stamp s r s' :
  (r, s') ∈ AddOrderToBatch o p q st now stamp s →
  ∃ target added,
    selected_for_add (batches s) p now stamp target
    ∧ Batch.AddItem target o p q st now = Ok added
    ∧ item_status added o = Some st
    ∧ Batch.Status added = BatchStatusPending
    ∧ r = Ok added
    ∧ batches s' = <[Batch.ID added := added]> (batches s).
Proof.
  intros H. apply AddOrderToBatch_run in H as (target & added & Hsel & Hadd & -> & ->).
  exists target, added. split; [exact Hsel|]. split; [done|].
  split; [eauto using AddItem_item_status|]. split; [|done].
  destruct (AddItem_Ok _ _ _ _ _ _ _ Hadd) as (_ & _ & -> & _).
  destruct Hsel as [(? & _ & _ & ?)|[-> _]]; done.
Qed.

Lemma UpdateOrderStatus_keyed o st now s r s' :
  keyed_by_id (batches s) →
  (r, s') ∈ UpdateOrderStatus o st now s →
  (is_Some r ∧ s' = s
   ∧ ∀ id b, batches s !! id = Some b → Batch.HasOrder b o = false)
  ∨ ∃ id batch updated,
      batches s !! id = Some batch ∧ Batch.HasOrder batch o = true
      ∧ Batch.UpdateItemStatus batch o st now = Ok updated
      ∧ item_status updated o = Some st
      ∧ r = None
      ∧ batches s' = <[id := updated]> (batches s).
Proof.
  intros Hk H. apply UpdateOrderStatus_run in H
    as [(-> & -> & Hn)|(id & batch & b' & Hl & Ho & Hu & -> & ->)].
  - left. eauto.
  - right. exists id, batch, b'. do 3 (split; [done|]).
    split; [eauto using UpdateItemStatus_item_status|]. split; [done|].
    destruct (UpdateItemStatus_Ok _ _ _ _ _ Hu) as (-> & _ & _).
    by rewrite (Hk _ _ Hl).
Qed.




Lemma processReturn_run event now stamp s r s' :
  reachable s →
  (r, s') ∈ processReturn event now stamp s →
  return_outcome event now stamp s r s'.
Proof.
  intros Hreach H. apply reachable_repository_invariant in Hreach as Hinv.
  pose proof Hinv as (Hk & _ & _).
  unfold processReturn in H. unfold return_outcome.
  apply run_bind in H as (err & s1 & Hu & H).
  pose proof (UpdateOrderStatus_preserves _ _ _ _ _ _ Hinv Hu) as (Hk1 & _ & _).
  apply UpdateOrderStatus_keyed in Hu
    as [([e ->] & -> & Hn)|(id & batch & updated & Hl & Ho & Hu & Hst & -> & Hs1)];
    [| |done].
  - apply run_ret in H. injection H as -> ->. left. eauto.
  - apply run_bind in H as (added & s2 & Ha & H).
    apply AddOrderToBatch_selected in Ha
      as (target & b & Hsel & Hadd & Hast & Hpend & -> & Hs2).
    apply run_ret in H. injection H as -> ->.
    right. exists id, batch, updated, target, b. rewrite <- Hs1.
    do 10 (split; [done|]).
    intros Hnp Hfresh.
    assert (Batch.ID b ≠ id) as Hne.
    { destruct (AddItem_Ok _ _ _ _ _ _ _ Hadd) as (-> & _ & _ & _).
      destruct Hsel as [(idt & Hlt & _ & Hpt)|[-> _]]; [|done].
      rewrite (Hk1 _ _ Hlt). intros ->.
      rewrite Hs1, lookup_insert_eq in Hlt. injection Hlt as <-.
      destruct (UpdateItemStatus_Ok _ _ _ _ _ Hu) as (_ & _ & Hsu). congruence. }
    split; [done|]. rewrite Hs2. split.
    + rewrite lookup_insert_ne by done. rewrite Hs1. apply lookup_insert_eq.
    + apply lookup_insert_eq.
Qed.
End DamageAndReturn.




(** C10 at a failing input.  The batch of [order-1] is being processed,
    and the return of [order-1] is handled within the second in which
    that batch was created: the product has no pending batch, the batch
    made for the return item gets the id of the order's batch, and saving
    it replaces that batch.  One batch remains, holding the return item
    only; the original item is in no batch. *)
Lemma C10_return_replaces_batch :
  reachable Examples.after_processing
  ∧ batches Examples.after_processing
    = {[ "BATCH-p1-20250101000000" :=
           Batch.mk "BATCH-p1-20250101000000" "p1" BatchStatusProcessing
             [Examples.item1] 1 100 120 None ]}
  ∧ Examples.outcomes
      (HandleOrderEvent Examples.return_order1 130 "20250101000000" Examples.after_processing)
    = [(None,
        {[ "BATCH-p1-20250101000000" :=
             Batch.mk "BATCH-p1-20250101000000" "p1" BatchStatusPending
               [BatchItem.mk "order-1-return" "p1" 5 "returned" 130 None]
               1 130 130 None ]})].
Proof.
  split; [apply reachable_after_processing|].
  split; vm_compute; reflexivity.
Qed.

(** What the code does on [order.returned] in a reachable state: when no
    batch holds the order the handler fails and changes nothing; otherwise
    the order's item gets status [returned] in a batch holding it, and the
    item [<orderId>-return] is added with status [returned] by the rule of
    [AddOrderToBatch], to the pending batch of the order's product or to a
    new batch when the product has none.  When the batch of the original
    item is not pending, and the id generated for a new batch is not the
    id of that batch, the two items end up in two different batches. *)
Lemma return_goes_to_pending_batch {P : Type} `{!BatchEventPublisher P}
    (event : OrderEvent.t) (now : Time) (stamp : string)
    (s : State P) (r : option error) (s' : State P) :
  OrderEvent.EventType event = "order.returned" →
  reachable s →
  (r, s') ∈ HandleOrderEvent event now stamp s →
  return_outcome event now stamp s r s'.
Proof.
  intros Hty Hreach H. apply processReturn_run; [done|].
  unfold HandleOrderEvent, OrderEvent.IsWarehouseRelevant, OrderEvent.GetWarehouseAction in H.
  rewrite Hty in H.
  assert (OrderEvent.warehouseRelevantEvents !! "order.returned" = Some true) as Hrel
    by (vm_compute; reflexivity).
  rewrite Hrel in H. exact H.
Qed.

(** The same return one minute later: the original item, returned, stays
    in its batch, and the return item opens a new pending batch. *)
Lemma return_one_minute_later_scenario :
  return_outcome Examples.return_order1 60130 "20250101000100"
    Examples.after_processing None Examples.after_return
  ∧ batches Examples.after_return
    = {[ "BATCH-p1-20250101000000" :=
           Batch.mk "BATCH-p1-20250101000000" "p1" BatchStatusProcessing
             [BatchItem.mk "order-1" "p1" 5 "returned" 100 None] 1 100 60130 None;
         "BATCH-p1-20250101000100" :=
           Batch.mk "BATCH-p1-20250101000100" "p1" BatchStatusPending
             [BatchItem.mk "order-1-return" "p1" 5 "returned" 60130 None]
             1 60130 60130 None ]}.
Proof.
  split.
  - apply return_goes_to_pending_batch.
    + reflexivity.
    + apply reachable_after_processing.
    + vm_compute. left.
  - vm_compute. reflexivity.
Qed.

(** ** The publisher and its callers *)

Lemma HasPrefix_spec s prefix :
  GoStrings.HasPrefix s prefix = true ↔ ∃ rest, s = prefix +:+ rest.
Proof.
  revert s. induction prefix as [|a prefix IH]; intros s; simpl.
  - split; [intros _; by exists s|done].
  - destruct s as [|b s].
    + split; [done|]. by intros [rest [=]].
    + rewrite andb_true_iff, bool_decide_eq_true, IH. split.
      * intros [-> [rest ->]]. eauto.
      * intros [rest [= -> ->]]. eauto.
Qed.

Lemma Contains_unfold s substr :
  GoStrings.Contains s substr
  = GoStrings.HasPrefix s substr
    || match s with
       | EmptyString => false
       | String _ rest => GoStrings.Contains rest substr
       end.
Proof. by destruct s. Qed.

Lemma Contains_spec s substr :
  GoStrings.Contains s substr = true ↔ substring_of substr s.
Proof.
  split.
  - induction s as [|c s IH]; rewrite Contains_unfold, orb_true_iff.
    + intros [H|H]; [|done]. apply HasPrefix_spec in H as [rest ->].
      by exists "", rest.
    + intros [H|H].
      * apply HasPrefix_spec in H as [rest ->]. by exists "", rest.
      * destruct (IH H) as (before & after & ->). by exists (String c before), after.
  - intros (before & after & ->). induction before as [|c before IH].
    + rewrite Contains_unfold. apply orb_true_iff. left.
      apply HasPrefix_spec. eauto.
    + rewrite Contains_unfold. apply orb_true_iff. right. exact IH.
Qed.

(** Lower-casing byte by byte, against matching without regard to case. *)
Lemma lower_byte_same_letter (a b : ascii) :
  GoStrings.lower_byte a = b → same_letter a b.
Proof.
  unfold GoStrings.lower_byte, same_letter. intros <-.
  destruct (_ && _) eqn:Hr; [|by left]. right.
  apply andb_true_iff in Hr as [H1 H2]. apply N.leb_le in H1, H2.
  exists (N_of_ascii a), (N_of_ascii a + 32)%N. split; [lia|]. split; [done|]. left.
  split; [done|]. apply N_ascii_embedding. lia.
Qed.

Lemma same_letter_lower_byte (a b : ascii) :
  same_letter a b → GoStrings.lower_byte b = b → GoStrings.lower_byte a = b.
Proof.
  intros [->|(upper & lower & Hu & -> & [[Ha Hb]|[Ha Hb]])] Hfix; [done| |].
  - unfold GoStrings.lower_byte. rewrite Ha.
    replace ((65 <=? upper)%N && (upper <=? 90)%N) with true
      by (symmetry; apply andb_true_iff; split; apply N.leb_le; lia).
    rewrite <- Hb. apply ascii_N_embedding.
  - exfalso. unfold GoStrings.lower_byte in Hfix. rewrite Hb in Hfix.
    replace ((65 <=? upper)%N && (upper <=? 90)%N) with true in Hfix
      by (symmetry; apply andb_true_iff; split; apply N.leb_le; lia).
    apply (f_equal N_of_ascii) in Hfix. rewrite N_ascii_embedding, Hb in Hfix by lia. lia.
Qed.

Lemma lower_bytes_equal_ignoring_case (middle pattern : string) :
  GoStrings.lower_bytes pattern = pattern →
  GoStrings.lower_bytes middle = pattern ↔ equal_ignoring_case middle pattern.
Proof.
  intros Hfix. split.
  - revert pattern Hfix. induction middle as [|a middle IH]; intros pattern Hfix H.
    + simpl in H. subst. constructor.
    + simpl in H. subst pattern. simpl in Hfix. injection Hfix as _ Hfix.
      constructor; [by apply lower_byte_same_letter|by apply IH].
  - intros H. induction H as [|a b s t Hab _ IH]; [done|].
    simpl in Hfix. injection Hfix as Hb Ht. simpl.
    by rewrite (same_letter_lower_byte a b Hab Hb), (IH Ht).
Qed.

Lemma lower_bytes_app (a b : string) :
  GoStrings.lower_bytes (a +:+ b) = GoStrings.lower_bytes a +:+ GoStrings.lower_bytes b.
Proof. induction a as [|c a IH]; simpl; [done|]. by rewrite IH. Qed.

Lemma lower_bytes_split (s x y : string) :
  GoStrings.lower_bytes s = x +:+ y →
  ∃ a b, s = a +:+ b ∧ GoStrings.lower_bytes a = x ∧ GoStrings.lower_bytes b = y.
Proof.
  revert s. induction x as [|c x IH]; intros s H; simpl in H.
  - by exists "", s.
  - destruct s as [|d s]; [done|]. simpl in H. injection H as Hd H.
    destruct (IH s H) as (a & b & -> & Ha & Hb).
    exists (String d a), b. simpl. by rewrite Hd, Ha.
Qed.

Lemma lower_bytes_occurs (pattern text : string) :
  GoStrings.lower_bytes pattern = pattern →
  substring_of pattern (GoStrings.lower_bytes text) ↔ occurs_ignoring_case pattern text.
Proof.
  intros Hfix. split.
  - intros (before & after & H).
    apply lower_bytes_split in H as (b & rest & -> & _ & H).
    apply lower_bytes_split in H as (m & a & -> & Hm & _).
    exists b, m, a. split; [done|]. by apply lower_bytes_equal_ignoring_case.
  - intros (b & m & a & -> & H).
    apply (lower_bytes_equal_ignoring_case _ _ Hfix) in H.
    exists (GoStrings.lower_bytes b), (GoStrings.lower_bytes a).
    by rewrite !lower_bytes_app, H.
Qed.

Lemma isASCII_all_ascii (text : string) :
  GoStrings.isASCII text = true ↔ all_ascii text.
Proof.
  unfold all_ascii. induction text as [|c text IH]; simpl.
  - split; [constructor|done].
  - rewrite andb_true_iff, N.ltb_lt, IH, Forall_cons. done.
Qed.

Lemma isUnknownTopicOrPartitionError_spec env text :
  BatchEventPublisherAdapter.isUnknownTopicOrPartitionError env (Some text) = true
  ↔ unknown_topic_error env text.
Proof.
  unfold BatchEventPublisherAdapter.isUnknownTopicOrPartitionError, unknown_topic_error,
    BatchEventPublisherAdapter.unknown_topic_patterns, GoStrings.ToLower.
  rewrite !orb_true_iff, !Contains_spec.
  destruct (GoStrings.isASCII text) eqn:Ha.
  - apply isASCII_all_ascii in Ha.
    rewrite !lower_bytes_occurs by reflexivity. split.
    + intros [[[H|H]|H]|H]; eexists; (split; [|left; split; [exact Ha|exact H]]);
        repeat first [apply list_elem_of_here | apply list_elem_of_further].
    + intros (pattern & Hin & [[_ H]|[Hn _]]); [|done].
      repeat (apply elem_of_cons in Hin as [->|Hin]; [tauto|]).
      by apply elem_of_nil in Hin.
  - assert (Hn : ¬ all_ascii text).
    { intros H. apply isASCII_all_ascii in H. congruence. }
    split.
    + intros [[[H|H]|H]|H]; eexists; (split; [|right; split; [exact Hn|exact H]]);
        repeat first [apply list_elem_of_here | apply list_elem_of_further].
    + intros (pattern & Hin & [[Hy _]|[_ H]]); [done|].
      repeat (apply elem_of_cons in Hin as [->|Hin]; [tauto|]).
      by apply elem_of_nil in Hin.
Qed.

Lemma PublishBatchEvent_outcome env event p :
  built p →
  publish_outcome env event p
    (BatchEventPublisherAdapter.PublishBatchEvent env event p).1
    (BatchEventPublisherAdapter.PublishBatchEvent env event p).2.
Proof.
  intros Hb eventData Hjson. unfold BatchEventPublisherAdapter.PublishBatchEvent.
  rewrite Hjson. unfold BatchEventPublisherAdapter.write at 1. simpl.
  destruct (WriteMessages env _) as [text|] eqn:Hw; [|done].
  destruct (BatchEventPublisherAdapter.isUnknownTopicOrPartitionError env (Some text)) eqn:Hu.
  - apply isUnknownTopicOrPartitionError_spec in Hu. split; [|done]. intros _.
    unfold BatchEventPublisherAdapter.write. simpl.
    rewrite !filter_app, !length_app. simpl.
    replace (length (filter (λ a, is_write a = true) (BatchEventPublisherAdapter.actions p))
             + 1 + 0 + 0)%nat
      with (S (length (filter (λ a, is_write a = true) (BatchEventPublisherAdapter.actions p))))
      by lia.
    destruct (WriteMessages env (S _)) as [retry|]; simpl;
      rewrite <- !app_assoc; simpl; rewrite <- Hb; done.
  - split; [|done]. intros Hs. apply isUnknownTopicOrPartitionError_spec in Hs. congruence.
Qed.

(** The cases of the repository's own tests (error_recovery_test.go);
    their texts are ASCII, so the tables of [unicode] do not come in. *)
Lemma isUnknownTopicOrPartitionError_tests (env : Environment) :
  BatchEventPublisherAdapter.isUnknownTopicOrPartitionError env None = false
  ∧ BatchEventPublisherAdapter.isUnknownTopicOrPartitionError env
      (Some "[3] Unknown Topic Or Partition: the request is for a topic or partition that does not exist on this broker") = true
  ∧ BatchEventPublisherAdapter.isUnknownTopicOrPartitionError env
      (Some "kafka: UnknownTopicOrPartition") = true
  ∧ BatchEventPublisherAdapter.isUnknownTopicOrPartitionError env
      (Some "topic or partition that does not exist") = true
  ∧ BatchEventPublisherAdapter.isUnknownTopicOrPartitionError env
      (Some "connection refused") = false
  ∧ BatchEventPublisherAdapter.isUnknownTopicOrPartitionError env
      (Some "[1] OffsetOutOfRange") = false.
Proof. repeat split; vm_compute; reflexivity. Qed.

(** Two runs of the service that differ in the publisher only. *)
Section TwoPublishers.
Context {P Q : Type} `{!BatchEventPublisher P} `{!BatchEventPublisher Q}.
Local Abbreviation sim := (Warehouse.sim (P:=P) (Q:=Q)).

Lemma sim_ret {A} (a : A) : sim (ret a) (ret a).
Proof. intros s t Hst. by repeat constructor. Qed.

Lemma sim_bind {A B} (m : M (State P) A) (m' : M (State Q) A)
    (f : A → M (State P) B) (f' : A → M (State Q) B) :
  sim m m' → (∀ a, sim (f a) (f' a)) → sim (m ≫= f) (m' ≫= f').
Proof.
  intros Hm Hf s t Hst. unfold mbind, M_bind. apply Forall2_bind.
  eapply Forall2_impl; [apply Hm, Hst|].
  intros [a s1] [a' t1] [Ha Hb]; simpl in *; subst. by apply Hf.
Qed.

Lemma sim_gets {A} (f : gmap string Batch.t → A) :
  sim (gets (λ s, f (batches s))) (gets (λ t, f (batches t))).
Proof. intros s t Hst. unfold gets. rewrite Hst. by repeat constructor. Qed.

Lemma sim_choose {A} (l : list A) : sim (choose l) (choose l).
Proof.
  intros s t Hst. unfold choose. apply Forall2_fmap.
  apply Forall_Forall2_diag, Forall_forall. by intros.
Qed.

Lemma sim_Save b : sim (Save b) (Save b).
Proof. intros s t Hst. unfold Save, modify. simpl. rewrite Hst. by repeat constructor. Qed.

Lemma sim_publish ev : sim (publish ev) (publish ev).
Proof. intros s t Hst. unfold publish, modify. by repeat constructor. Qed.

Lemma sim_Delete id : sim (Delete id) (Delete id).
Proof.
  intros s t Hst. unfold Delete. rewrite Hst.
  destruct (BatchMemoryRepository.Delete _ _); by repeat constructor.
Qed.

Lemma sim_FindByID id : sim (FindByID id) (FindByID id).
Proof. apply (sim_gets (λ r, BatchMemoryRepository.FindByID r id)). Qed.

Lemma sim_FindByOrderID o : sim (FindByOrderID o) (FindByOrderID o).
Proof.
  apply sim_bind; [apply (sim_gets (λ r, r))|]. intros r. apply sim_choose.
Qed.

Lemma sim_FindPendingBatchForProduct p :
  sim (FindPendingBatchForProduct p) (FindPendingBatchForProduct p).
Proof.
  apply sim_bind; [apply (sim_gets (λ r, r))|]. intros r. apply sim_choose.
Qed.

Ltac sim_step :=
  first
    [ apply sim_ret | apply sim_Save | apply sim_publish | apply sim_Delete
    | apply sim_FindByID | apply sim_FindByOrderID | apply sim_FindPendingBatchForProduct
    | apply sim_bind; [|intros ?]
    | match goal with
      | |- sim (match ?x with _ => _ end) _ => destruct x eqn:?
      | |- sim (let '(_, _) := ?x in _) _ => destruct x eqn:?
      | |- sim (if ?x then _ else _) _ => destruct x eqn:?
      end ].

Lemma sim_AddOrderToBatch o p q st now stamp :
  sim (AddOrderToBatch o p q st now stamp) (AddOrderToBatch o p q st now stamp).
Proof. unfold AddOrderToBatch. repeat sim_step. Qed.

Lemma sim_RemoveOrderFromBatch o now :
  sim (RemoveOrderFromBatch o now) (RemoveOrderFromBatch o now).
Proof. unfold RemoveOrderFromBatch. repeat sim_step. Qed.

Lemma sim_UpdateOrderStatus o st now :
  sim (UpdateOrderStatus o st now) (UpdateOrderStatus o st now).
Proof. unfold UpdateOrderStatus. repeat sim_step. Qed.

Lemma sim_transition id step ctx (ev : Batch.t → BatchEvent.t) :
  sim (transition id step ctx ev) (transition id step ctx ev).
Proof. unfold transition. repeat sim_step. Qed.

Lemma call_ignores_publisher c now stamp (s : State P) (t : State Q) :
  batches s = batches t →
  Forall2 (λ s' t', batches s' = batches t') (call c now stamp s) (call c now stamp t).
Proof.
  intros Hst.
  assert (Hsnd : ∀ A (m : M (State P) A) (m' : M (State Q) A),
            sim m m' →
            Forall2 (λ s' t', batches s' = batches t') (snd <$> m s) (snd <$> m' t)).
  { intros A m m' Hm. apply Forall2_fmap. eapply Forall2_impl; [apply Hm, Hst|].
    by intros ?? [_ ?]. }
  destruct c; simpl; apply Hsnd.
  - apply sim_AddOrderToBatch.
  - apply sim_RemoveOrderFromBatch.
  - apply sim_UpdateOrderStatus.
  - apply sim_transition.
  - apply sim_transition.
  - apply sim_transition.
  - apply sim_transition.
Qed.
End TwoPublishers.

(** C8.  On a publish, when and only when one of the four patterns
    occurs in the broker's error text without regard to case, the
    publisher closes its writer, makes a new one with the same
    configuration, waits 2 seconds and writes the same message once more,
    succeeding exactly when that second write succeeds; any other error
    goes back to the caller after the single write.  Case is that of the
    letters A to Z for an ASCII text, and that of [unicode.ToLower] for
    any other.  The caller's repository is what it would be with any
    other publisher: a failed publish undoes nothing. *)
Theorem C8_self_healing_publisher (env : Environment) (event : BatchEvent.t)
    (p : BatchEventPublisherAdapter.t) :
  built p →
  publish_outcome env event p
    (BatchEventPublisherAdapter.PublishBatchEvent env event p).1
    (BatchEventPublisherAdapter.PublishBatchEvent env event p).2
  ∧ built (BatchEventPublisherAdapter.PublishBatchEvent env event p).2
  ∧ repository_ignores_publisher env.
Proof.
  intros Hb. split; [by apply PublishBatchEvent_outcome|]. split.
  - unfold BatchEventPublisherAdapter.PublishBatchEvent.
    destruct (json_Marshal env event); [|done]. simpl.
    destruct (WriteMessages env _); [|done].
    destruct (BatchEventPublisherAdapter.isUnknownTopicOrPartitionError _ _); [|done].
    simpl. destruct (WriteMessages env _); done.
  - intros Q other c now stamp s t Hst.
    apply (@call_ignores_publisher _ Q (kafka_publisher env) other). done.
Qed.

(** The scenario of a publish that recovers: the first write meets a
    missing topic, the second succeeds. *)
Lemma publisher_recovery_scenario :
  BatchEventPublisherAdapter.PublishBatchEvent Examples.recovering_env
    Examples.created_event Examples.adapter0
  = (None,
     let w := BatchEventPublisherAdapter.new_writer "kafka:9092" "warehouse-batch-events" in
     let m := BatchEventPublisherAdapter.message_of Examples.recovering_env
                Examples.created_event "{}" in
     BatchEventPublisherAdapter.mk w 1 "warehouse-batch-events" "kafka:9092"
       [DoWriteMessages 0 w 10 m; DoClose 0; DoSleep 2; DoWriteMessages 1 w 10 m]).
Proof. vm_compute. reflexivity. Qed.

Lemma C8_self_healing_publisher_witness :
  publish_outcome Examples.recovering_env Examples.created_event Examples.adapter0
    (BatchEventPublisherAdapter.PublishBatchEvent Examples.recovering_env
       Examples.created_event Examples.adapter0).1
    (BatchEventPublisherAdapter.PublishBatchEvent Examples.recovering_env
       Examples.created_event Examples.adapter0).2
  ∧ built (BatchEventPublisherAdapter.PublishBatchEvent Examples.recovering_env
             Examples.created_event Examples.adapter0).2
  ∧ repository_ignores_publisher Examples.recovering_env.
Proof.
  apply (C8_self_healing_publisher Examples.recovering_env Examples.created_event
           Examples.adapter0).
  reflexivity.
Defined.

(** ** The order aggregator *)

Section OrderAggregator.
Import OrderManagement.

Lemma newStatus_table severity : status_table severity (newStatus severity).
Proof.
  unfold status_table, newStatus. repeat split.
  - intros ->. done.
  - intros ->. done.
  - intros ->. done.
  - intros H1 H2 H3. by rewrite !bool_decide_eq_false_2.
Qed.

Lemma keyed_by_id_insert (r : gmap string Order.t) (o : Order.t) :
  keyed_by_id r → keyed_by_id (<[Order.ID o := o]> r).
Proof.
  intros Hk id x. rewrite lookup_insert_Some. intros [[<- <-]|[_ ?]]; eauto.
Qed.

Lemma Update_keyed_by_id (r r' : gmap string Order.t) (o : Order.t) :
  keyed_by_id r → MemoryOrderRepository.Update r o = Ok r' → keyed_by_id r'.
Proof.
  unfold MemoryOrderRepository.Update. intros Hk.
  destruct (r !! Order.ID o); intros [= <-]. by apply keyed_by_id_insert.
Qed.

Lemma reachable_keyed_by_id {P : Type} `{!OrderEventPublisher P} (s : State P) :
  reachable s → keyed_by_id (orders s).
Proof.
  induction 1 as [p|s id c p q t now _ IH|s id st now _ IH|s ev now _ IH]; simpl.
  - intros id o H. by rewrite lookup_empty in H.
  - by apply (keyed_by_id_insert _ (Order.mk id c p q "created" t now now)).
  - unfold UpdateOrderStatus.
    destruct (MemoryOrderRepository.FindByID (orders s) id) as [o|]; [|done].
    destruct (MemoryOrderRepository.Update _ _) as [r|] eqn:Hu; [|done].
    simpl. eauto using Update_keyed_by_id.
  - unfold OrderService_HandleOrderDamageEvent.
    destruct (MemoryOrderRepository.FindByID _ _) as [o|].
    + destruct (MemoryOrderRepository.Update _ _) as [r|] eqn:Hu; [|done].
      simpl. eauto using Update_keyed_by_id.
    + simpl. destruct (MemoryOrderRepository.Update _ _) as [r|] eqn:Hu; simpl.
      * eapply Update_keyed_by_id; [|exact Hu].
        by apply (keyed_by_id_insert _ (Order.mk _ _ _ _ _ _ _ _)).
      * by apply (keyed_by_id_insert _ (Order.mk _ _ _ _ _ _ _ _)).
Qed.

(** C2 fails in "exactly one OrderEvent is published": when the channel
    refuses the publish, the handler logs the failure and returns nil
    all the same; the order is made and updated, and no event is
    published. *)
Lemma C2_refused_publish_counterexample :
  (HandleOrderDamageEvent OrderExamples.damage1 60 OrderExamples.broken).1 = None
  ∧ orders (HandleOrderDamageEvent OrderExamples.damage1 60 OrderExamples.broken).2
    = {[ "evt_1" := Order.mk "evt_1" "unknown" "unknown" 1 "damage_detected_minor"
                      0%float 50 60 ]}
  ∧ RabbitMQPublisher.sent
      (eventPublisher (HandleOrderDamageEvent OrderExamples.damage1 60 OrderExamples.broken).2)
    = [].
Proof. repeat split; vm_compute; reflexivity. Qed.

(** C2, amended.  Handling a damage event leaves, under the event's order
    id, an order whose status is the one the table gives for the
    severity; when no order existed it is made with customer and product
    [unknown], quantity 1, amount 0.0 and the event's [OccurredAt] as
    creation time, and otherwise the existing order keeps its other
    fields.  The handler returns nil.  One event, [order.damage_processed]
    carrying that order, is handed to the RabbitMQ publisher; it reaches
    the channel once when it marshals, and it is published exactly when
    the channel then accepts it: a publish that fails is only logged. *)
Theorem C2_damage_event_handled (event : OrderDamageEvent.t) (now : Time)
    (s : State RabbitMQPublisher.t) :
  reachable s →
  damage_event_outcome event now s
    (HandleOrderDamageEvent event now s).1 (HandleOrderDamageEvent event now s).2
  ∧ status_table (OrderDamageEvent.Severity event)
      (newStatus (OrderDamageEvent.Severity event)).
Proof.
  intros Hk. apply reachable_keyed_by_id in Hk. split; [|apply newStatus_table].
  unfold damage_event_outcome. simpl.
  unfold OrderService_HandleOrderDamageEvent, MemoryOrderRepository.FindByID.
  destruct (orders s !! OrderDamageEvent.OrderID event) as [old|] eqn:Hl.
  - unfold MemoryOrderRepository.Update. simpl.
    rewrite (Hk _ _ Hl), Hl. simpl.
    exists (Order.with_Status old (newStatus (OrderDamageEvent.Severity event)) now).
    split; [done|]. split; [done|]. split; [simpl; by apply Hk|].
    do 2 (split; [done|]). split; [done|].
    unfold PublishOrderEvent, rabbitmq_publisher, RabbitMQPublisher.Publish. simpl.
    destruct (RabbitMQPublisher.json_Marshal _ _); [|done].
    destruct (RabbitMQPublisher.accepts _ _); simpl; [by rewrite app_nil_r|done].
  - unfold MemoryOrderRepository.Update, MemoryOrderRepository.Save. simpl.
    rewrite lookup_insert_eq. simpl.
    eexists. split; [done|]. split; [by rewrite insert_insert_eq|].
    do 3 (split; [done|]). split; [done|].
    unfold PublishOrderEvent, rabbitmq_publisher, RabbitMQPublisher.Publish. simpl.
    destruct (RabbitMQPublisher.json_Marshal _ _); [|done].
    destruct (RabbitMQPublisher.accepts _ _); simpl; [by rewrite app_nil_r|done].
Qed.

Lemma C2_damage_event_handled_witness :
  damage_event_outcome OrderExamples.damage1 60 OrderExamples.working
    (HandleOrderDamageEvent OrderExamples.damage1 60 OrderExamples.working).1
    (HandleOrderDamageEvent OrderExamples.damage1 60 OrderExamples.working).2
  ∧ status_table "minor" "damage_detected_minor".
Proof.
  apply (C2_damage_event_handled OrderExamples.damage1 60 OrderExamples.working).
  apply reachable_new.
Defined.

(** Scenario: the first damage event for [evt_1] makes the order and
    queues one event. *)
Lemma first_damage_event_scenario :
  let order := Order.mk "evt_1" "unknown" "unknown" 1 "damage_detected_minor" 0%float 50 60 in
  (HandleOrderDamageEvent OrderExamples.damage1 60 OrderExamples.working).1 = None
  ∧ orders (HandleOrderDamageEvent OrderExamples.damage1 60 OrderExamples.working).2
    = {[ "evt_1" := order ]}
  ∧ RabbitMQPublisher.sent
      (eventPublisher (HandleOrderDamageEvent OrderExamples.damage1 60 OrderExamples.working).2)
    = [OrderEvent.mk "order.damage_processed" "evt_1" order 60].
Proof. repeat split; vm_compute; reflexivity. Qed.

(** C6 fails twice: a body that is not JSON is acked, as a placeholder
    event; and a damage delivery is acked although the channel refused the
    order event, so that nothing was queued. *)
Lemma C6_ack_without_queue_counterexample :
  consume OrderExamples.example_json "not json" 60 OrderExamples.working
  = (Ack, OrderExamples.working)
  ∧ (consume OrderExamples.example_json OrderExamples.wrapper_body 60 OrderExamples.broken).1
    = Ack
  ∧ RabbitMQPublisher.sent
      (eventPublisher
         (consume OrderExamples.example_json OrderExamples.wrapper_body 60
            OrderExamples.broken).2)
    = [].
Proof. repeat split; vm_compute; reflexivity. Qed.

Lemma consume_settled {H : Type} `{!OrderEventHandler H}
    (json : Json) (body : string) (now : Time) (h : H) :
  (consume json body now h).1
  = match translateMessage json body now with
    | Err _ => NackNoRequeue
    | Ok ev =>
        match match ev with
              | IsOrderDamageEvent e => (HandleOrderDamageEvent e now h).1
              | IsOrderEvent e => (HandleOrderEvent e now h).1
              end with
        | Some _ => NackRequeue
        | None => Ack
        end
    end.
Proof.
  unfold consume. destruct (translateMessage json body now) as [[e|e]|]; [| |done].
  - by destruct (HandleOrderDamageEvent e now h) as [[err|] h'].
  - by destruct (HandleOrderEvent e now h) as [[err|] h'].
Qed.

Lemma translateMessage_Err (json : Json) (body : string) (now : Time) :
  (∃ e, translateMessage json body now = Err e)
  ↔ ∃ m, unmarshal_MQTTOrderEvent json body = Some m
         ∧ MQTTOrderEvent.MqttTopic m = "events/order-damage"
         ∧ unmarshal_OrderDamageEvent json (MQTTOrderEvent.Payload m) = None.
Proof.
  unfold translateMessage, handleOrderDamageEvent.
  destruct (unmarshal_MQTTOrderEvent json body) as [m|].
  - case_bool_decide as Ht.
    + destruct (unmarshal_OrderDamageEvent json (MQTTOrderEvent.Payload m)) as [d|] eqn:Hd.
      * split; [by intros [e ?]|]. intros (m' & [= <-] & _ & ?). congruence.
      * split; [eauto|]. intros _. eauto.
    + destruct (unmarshal_OrderEvent json body);
        (split; [by intros [e ?]|]); intros (m' & [= <-] & ? & _); done.
  - destruct (unmarshal_OrderEvent json body);
      (split; [by intros [e ?]|]); intros (m' & [=] & _).
Qed.

(** C6, amended.  A delivery is acked exactly when it translates into an
    event and the handler returns no error; it is nacked with requeue
    exactly when the handler returns an error; it is nacked without
    requeue exactly when the body decodes as a wrapper of topic
    [events/order-damage] whose payload does not decode as a damage
    event.  A body that decodes neither as a wrapper nor as an order
    event becomes the placeholder event [order.message] and is handled.
    Whether the order service's handler returns an error does not depend
    on the publisher. *)
Theorem C6_delivery_settlement {H : Type} `{!OrderEventHandler H}
    {P Q : Type} `{!OrderEventPublisher P} `{!OrderEventPublisher Q}
    (json : Json) (body : string) (now : Time) (h : H)
    (event : OrderDamageEvent.t) (r : gmap string Order.t) (p : P) (q : Q) :
  let handle ev :=
    match ev with
    | IsOrderDamageEvent e => (HandleOrderDamageEvent e now h).1
    | IsOrderEvent e => (HandleOrderEvent e now h).1
    end in
  let settled := (consume json body now h).1 in
  (settled = Ack ↔ ∃ ev, translateMessage json body now = Ok ev ∧ handle ev = None)
  ∧ (settled = NackRequeue
     ↔ ∃ ev, translateMessage json body now = Ok ev ∧ is_Some (handle ev))
  ∧ (settled = NackNoRequeue
     ↔ ∃ m, unmarshal_MQTTOrderEvent json body = Some m
            ∧ MQTTOrderEvent.MqttTopic m = "events/order-damage"
            ∧ unmarshal_OrderDamageEvent json (MQTTOrderEvent.Payload m) = None)
  ∧ (unmarshal_MQTTOrderEvent json body = None →
     unmarshal_OrderEvent json body = None →
     translateMessage json body now
     = Ok (IsOrderEvent (OrderEvent.mk "order.message" "unknown" zero_Order now)))
  ∧ (OrderService_HandleOrderDamageEvent event now (mkState r p)).1
    = (OrderService_HandleOrderDamageEvent event now (mkState r q)).1.
Proof.
  intros handle settled. subst settled handle. rewrite consume_settled.
  split; [|split; [|split; [|split]]].
  - destruct (translateMessage json body now) as [ev|e].
    + match goal with
      | |- context [match ?m with Some _ => NackRequeue | None => Ack end] =>
          destruct m eqn:Hh
      end.
      * split; [done|]. intros (ev' & [= <-] & H0). congruence.
      * split; [eauto|done].
    + split; [done|]. by intros (ev & ? & _).
  - destruct (translateMessage json body now) as [ev|e].
    + match goal with
      | |- context [match ?m with Some _ => NackRequeue | None => Ack end] =>
          destruct m eqn:Hh
      end.
      * split; [|done]. intros _. exists ev. rewrite Hh. eauto.
      * split; [done|]. intros (ev' & [= <-] & [x H0]). congruence.
    + split; [done|]. by intros (ev & ? & _).
  - rewrite <- (translateMessage_Err json body now).
    destruct (translateMessage json body now) as [ev|e].
    + match goal with
      | |- context [match ?m with Some _ => NackRequeue | None => Ack end] =>
          destruct m
      end; (split; [done|]); intros [e' [=]].
    + split; [eauto|done].
  - intros Hm He. unfold translateMessage. by rewrite Hm, He.
  - unfold OrderService_HandleOrderDamageEvent. simpl.
    destruct (MemoryOrderRepository.FindByID r _); simpl;
      destruct (MemoryOrderRepository.Update _ _); done.
Qed.
End OrderAggregator.

(** ** The damage detector *)

Section DamageDetector.
Import Detector.

Lemma deriveSeverity_rule temperature humidity :
  deriveSeverity temperature humidity = severity_rule temperature humidity.
Proof.
  unfold deriveSeverity, severity_rule.
  destruct (30 <=? temperature)%float, (80 <=? humidity)%float,
    (40 <=? temperature)%float, (90 <=? humidity)%float; reflexivity.
Qed.

(** C7 fails in "both outputs": a reading below the threshold is handed to
    the MQTT publisher only; the Kafka publisher of the package is not
    called. *)
Lemma C7_single_output_counterexample :
  (5 <? minTemperature (started (Some "events/order-damage")))%float = true
  ∧ (messageHandler DetectorExamples.quiet_env "events/sensor"
       (Some (DetectorExamples.reading 5 50)) 60 (started (Some "events/order-damage"))).2
    = [ mkAttempt (MqttTopic "events/order-damage") 5
          (OrderDamageEvent.mk "evt_1" "order.damage" "mqtt-order-event-client" 60 "evt_1"
             "minor" "Potential damage detected"
             (DamageDetails.mk 5 50 "active" "events/sensor")) ].
Proof. split; vm_compute; reflexivity. Qed.

(** C7, amended.  A decoded reading makes the handler publish exactly
    when its temperature is strictly below [minTemperature] (10.0, which
    nothing changes), the MQTT publisher is there, and the event
    marshals.  The publisher is nil until [main] has made it, after the
    subscription, and stays nil when making it fails: then the reading is
    stored and nothing is published, whatever its temperature.  The
    publish is a single one, to the topic of the MQTT publisher, under a
    deadline of 5 seconds, of an event whose severity is critical if
    temperature >= 40 or humidity >= 90, else major if temperature >= 30
    or humidity >= 80, else minor; no publish goes to the Kafka topic. *)
Theorem C7_threshold_and_severity (env : Environment) (topic : string)
    (event : Event.t) (now : Time) (g : Globals) :
  let temperature := EventData.Temperature (Event.Data event) in
  let humidity := EventData.Humidity (Event.Data event) in
  let evt := damage_event env (Event.ID event) "mqtt-order-event-client" temperature
               humidity (EventData.Status (Event.Data event)) topic now in
  let attempts := (messageHandler env topic (Some event) now g).2 in
  (∀ publisher, minTemperature (started publisher) = 10%float)
  ∧ minTemperature (messageHandler env topic (Some event) now g).1 = minTemperature g
  ∧ (attempts ≠ []
     ↔ (temperature <? minTemperature g)%float = true
       ∧ is_Some (orderPublisher g)
       ∧ ∃ payload, json_Marshal env evt = inl payload)
  ∧ (attempts ≠ [] →
     ∃ pubTopic, orderPublisher g = Some pubTopic
                 ∧ attempts = [mkAttempt (MqttTopic pubTopic) 5 evt])
  ∧ OrderDamageEvent.OrderID evt = Event.ID event
  ∧ OrderDamageEvent.Severity evt = severity_rule temperature humidity
  ∧ (∀ a t, a ∈ attempts → sink a ≠ KafkaTopic t)
  ∧ (orderPublisher g = None →
     messageHandler env topic (Some event) now g
     = (mkGlobals (minTemperature g) (EventStore.AddEvent (eventStore g) event) None, [])).
Proof.
  intros temperature humidity evt attempts.
  assert (Hrun : messageHandler env topic (Some event) now g
                 = (mkGlobals (minTemperature g) (EventStore.AddEvent (eventStore g) event)
                      (orderPublisher g),
                    if (temperature <? minTemperature g)%float then
                      match orderPublisher g, json_Marshal env evt with
                      | Some pubTopic, inl _ => [mkAttempt (MqttTopic pubTopic) 5 evt]
                      | _, _ => []
                      end
                    else [])).
  { unfold messageHandler, MqttPublisher_PublishOrderDamageFromSensor. simpl.
    fold temperature humidity. destruct (temperature <? minTemperature g)%float; [|done].
    destruct (orderPublisher g); [|done]. fold evt. by destruct (json_Marshal env evt). }
  subst attempts. rewrite Hrun. simpl.
  split; [done|]. split; [done|]. split.
  { destruct (temperature <? minTemperature g)%float.
    - destruct (orderPublisher g) as [pubTopic|].
      + destruct (json_Marshal env evt) as [payload|text].
        * split; [eauto|done].
        * split; [done|]. by intros (_ & _ & payload & [=]).
      + split; [done|]. by intros (_ & [? [=]] & _).
    - split; [done|]. by intros [[=] _]. }
  split.
  { destruct (temperature <? minTemperature g)%float; [|done].
    destruct (orderPublisher g) as [pubTopic|]; [|done].
    destruct (json_Marshal env evt); [|done]. eauto. }
  split; [done|]. split; [apply deriveSeverity_rule|]. split.
  { intros a t. destruct (temperature <? minTemperature g)%float.
    - destruct (orderPublisher g) as [pubTopic|].
      + destruct (json_Marshal env evt).
        * intros Ha. apply list_elem_of_singleton in Ha as ->. done.
        * intros Ha. by apply elem_of_nil in Ha.
      + intros Ha. by apply elem_of_nil in Ha.
    - intros Ha. by apply elem_of_nil in Ha. }
  intros Hp. rewrite Hp. by destruct (temperature <? minTemperature g)%float.
Qed.

Lemma C7_threshold_and_severity_witness :
  (messageHandler DetectorExamples.quiet_env "events/sensor"
     (Some (DetectorExamples.reading 5 50)) 60 (started None)).2 = []
  ∧ (messageHandler DetectorExamples.quiet_env "events/sensor"
       (Some (DetectorExamples.reading 5 50)) 60 (started (Some "events/order-damage"))).2
    ≠ [].
Proof.
  split.
  - destruct (C7_threshold_and_severity DetectorExamples.quiet_env "events/sensor"
                (DetectorExamples.reading 5 50) 60 (started None))
      as (_ & _ & _ & _ & _ & _ & _ & Hnil).
    by rewrite (Hnil eq_refl).
  - destruct (C7_threshold_and_severity DetectorExamples.quiet_env "events/sensor"
                (DetectorExamples.reading 5 50) 60 (started (Some "events/order-damage")))
      as (_ & _ & Hiff & _).
    apply Hiff. split; [vm_compute; reflexivity|]. split; [by eexists|].
    eexists. vm_compute. reflexivity.
Defined.

(** The rule on the readings of the specification's scenarios. *)
Lemma severity_scenarios :
  deriveSeverity 9.25 58 = "minor"
  ∧ deriveSeverity 45 95 = "critical"
  ∧ deriveSeverity 35 50 = "major"
  ∧ deriveSeverity 5 85 = "major"
  ∧ deriveSeverity 5 90 = "critical".
Proof. repeat split; vm_compute; reflexivity. Qed.
End DamageDetector.

(** ** Scenarios of the specification and of the repository's tests *)

(** Two [order.created] events for one product: one pending batch with the
    two items; one [batch.created] and two [batch.item_added]. *)
Lemma two_orders_one_batch_scenario :
  let s := Examples.handle_all
             [ (Examples.order_event "order.created" "order-1" 5 "created", 100,
                "20250101000000");
               (Examples.order_event "order.created" "order-2" 3 "created", 2100,
                "20250101000002") ] Examples.mock0 in
  batches s
  = {[ "BATCH-p1-20250101000000" :=
         Batch.mk "BATCH-p1-20250101000000" "p1" BatchStatusPending
           [ BatchItem.mk "order-1" "p1" 5 "allocated" 100 None;
             BatchItem.mk "order-2" "p1" 3 "allocated" 2100 None ]
           2 100 2100 None ]}
  ∧ Examples.published_types s
    = ["batch.created"; "batch.item_added"; "batch.item_added"].
Proof. split; vm_compute; reflexivity. Qed.

(** [order.cancelled] for the only order of a pending batch:
    [batch.item_removed] is published and the batch deleted. *)
Lemma cancel_sole_order_scenario :
  let s := Examples.handle_all
             [ (Examples.order_event "order.created" "order-1" 5 "created", 100,
                "20250101000000");
               (Examples.order_event "order.cancelled" "order-1" 5 "cancelled", 2100,
                "20250101000002") ] Examples.mock0 in
  batches s = ∅
  ∧ Examples.published_types s
    = ["batch.created"; "batch.item_added"; "batch.item_removed"].
Proof. split; vm_compute; reflexivity. Qed.

(** The three cases of [TestOrderService_ProcessDamage_CreatesBatchWhenNotExists]
    share one repository and one product, and run within a second: the
    second order joins the batch of the first, which is then marked
    damaged, and the batch made for the third gets the same id and
    replaces it. *)
Lemma damage_test_cases_replayed :
  let s := Examples.handle_all
             [ (Examples.order_event "order.damage_processed" "damage-order-1" 5
                  "damage_detected_minor", 100, "20250101000000");
               (Examples.order_event "order.damage_processed" "damage-order-2" 5
                  "damage_detected_major", 110, "20250101000000");
               (Examples.order_event "order.damage_processed" "damage-order-3" 5
                  "damage_processed", 120, "20250101000000") ] Examples.mock0 in
  batches s
  = {[ "BATCH-p1-20250101000000" :=
         Batch.mk "BATCH-p1-20250101000000" "p1" BatchStatusPending
           [BatchItem.mk "damage-order-3" "p1" 5 "damage_processed" 120 None]
           1 120 120 None ]}
  ∧ Examples.published_types s
    = [ "batch.created"; "batch.item_added"; "batch.item_added"; "batch.marked_damaged";
        "batch.created"; "batch.item_added" ].
Proof. split; vm_compute; reflexivity. Qed.

(** An order event whose type the warehouse does not know is skipped. *)
Lemma irrelevant_event_skipped {P : Type} `{!BatchEventPublisher P}
    (event : OrderEvent.t) (now : Time) (stamp : string) (s : State P) :
  OrderEvent.IsWarehouseRelevant event = false →
  HandleOrderEvent event now stamp s = [(None, s)].
Proof. intros H. unfold HandleOrderEvent. by rewrite H. Qed.


(** * Further properties of the code *)

(** ** Slices, continued *)

Lemma update_first_split {A} (p : A → bool) (f : A → A) (l l' : list A) :
  update_first p f l = Some l' →
  ∃ l1 x l2, l = l1 ++ x :: l2 ∧ Forall (λ y, p y = false) l1 ∧ p x = true
             ∧ l' = l1 ++ f x :: l2.
Proof.
  revert l'. induction l as [|y l IH]; intros l'; simpl; first done.
  destruct (p y) eqn:Hp.
  - intros [= <-]. exists [], y, l. done.
  - destruct (update_first p f l) as [l0|]; simpl; [|done].
    intros [= <-]. destruct (IH _ eq_refl) as (l1 & x & l2 & -> & Hl1 & Hx & ->).
    exists (y :: l1), x, l2. split; [done|]. split; [by constructor|done].
Qed.

Lemma remove_first_split {A} (p : A → bool) (l l' : list A) :
  remove_first p l = Some l' →
  ∃ l1 x l2, l = l1 ++ x :: l2 ∧ Forall (λ y, p y = false) l1 ∧ p x = true
             ∧ l' = l1 ++ l2.
Proof.
  revert l'. induction l as [|y l IH]; intros l'; simpl; first done.
  destruct (p y) eqn:Hp.
  - intros [= <-]. exists [], y, l. done.
  - destruct (remove_first p l) as [l0|]; simpl; [|done].
    intros [= <-]. destruct (IH _ eq_refl) as (l1 & x & l2 & -> & Hl1 & Hx & ->).
    exists (y :: l1), x, l2. split; [done|]. split; [by constructor|done].
Qed.

Lemma remove_first_app_new {A} (p : A → bool) (l : list A) (y : A) :
  find_first p l = None → p y = true → remove_first p (l ++ [y]) = Some l.
Proof.
  intros Hl Hy. induction l as [|x l IH]; simpl in *.
  - by rewrite Hy.
  - destruct (p x); [done|]. by rewrite IH.
Qed.

(** ** The batch aggregate, method by method *)

Lemma HasOrder_order_ids b o : Batch.HasOrder b o = true ↔ o ∈ order_ids b.
Proof.
  unfold order_ids. rewrite list_elem_of_fmap. split.
  - intros H. apply HasOrder_find in H as [it Hit].
    apply find_first_Some in Hit as [Hin Hid]. apply has_id_true in Hid. eauto.
  - intros (it & -> & Hin). destruct (Batch.HasOrder b _) eqn:Hh; [done|].
    apply HasOrder_false in Hh. rewrite find_first_None in Hh.
    specialize (Hh _ Hin). unfold Batch.has_id in Hh.
    by rewrite bool_decide_eq_true_2 in Hh.
Qed.

Lemma AddItem_order_ids b o p q st now b' :
  Batch.AddItem b o p q st now = Ok b' →
  order_ids b' = if Batch.HasOrder b o then order_ids b else order_ids b ++ [o].
Proof.
  unfold Batch.AddItem. destruct (negb _); [done|]. destruct (_ || _); [done|].
  destruct (update_first _ _ _) as [items|] eqn:Hu; intros [= <-]; unfold order_ids; simpl.
  - apply update_first_split in Hu as (l1 & x & l2 & Hl & _ & Hx & ->).
    apply has_id_true in Hx.
    assert (Batch.HasOrder b o = true) as ->.
    { apply HasOrder_order_ids. unfold order_ids. rewrite Hl, fmap_app, fmap_cons, Hx.
      apply elem_of_app. right. apply elem_of_cons. by left. }
    by rewrite Hl, !fmap_app, !fmap_cons.
  - apply update_first_None in Hu. apply HasOrder_false in Hu. rewrite Hu.
    by rewrite fmap_app.
Qed.

Lemma RemoveItem_order_ids b o now b' :
  Batch.RemoveItem b o now = Ok b' → order_ids b' `sublist_of` order_ids b.
Proof.
  unfold Batch.RemoveItem. case_bool_decide; [done|].
  destruct (remove_first _ _) as [items|] eqn:Hr; intros [= <-]; unfold order_ids; simpl.
  apply remove_first_split in Hr as (l1 & x & l2 & -> & _ & _ & ->).
  rewrite !fmap_app, fmap_cons. apply sublist_app; [done|]. by apply sublist_cons.
Qed.

Lemma UpdateItemStatus_order_ids b o st now b' :
  Batch.UpdateItemStatus b o st now = Ok b' → order_ids b' = order_ids b.
Proof.
  unfold Batch.UpdateItemStatus.
  destruct (update_first _ _ _) as [items|] eqn:Hu; intros [= <-]; unfold order_ids; simpl.
  apply update_first_split in Hu as (l1 & x & l2 & -> & _ & _ & ->).
  by rewrite !fmap_app, !fmap_cons.
Qed.

Lemma is_transition_invoke m now :
  (∀ o p q st, m ≠ DoAddItem o p q st) → (∀ o, m ≠ DoRemoveItem o) →
  (∀ o st, m ≠ DoUpdateItemStatus o st) →
  is_transition (λ b, invoke m b now).
Proof.
  intros H1 H2 H3. destruct m; simpl.
  - by destruct (H1 orderID productID quantity status).
  - by destruct (H2 orderID).
  - by destruct (H3 orderID status).
  - apply StartProcessing_transition.
  - apply Complete_transition.
  - apply Cancel_transition.
  - apply MarkAsDamaged_transition.
Qed.

(** The status of a batch moves along pending → processing → completed,
    to cancelled from any status but completed, and to damaged from any
    status; the methods on items leave it alone.  No method changes the
    id, the product or [CreatedAt], and none brings a batch back to
    pending. *)
Theorem Batch_status_moves (m : Method) (b b' : Batch.t) (now : Time) :
  invoke m b now = Ok b' →
  (Batch.Status b' = Batch.Status b
   ∨ status_step (Batch.Status b) (Batch.Status b'))
  ∧ (Batch.Status b' = BatchStatusPending → Batch.Status b = BatchStatusPending)
  ∧ Batch.ID b' = Batch.ID b
  ∧ Batch.ProductID b' = Batch.ProductID b
  ∧ Batch.CreatedAt b' = Batch.CreatedAt b
  ∧ Batch.UpdatedAt b' = now.
Proof.
  unfold status_step. destruct m; simpl.
  - unfold Batch.AddItem. destruct (negb _); [done|]. destruct (_ || _); [done|].
    destruct (update_first _ _ _); intros [= <-]; simpl; repeat split; auto.
  - unfold Batch.RemoveItem. case_bool_decide; [done|].
    destruct (remove_first _ _); intros [= <-]; simpl; repeat split; auto.
  - unfold Batch.UpdateItemStatus.
    destruct (update_first _ _ _); intros [= <-]; simpl; repeat split; auto.
  - unfold Batch.StartProcessing. case_bool_decide as Hs; simpl; [|done].
    intros [= <-]; simpl. rewrite Hs. split; [right; left; done|done].
  - unfold Batch.Complete. case_bool_decide as Hs; simpl; [|done].
    intros [= <-]; simpl. rewrite Hs. split; [right; right; left; done|done].
  - unfold Batch.Cancel. case_bool_decide as Hs; [done|].
    intros [= <-]; simpl. split; [right; right; right; left; done|done].
  - unfold Batch.MarkAsDamaged. intros [= <-]; simpl.
    split; [right; right; right; right; done|done].
Qed.

Lemma Batch_status_moves_witness :
  invoke DoComplete (Examples.batch_with BatchStatusProcessing) 300
  = Ok (Batch.with_Status (Examples.batch_with BatchStatusProcessing)
          BatchStatusCompleted 300 (Some 300))
  ∧ status_step BatchStatusProcessing BatchStatusCompleted.
Proof.
  pose proof (Batch_status_moves DoComplete (Examples.batch_with BatchStatusProcessing)
                (Batch.with_Status (Examples.batch_with BatchStatusProcessing)
                   BatchStatusCompleted 300 (Some 300)) 300 eq_refl) as (Hs & _).
  split; [reflexivity|]. destruct Hs as [Hs|Hs]; [discriminate Hs|exact Hs].
Defined.

(** A completed batch takes no more items and gives none back, and
    cannot be started, completed or cancelled again: only
    [UpdateItemStatus] and [MarkAsDamaged] still go through.  A cancelled
    batch takes no more items and cannot be started or completed. *)
Theorem closed_batch_methods (m : Method) (b : Batch.t) (now : Time) :
  is_ok (invoke m b now) = true →
  (Batch.Status b = BatchStatusCompleted →
   (∃ o st, m = DoUpdateItemStatus o st) ∨ m = DoMarkAsDamaged)
  ∧ (Batch.Status b = BatchStatusCancelled →
     (∃ o, m = DoRemoveItem o) ∨ (∃ o st, m = DoUpdateItemStatus o st)
     ∨ m = DoCancel ∨ m = DoMarkAsDamaged).
Proof.
  intros Hok. split; intros Hs; destruct m; simpl in Hok; eauto 6; exfalso; revert Hok.
  - unfold Batch.AddItem. rewrite Hs. destruct (negb _); [done|]. done.
  - unfold Batch.RemoveItem. by rewrite Hs.
  - unfold Batch.StartProcessing. by rewrite Hs.
  - unfold Batch.Complete. by rewrite Hs.
  - unfold Batch.Cancel. by rewrite Hs.
  - unfold Batch.AddItem. rewrite Hs. destruct (negb _); [done|]. done.
  - unfold Batch.StartProcessing. by rewrite Hs.
  - unfold Batch.Complete. by rewrite Hs.
Qed.

Lemma closed_batch_methods_witness :
  (BatchStatusCompleted = BatchStatusCompleted →
   (∃ o st, DoMarkAsDamaged = DoUpdateItemStatus o st) ∨ DoMarkAsDamaged = DoMarkAsDamaged)
  ∧ (BatchStatusCompleted = BatchStatusCancelled →
     (∃ o, DoMarkAsDamaged = DoRemoveItem o)
     ∨ (∃ o st, DoMarkAsDamaged = DoUpdateItemStatus o st)
     ∨ DoMarkAsDamaged = DoCancel ∨ DoMarkAsDamaged = DoMarkAsDamaged).
Proof.
  apply (closed_batch_methods DoMarkAsDamaged (Examples.batch_with BatchStatusCompleted) 300).
  reflexivity.
Defined.

Lemma AddItem_RemoveItem_inverse (b b1 : Batch.t) (o p : string) (q : Z) (st : string)
    (t1 t2 : Time) :
  Batch.HasOrder b o = false →
  Batch.AddItem b o p q st t1 = Ok b1 →
  Batch.Items b1 = Batch.Items b ++ [BatchItem.mk o p q st t1 None]
  ∧ Batch.TotalItems b1 = Z.of_nat (S (length (Batch.Items b)))
  ∧ Batch.RemoveItem b1 o t2
    = Ok (Batch.with_Items b (Batch.Items b) (Z.of_nat (length (Batch.Items b))) t2).
Proof.
  intros Hno. apply HasOrder_false in Hno.
  unfold Batch.AddItem. destruct (negb _); [done|].
  destruct (_ || _) eqn:Hst; [done|].
  destruct (update_first _ _ _) eqn:Hu.
  { apply update_first_split in Hu as (l1 & x & l2 & Hl & _ & Hx & _).
    rewrite find_first_None in Hno. rewrite Hno in Hx; [done|].
    rewrite Hl. apply elem_of_app. right. apply elem_of_cons. by left. }
  intros [= <-]. simpl. split; [done|]. split.
  { by rewrite length_app, Nat.add_1_r. }
  unfold Batch.RemoveItem. simpl.
  apply orb_false_iff in Hst as [Hc _]. rewrite Hc.
  rewrite remove_first_app_new; [done|done|].
  unfold Batch.has_id. simpl. by apply bool_decide_eq_true_2.
Qed.

(** Adding an order the batch does not hold and removing it again gives
    back the items as they were, in their order, with [TotalItems] their
    number; status, id, product and [CreatedAt] are untouched. *)
Theorem AddItem_then_RemoveItem (b b1 : Batch.t) (o p : string) (q : Z) (st : string)
    (t1 t2 : Time) :
  Batch.HasOrder b o = false →
  Batch.AddItem b o p q st t1 = Ok b1 →
  Batch.Items b1 = Batch.Items b ++ [BatchItem.mk o p q st t1 None]
  ∧ Batch.TotalItems b1 = Z.of_nat (S (length (Batch.Items b)))
  ∧ Batch.RemoveItem b1 o t2
    = Ok (Batch.with_Items b (Batch.Items b) (Z.of_nat (length (Batch.Items b))) t2).
Proof. intros Hno Hadd. by apply (AddItem_RemoveItem_inverse b b1 o p q st t1 t2). Qed.

Lemma AddItem_then_RemoveItem_witness :
  Batch.Items Examples.second_item_added
  = Batch.Items (Examples.batch_with BatchStatusPending)
    ++ [BatchItem.mk "order-2" "p1" 3 "allocated" 150 None]
  ∧ Batch.TotalItems Examples.second_item_added = 2
  ∧ Batch.RemoveItem Examples.second_item_added "order-2" 160
    = Ok (Batch.mk "BATCH-p1-20250101000000" "p1" BatchStatusPending [Examples.item1]
            1 100 160 None).
Proof.
  apply (AddItem_then_RemoveItem (Examples.batch_with BatchStatusPending)
           Examples.second_item_added "order-2" "p1" 3 "allocated" 150 160);
    reflexivity.
Defined.

(** [UpdateItemStatus] fails exactly when the batch does not hold the
    order, whatever the status of the batch.  Otherwise it rewrites the
    first item of the order and nothing else: the item gets the status,
    and [ProcessedAt] when the status is processed, shipped or delivered;
    the other items, the number of items and the status of the batch stay
    as they are. *)
Theorem UpdateItemStatus_touches_one_item (b : Batch.t) (o st : string) (now : Time) :
  match Batch.UpdateItemStatus b o st now with
  | Err e => e = ErrOrderNotInBatch o ∧ Batch.HasOrder b o = false
  | Ok b' =>
      ∃ before it after,
        Batch.Items b = before ++ it :: after
        ∧ (o ∉ BatchItem.OrderID <$> before)
        ∧ BatchItem.OrderID it = o
        ∧ b' = Batch.mk (Batch.ID b) (Batch.ProductID b) (Batch.Status b)
                 (before
                  ++ BatchItem.mk o (BatchItem.ProductID it) (BatchItem.Quantity it) st
                       (BatchItem.AddedAt it)
                       (if decide (st = "processed" ∨ st = "shipped" ∨ st = "delivered")
                        then Some now else BatchItem.ProcessedAt it)
                     :: after)
                 (Batch.TotalItems b) (Batch.CreatedAt b) now (Batch.ProcessedAt b)
  end.
Proof.
  unfold Batch.UpdateItemStatus.
  destruct (update_first _ _ _) as [items|] eqn:Hu.
  - apply update_first_split in Hu as (l1 & x & l2 & Hl & Hl1 & Hx & ->).
    apply has_id_true in Hx. exists l1, x, l2. split; [done|]. split.
    { rewrite list_elem_of_fmap. intros (y & Hy & Hin).
      rewrite Forall_forall in Hl1. specialize (Hl1 _ Hin).
      unfold Batch.has_id in Hl1. by rewrite bool_decide_eq_true_2 in Hl1. }
    split; [done|]. unfold Batch.with_Items. rewrite Hx. do 5 f_equal.
    unfold Batch.sets_ProcessedAt.
    destruct (decide _) as [[->| [->| ->]]|Hn]; [done..|].
    rewrite !bool_decide_eq_false_2; [done|tauto..].
  - split; [done|]. apply HasOrder_false. by apply update_first_None in Hu.
Qed.

(** ** One item per order in a batch *)

Lemma AddItem_NoDup b o p q st now b' :
  Batch.AddItem b o p q st now = Ok b' → NoDup (order_ids b) → NoDup (order_ids b').
Proof.
  intros Hadd Hnd. rewrite (AddItem_order_ids _ _ _ _ _ _ _ Hadd).
  destruct (Batch.HasOrder b o) eqn:Hh; [done|].
  apply NoDup_app. split; [done|]. split; [|apply NoDup_singleton].
  intros x Hx Hx'. apply list_elem_of_singleton in Hx' as ->.
  apply HasOrder_order_ids in Hx. congruence.
Qed.

Section OneItemPerOrder.
Context {P : Type} `{!BatchEventPublisher P}.

Lemma call_keeps_one_item_per_order c now stamp (s s' : State P) :
  (∀ id b, batches s !! id = Some b → NoDup (order_ids b)) →
  s' ∈ call c now stamp s →
  ∀ id b, batches s' !! id = Some b → NoDup (order_ids b).
Proof.
  intros Hinv. destruct c; simpl; rewrite list_elem_of_fmap;
    intros ([r s1] & -> & H); simpl.
  - apply AddOrderToBatch_run in H as (batch & b' & Hsel & Hadd & _ & ->).
    intros id b. rewrite lookup_insert_Some. intros [[_ <-]|[_ ?]]; [|by eauto].
    eapply AddItem_NoDup; [exact Hadd|].
    destruct Hsel as [(k & Hl & _)|[-> _]]; [by eauto|]. apply NoDup_nil_2.
  - apply RemoveOrderFromBatch_run in H
      as [(_ & -> & _)|(k & batch & Hl & _ & [(_ & _ & ->)|(b' & _ & Hr & H)])];
      [done..|].
    assert (NoDup (order_ids b')) as Hb'.
    { eapply sublist_NoDup; [|apply (RemoveItem_order_ids _ _ _ _ Hr)]. eauto. }
    destruct (Batch.IsEmpty b').
    + destruct (batches s !! Batch.ID b'); destruct H as [_ ->]; [|done].
      intros id b. rewrite lookup_delete_Some. intros [_ ?]. eauto.
    + destruct H as [_ ->]. intros id b. rewrite lookup_insert_Some.
      intros [[_ <-]|[_ ?]]; eauto.
  - apply UpdateOrderStatus_run in H
      as [(_ & -> & _)|(k & batch & b' & Hl & _ & Hu & _ & ->)]; [done|].
    intros id b. rewrite lookup_insert_Some. intros [[_ <-]|[_ ?]]; [|by eauto].
    rewrite (UpdateItemStatus_order_ids _ _ _ _ _ Hu). eauto.
  - apply transition_run in H
      as [(_ & _ & ->)|(batch & Hl & [(e & _ & _ & ->)|(b' & Hs & _ & ->)])]; [done..|].
    apply StartProcessing_transition in Hs as (_ & _ & Hitems & _).
    intros id b. rewrite lookup_insert_Some. intros [[_ <-]|[_ ?]]; [|by eauto].
    unfold order_ids. rewrite Hitems. apply (Hinv _ _ Hl).
  - apply transition_run in H
      as [(_ & _ & ->)|(batch & Hl & [(e & _ & _ & ->)|(b' & Hs & _ & ->)])]; [done..|].
    apply Complete_transition in Hs as (_ & _ & Hitems & _).
    intros id b. rewrite lookup_insert_Some. intros [[_ <-]|[_ ?]]; [|by eauto].
    unfold order_ids. rewrite Hitems. apply (Hinv _ _ Hl).
  - apply transition_run in H
      as [(_ & _ & ->)|(batch & Hl & [(e & _ & _ & ->)|(b' & Hs & _ & ->)])]; [done..|].
    apply Cancel_transition in Hs as (_ & _ & Hitems & _).
    intros id b. rewrite lookup_insert_Some. intros [[_ <-]|[_ ?]]; [|by eauto].
    unfold order_ids. rewrite Hitems. apply (Hinv _ _ Hl).
  - apply transition_run in H
      as [(_ & _ & ->)|(batch & Hl & [(e & _ & _ & ->)|(b' & Hs & _ & ->)])]; [done..|].
    apply MarkAsDamaged_transition in Hs as (_ & _ & Hitems & _).
    intros id b. rewrite lookup_insert_Some. intros [[_ <-]|[_ ?]]; [|by eauto].
    unfold order_ids. rewrite Hitems. apply (Hinv _ _ Hl).
Qed.
End OneItemPerOrder.

(** In every state the calls of the batch service reach, no batch holds
    two items of one order: [AddItem] looks the order up before it
    appends, and the other methods add no item. *)
Theorem one_item_per_order {P : Type} `{!BatchEventPublisher P} (s : State P)
    (id : string) (b : Batch.t) :
  reachable s → batches s !! id = Some b → NoDup (order_ids b).
Proof.
  intros Hr. revert id b.
  induction Hr as [p|s c now stamp s' _ IH Hstep].
  - intros id b H. simpl in H. by rewrite lookup_empty in H.
  - eauto using call_keeps_one_item_per_order.
Qed.

Lemma one_item_per_order_witness :
  NoDup (order_ids (Examples.batch_with BatchStatusPending)).
Proof.
  apply (one_item_per_order Examples.after_first_add "BATCH-p1-20250101000000").
  - apply reachable_after_first_add.
  - vm_compute. reflexivity.
Defined.

(** ** The batch service: results, repository and events together *)

Section FullRuns.
Context {P : Type} `{!BatchEventPublisher P}.
Implicit Types (s : State P) (b batch : Batch.t).

Lemma GetItemByOrderID_HasOrder b o :
  Batch.HasOrder b o = true → ∃ item, Batch.GetItemByOrderID b o = Ok item.
Proof.
  unfold Batch.HasOrder. destruct (Batch.GetItemByOrderID b o); [eauto|done].
Qed.

Lemma AddOrderToBatch_full o p q st now stamp s r s' :
  (r, s') ∈ AddOrderToBatch o p q st now stamp s →
  ∃ batch b' item created,
    ((∃ id, batches s !! id = Some batch
            ∧ Batch.ProductID batch = p ∧ Batch.Status batch = BatchStatusPending)
       ∧ created = []
     ∨ (batch = Batch.NewBatch (generateBatchID p stamp) p now
        ∧ ∀ id b, batches s !! id = Some b →
                  ¬ (Batch.ProductID b = p ∧ Batch.Status b = BatchStatusPending))
       ∧ created = [NewBatchCreatedEvent b' now])
    ∧ Batch.AddItem batch o p q st now = Ok b'
    ∧ Batch.GetItemByOrderID b' o = Ok item
    ∧ r = Ok b'
    ∧ s' = mkState (<[Batch.ID b' := b']> (batches s))
             (published (created ++ [NewBatchItemAddedEvent b' o item now])
                (eventPublisher s)).
Proof.
  unfold AddOrderToBatch. intros H. apply run_bind in H as (found & s1 & Hf & H).
  apply FindPendingBatchForProduct_run in Hf as [-> Hf].
  destruct Hf as [[-> Hn]|(id & b & -> & Hl & Hp & Hst)].
  - destruct (AddItem_succeeds (Batch.NewBatch (generateBatchID p stamp) p now) o q st now)
      as [b' Hadd]; [done..|].
    simpl in Hadd. rewrite Hadd in H.
    destruct (GetItemByOrderID_HasOrder b' o) as [item Hitem];
      [by eapply AddItem_HasOrder|].
    rewrite Hitem in H. svc_inv.
    exists (Batch.NewBatch (generateBatchID p stamp) p now), b', item,
      [NewBatchCreatedEvent b' now].
    split; [right; done|]. done.
  - destruct (AddItem_succeeds b o q st now) as [b' Hadd]; [by rewrite Hst..|].
    rewrite Hp in Hadd. rewrite Hadd in H.
    destruct (GetItemByOrderID_HasOrder b' o) as [item Hitem];
      [by eapply AddItem_HasOrder|].
    rewrite Hitem in H. svc_inv.
    exists b, b', item, []. split; [left; eauto|]. done.
Qed.

Lemma FindPendingBatchForProduct_has_run p s : ∃ y, y ∈ FindPendingBatchForProduct p s.
Proof.
  destruct (BatchMemoryRepository.FindPendingBatchForProduct (batches s) p) as [|x l] eqn:Hl.
  - exfalso. revert Hl.
    unfold BatchMemoryRepository.FindPendingBatchForProduct, BatchMemoryRepository.range_find.
    by destruct (filter _ _).
  - exists (x, s). unfold FindPendingBatchForProduct. apply run_bind.
    exists (batches s), s. split; [by apply run_gets|].
    apply run_choose. exists x. split; [done|]. rewrite Hl. apply elem_of_cons. by left.
Qed.

Lemma has_run_bind {A B} (m : M (State P) A) (f : A → M (State P) B) s a s1 :
  (a, s1) ∈ m s → (∃ y, y ∈ f a s1) → ∃ y, y ∈ (m ≫= f) s.
Proof. intros Hm [y Hy]. exists y. apply run_bind. eauto. Qed.

Lemma has_run_ret {A} (a : A) s : ∃ y, y ∈ ret a s.
Proof. eexists. by apply run_ret. Qed.

Lemma Save_has_run b s :
  (tt, mkState (<[Batch.ID b := b]> (batches s)) (eventPublisher s)) ∈ Save b s.
Proof. by apply Save_run. Qed.

Lemma publish_has_run ev s :
  (tt, mkState (batches s) (PublishBatchEvent ev (eventPublisher s)).2) ∈ publish ev s.
Proof. by apply publish_run. Qed.

Lemma AddOrderToBatch_has_run o p q st now stamp s :
  ∃ y, y ∈ AddOrderToBatch o p q st now stamp s.
Proof.
  destruct (FindPendingBatchForProduct_has_run p s) as [[found s1] Hf].
  pose proof Hf as Hf'. apply FindPendingBatchForProduct_run in Hf' as [-> Hsel].
  set (batch := match found with
                | Ok batch => batch
                | Err _ => Batch.NewBatch (generateBatchID p stamp) p now
                end).
  assert (Hpend : Batch.ProductID batch = p ∧ Batch.Status batch = BatchStatusPending).
  { subst batch. destruct Hsel as [[-> _]|(id & b & -> & _ & ? & ?)]; done. }
  destruct Hpend as [Hp Hst].
  destruct (AddItem_succeeds batch o q st now) as [b' Hadd]; [by rewrite Hst..|].
  rewrite Hp in Hadd.
  destruct (GetItemByOrderID_HasOrder b' o) as [item Hitem]; [by eapply AddItem_HasOrder|].
  unfold AddOrderToBatch. eapply has_run_bind; [exact Hf|].
  assert (Hgoal : ∀ isNew, ∃ y, y ∈
    (match Batch.AddItem batch o p q st now with
     | Err e => ret (Err (Wrap "failed to add order to batch" e))
     | Ok batch0 =>
         Save batch0;;
         (if isNew : bool then publish (NewBatchCreatedEvent batch0 now) else ret tt);;
         match Batch.GetItemByOrderID batch0 o with
         | Err _ => ret tt
         | Ok item => publish (NewBatchItemAddedEvent batch0 o item now)
         end;;
         ret (Ok batch0)
     end) s).
  { intros isNew. rewrite Hadd, Hitem.
    eapply has_run_bind; [apply Save_has_run|].
    destruct isNew.
    - eapply has_run_bind; [apply publish_has_run|].
      eapply has_run_bind; [apply publish_has_run|]. apply has_run_ret.
    - eapply has_run_bind; [by apply run_ret|].
      eapply has_run_bind; [apply publish_has_run|]. apply has_run_ret. }
  subst batch. destruct found; [exact (Hgoal false)|exact (Hgoal true)].
Qed.
Lemma UpdateOrderStatus_full o st now s r s' :
  (r, s') ∈ UpdateOrderStatus o st now s →
  (r = Some (Wrap "failed to find batch for order" (ErrNoBatchContainingOrder o))
   ∧ s' = s
   ∧ ∀ id b, batches s !! id = Some b → Batch.HasOrder b o = false)
  ∨ ∃ id batch b' item,
      batches s !! id = Some batch ∧ Batch.HasOrder batch o = true
      ∧ Batch.UpdateItemStatus batch o st now = Ok b'
      ∧ Batch.GetItemByOrderID b' o = Ok item
      ∧ r = None
      ∧ s' = mkState (<[Batch.ID b' := b']> (batches s))
               (published [NewBatchItemUpdatedEvent b' o item now] (eventPublisher s)).
Proof.
  unfold UpdateOrderStatus. intros H. svc_inv.
  destruct Hrun as [[-> Hn]|(id & batch & -> & Hl & Ho)].
  - svc_inv. left. done.
  - right. exists id, batch.
    destruct (Batch.UpdateItemStatus batch o st now) as [b'|e] eqn:Hu.
    + destruct (GetItemByOrderID_HasOrder b' o) as [item Hitem].
      { eapply item_status_HasOrder, UpdateItemStatus_item_status, Hu. }
      exists b', item. rewrite Hitem in H. svc_inv. done.
    + exfalso. unfold Batch.UpdateItemStatus in Hu.
      destruct (update_first _ _ _) eqn:Hup; [done|].
      apply update_first_None in Hup. apply HasOrder_find in Ho as [it Hit].
      congruence.
Qed.

Lemma RemoveOrderFromBatch_full o now s r s' :
  (r, s') ∈ RemoveOrderFromBatch o now s →
  (r = Some (Wrap "failed to find batch for order" (ErrNoBatchContainingOrder o))
   ∧ s' = s
   ∧ ∀ id b, batches s !! id = Some b → Batch.HasOrder b o = false)
  ∨ ∃ id batch,
      batches s !! id = Some batch ∧ Batch.HasOrder batch o = true
      ∧ ((Batch.Status batch = BatchStatusCompleted
          ∧ r = Some (Wrap "failed to remove order from batch" ErrCannotRemoveFromCompleted)
          ∧ s' = s)
         ∨ ∃ b', Batch.Status batch ≠ BatchStatusCompleted
                 ∧ Batch.RemoveItem batch o now = Ok b'
                 ∧ eventPublisher s'
                   = published [NewBatchItemRemovedEvent b' o now] (eventPublisher s)
                 ∧ if Batch.IsEmpty b' then
                     match batches s !! Batch.ID b' with
                     | Some _ => r = None ∧ batches s' = delete (Batch.ID b') (batches s)
                     | None => is_Some r ∧ batches s' = batches s
                     end
                   else r = None ∧ batches s' = <[Batch.ID b' := b']> (batches s)).
Proof.
  unfold RemoveOrderFromBatch. intros H. svc_inv.
  destruct Hrun as [[-> Hn]|(id & batch & -> & Hl & Ho)].
  - svc_inv. left. done.
  - right. exists id, batch. do 2 (split; [done|]).
    destruct (Batch.RemoveItem batch o now) as [b'|e] eqn:Hr.
    + right. exists b'. split.
      { intros Hc. unfold Batch.RemoveItem in Hr.
        by rewrite bool_decide_eq_true_2 in Hr. }
      split; [done|]. svc_inv.
      destruct (Batch.IsEmpty b').
      * svc_inv. unfold Delete, BatchMemoryRepository.Delete in Hrun. simpl in Hrun.
        destruct (batches s !! Batch.ID b') eqn:Hk.
        -- apply list_elem_of_singleton in Hrun. simplify_eq. by svc_inv.
        -- apply list_elem_of_singleton in Hrun. simplify_eq. svc_inv. eauto.
      * by svc_inv.
    + left. unfold Batch.RemoveItem in Hr. case_bool_decide as Hc.
      * simplify_eq. by svc_inv.
      * exfalso. destruct (remove_first _ _) eqn:Hrm; [done|].
        apply remove_first_None in Hrm. apply HasOrder_find in Ho as [it Hit].
        congruence.
Qed.

Lemma transition_full id step ctx ev s r s' :
  (r, s') ∈ transition id step ctx ev s →
  (batches s !! id = None ∧ is_Some r ∧ s' = s)
  ∨ ∃ batch, batches s !! id = Some batch
      ∧ ((∃ e, step batch = Err e ∧ r = Some (Wrap ctx e) ∧ s' = s)
         ∨ ∃ b', step batch = Ok b' ∧ r = None
                 ∧ s' = mkState (<[Batch.ID b' := b']> (batches s))
                          (published [ev b'] (eventPublisher s))).
Proof.
  unfold transition, FindByID, BatchMemoryRepository.FindByID. intros H.
  apply run_bind in H as (found & s1 & Hf & H). apply run_gets in Hf.
  injection Hf as -> ->.
  destruct (batches s !! id) as [batch|] eqn:Hl.
  - right. exists batch. split; [done|].
    destruct (step batch) as [b'|e] eqn:Hs; svc_inv; eauto.
  - left. svc_inv. eauto.
Qed.
End FullRuns.

Lemma find_first_app_skip {A} (p : A → bool) (l1 l2 : list A) :
  Forall (λ y, p y = false) l1 → find_first p (l1 ++ l2) = find_first p l2.
Proof.
  induction 1 as [|y l1 Hy _ IH]; simpl; [done|]. by rewrite Hy.
Qed.

Lemma AddItem_item_fields b o p q st now b' :
  Batch.AddItem b o p q st now = Ok b' →
  ∃ it, Batch.GetItemByOrderID b' o = Ok it
        ∧ BatchItem.OrderID it = o
        ∧ BatchItem.Quantity it = q ∧ BatchItem.Status it = st
        ∧ BatchItem.AddedAt it = now.
Proof.
  unfold Batch.AddItem, Batch.GetItemByOrderID.
  destruct (negb _); [done|]. destruct (_ || _); [done|].
  destruct (update_first _ _ _) as [items|] eqn:Hu; intros [= <-]; simpl.
  - apply update_first_split in Hu as (l1 & x & l2 & _ & Hl1 & Hx & ->).
    rewrite find_first_app_skip by done. simpl.
    unfold Batch.has_id at 1. simpl. apply has_id_true in Hx.
    rewrite bool_decide_eq_true_2 by done. eexists. split; [reflexivity|]. done.
  - apply update_first_None in Hu. rewrite find_first_None in Hu.
    rewrite find_first_app_skip.
    + simpl. unfold Batch.has_id. simpl. rewrite bool_decide_eq_true_2 by done.
      eexists. split; [reflexivity|]. done.
    + by apply Forall_forall.
Qed.

(** [AddOrderToBatch] cannot fail, in any state of the repository: the
    batch it picks is pending and of the product, so [AddItem] accepts the
    item.  It answers with a pending batch of the product that holds the
    order with the quantity and status given, stamped with the time of the
    call, and stores that batch under its id, touching no other entry. *)
Theorem AddOrderToBatch_never_fails {P : Type} `{!BatchEventPublisher P} (s : State P)
    (o p : string) (q : Z) (st : string) (now : Time) (stamp : string) :
  (∃ run, run ∈ AddOrderToBatch o p q st now stamp s)
  ∧ ∀ r s', (r, s') ∈ AddOrderToBatch o p q st now stamp s →
      ∃ b item,
        r = Ok b
        ∧ Batch.ProductID b = p ∧ Batch.Status b = BatchStatusPending
        ∧ Batch.UpdatedAt b = now
        ∧ Batch.GetItemByOrderID b o = Ok item
        ∧ BatchItem.Quantity item = q ∧ BatchItem.Status item = st
        ∧ BatchItem.AddedAt item = now
        ∧ batches s' = <[Batch.ID b := b]> (batches s).
Proof.
  split; [apply AddOrderToBatch_has_run|].
  intros r s' H.
  apply AddOrderToBatch_full in H as (batch & b' & item & created & Hsel & Hadd & Hitem & -> & ->).
  destruct (AddItem_item_fields _ _ _ _ _ _ _ Hadd) as (it & Hit & _ & Hq & Hst & Hat).
  assert (it = item) as -> by congruence.
  destruct (AddItem_Ok _ _ _ _ _ _ _ Hadd) as (_ & Hp & Hs & Hbp).
  exists b', item. split; [done|]. split; [congruence|]. split.
  { rewrite Hs. destruct Hsel as [[(id & _ & _ & ?) _]|[[-> _] _]]; done. }
  split.
  { revert Hadd. unfold Batch.AddItem. destruct (negb _); [done|].
    destruct (_ || _); [done|]. destruct (update_first _ _ _); by intros [= <-]. }
  done.
Qed.

(** In a reachable state the order in which Go walks the map does not
    matter to [AddOrderToBatch]: a product has at most one pending batch,
    so the call has one outcome, result, repository and publisher. *)
Theorem AddOrderToBatch_one_outcome {P : Type} `{!BatchEventPublisher P} (s : State P)
    (o p : string) (q : Z) (st : string) (now : Time) (stamp : string) :
  reachable s →
  ∃ b s', ∀ run, run ∈ AddOrderToBatch o p q st now stamp s ↔ run = (Ok b, s').
Proof.
  intros Hr. apply reachable_repository_invariant in Hr as (Hk & _ & Hone).
  destruct (AddOrderToBatch_has_run o p q st now stamp s) as [[r0 s0] H0].
  pose proof H0 as H0'.
  apply AddOrderToBatch_full in H0'
    as (batch0 & b0 & item0 & created0 & Hsel0 & Hadd0 & Hitem0 & -> & ->).
  eexists _, _. intros [r s']. split; [|by intros ->].
  intros H.
  apply AddOrderToBatch_full in H
    as (batch & b & item & created & Hsel & Hadd & Hitem & -> & ->).
  assert (batch = batch0) as ->.
  { destruct Hsel as [[(id & Hl & Hp & Hs) _]|[[-> Hn] _]],
      Hsel0 as [[(id0 & Hl0 & Hp0 & Hs0) _]|[[-> Hn0] _]]; [| | |done].
    - assert (id = id0) as -> by (apply (Hone id id0 batch batch0); congruence).
      congruence.
    - destruct (Hn0 _ _ Hl). done.
    - destruct (Hn _ _ Hl0). done. }
  assert (b = b0) as -> by congruence.
  assert (item = item0) as -> by congruence.
  assert (created = created0) as ->.
  { destruct Hsel as [[(id & Hl & Hp & Hs) ->]|[[-> Hn] ->]],
      Hsel0 as [[(id0 & Hl0 & Hp0 & Hs0) ->]|[[Hb Hn0] ->]]; [done| | |done].
    - destruct (Hn0 _ _ Hl). done.
    - destruct (Hn _ _ Hl0). done. }
  done.
Qed.

Lemma AddOrderToBatch_one_outcome_witness :
  ∃ b s', ∀ run,
    run ∈ AddOrderToBatch "order-2" "p1" 3 "allocated" 150 "20250101000000"
            Examples.after_first_add
    ↔ run = (Ok b, s').
Proof.
  apply AddOrderToBatch_one_outcome. apply reachable_after_first_add.
Defined.

(** In a reachable state a call of the batch service that answers with an
    error has changed nothing: the repository and the publisher are as
    they were, and no event went out. *)
Theorem failed_call_changes_nothing {P : Type} `{!BatchEventPublisher P}
    (s s' : State P) (e : error) (now : Time) :
  reachable s →
  (∀ o, (Some e, s') ∈ RemoveOrderFromBatch o now s → s' = s)
  ∧ (∀ o st, (Some e, s') ∈ UpdateOrderStatus o st now s → s' = s)
  ∧ (∀ id, (Some e, s') ∈ ProcessBatch id now s → s' = s)
  ∧ (∀ id, (Some e, s') ∈ CompleteBatch id now s → s' = s)
  ∧ (∀ id, (Some e, s') ∈ CancelBatch id now s → s' = s)
  ∧ (∀ id, (Some e, s') ∈ MarkBatchAsDamaged id now s → s' = s).
Proof.
  intros Hr. apply reachable_repository_invariant in Hr as (Hk & _ & _).
  assert (Ht : ∀ id step ctx ev, (Some e, s') ∈ transition id step ctx ev s → s' = s).
  { intros id step ctx ev H.
    apply transition_full in H
      as [(_ & _ & ->)|(batch & Hl & [(e' & _ & _ & ->)|(b' & _ & [=] & _)])]; done. }
  split; [|split; [|repeat split; intros id; apply Ht]].
  - intros o H.
    apply RemoveOrderFromBatch_full in H
      as [(_ & -> & _)|(id & batch & Hl & _ & [(_ & _ & ->)|(b' & _ & Hrm & _ & H)])];
      [done..|].
    destruct (RemoveItem_Ok _ _ _ _ Hrm) as (Hid & _).
    rewrite Hid, (Hk _ _ Hl), Hl in H.
    destruct (Batch.IsEmpty b'); by destruct H as [[=] _].
  - intros o st H.
    apply UpdateOrderStatus_full in H
      as [(_ & -> & _)|(id & batch & b' & item & _ & _ & _ & _ & [=] & _)]; done.
Qed.

Lemma failed_call_changes_nothing_witness :
  (Some (Wrap "failed to complete batch" (ErrCannotComplete BatchStatusPending)),
   Examples.after_first_add)
    ∈ CompleteBatch "BATCH-p1-20250101000000" 150 Examples.after_first_add
  ∧ ((∀ o, (Some (Wrap "failed to complete batch" (ErrCannotComplete BatchStatusPending)),
            Examples.after_first_add)
             ∈ RemoveOrderFromBatch o 150 Examples.after_first_add →
           Examples.after_first_add = Examples.after_first_add)
     ∧ (∀ o st, (Some (Wrap "failed to complete batch" (ErrCannotComplete BatchStatusPending)),
                 Examples.after_first_add)
                  ∈ UpdateOrderStatus o st 150 Examples.after_first_add →
                Examples.after_first_add = Examples.after_first_add)
     ∧ (∀ id, (Some (Wrap "failed to complete batch" (ErrCannotComplete BatchStatusPending)),
               Examples.after_first_add)
                ∈ ProcessBatch id 150 Examples.after_first_add →
              Examples.after_first_add = Examples.after_first_add)
     ∧ (∀ id, (Some (Wrap "failed to complete batch" (ErrCannotComplete BatchStatusPending)),
               Examples.after_first_add)
                ∈ CompleteBatch id 150 Examples.after_first_add →
              Examples.after_first_add = Examples.after_first_add)
     ∧ (∀ id, (Some (Wrap "failed to complete batch" (ErrCannotComplete BatchStatusPending)),
               Examples.after_first_add)
                ∈ CancelBatch id 150 Examples.after_first_add →
              Examples.after_first_add = Examples.after_first_add)
     ∧ (∀ id, (Some (Wrap "failed to complete batch" (ErrCannotComplete BatchStatusPending)),
               Examples.after_first_add)
                ∈ MarkBatchAsDamaged id 150 Examples.after_first_add →
              Examples.after_first_add = Examples.after_first_add)).
Proof.
  split.
  - vm_compute. left.
  - apply failed_call_changes_nothing. apply reachable_after_first_add.
Defined.

(** The events of [AddOrderToBatch]: [batch.item_added] for the order,
    after [batch.created] when the product had no pending batch and the
    batch is new.  Both carry the batch as it was stored, and the item
    event the item as it is in that batch. *)
Theorem AddOrderToBatch_events {P : Type} `{!BatchEventPublisher P} (s s' : State P)
    (o p : string) (q : Z) (st : string) (now : Time) (stamp : string) (b : Batch.t) :
  (Ok b, s') ∈ AddOrderToBatch o p q st now stamp s →
  ∃ item,
    Batch.GetItemByOrderID b o = Ok item
    ∧ batches s' !! Batch.ID b = Some b
    ∧ (((∃ id old, batches s !! id = Some old ∧ Batch.ProductID old = p
                   ∧ Batch.Status old = BatchStatusPending)
        ∧ eventPublisher s'
          = published [NewBatchItemAddedEvent b o item now] (eventPublisher s))
       ∨ ((∀ id old, batches s !! id = Some old →
                     ¬ (Batch.ProductID old = p ∧ Batch.Status old = BatchStatusPending))
          ∧ Batch.ID b = generateBatchID p stamp
          ∧ eventPublisher s'
            = published [NewBatchCreatedEvent b now; NewBatchItemAddedEvent b o item now]
                (eventPublisher s))).
Proof.
  intros H.
  apply AddOrderToBatch_full in H
    as (batch & b' & item & created & Hsel & Hadd & Hitem & [= <-] & ->).
  exists item. split; [done|]. split; [apply lookup_insert_eq|].
  destruct Hsel as [[(id & Hl & Hp & Hs) ->]|[[-> Hn] ->]].
  - left. split; [eauto 6|done].
  - right. split; [done|]. split; [|done].
    by destruct (AddItem_Ok _ _ _ _ _ _ _ Hadd) as (-> & _).
Qed.

Lemma AddOrderToBatch_events_witness :
  ∃ item,
    Batch.GetItemByOrderID (Examples.batch_with BatchStatusPending) "order-1" = Ok item
    ∧ batches Examples.after_first_add !! Batch.ID (Examples.batch_with BatchStatusPending)
      = Some (Examples.batch_with BatchStatusPending)
    ∧ (((∃ id old, batches Examples.mock0 !! id = Some old ∧ Batch.ProductID old = "p1"
                   ∧ Batch.Status old = BatchStatusPending)
        ∧ eventPublisher Examples.after_first_add
          = published
              [NewBatchItemAddedEvent (Examples.batch_with BatchStatusPending) "order-1"
                 item 100]
              (eventPublisher Examples.mock0))
       ∨ ((∀ id old, batches Examples.mock0 !! id = Some old →
                     ¬ (Batch.ProductID old = "p1" ∧ Batch.Status old = BatchStatusPending))
          ∧ Batch.ID (Examples.batch_with BatchStatusPending)
            = generateBatchID "p1" "20250101000000"
          ∧ eventPublisher Examples.after_first_add
            = published
                [NewBatchCreatedEvent (Examples.batch_with BatchStatusPending) 100;
                 NewBatchItemAddedEvent (Examples.batch_with BatchStatusPending) "order-1"
                   item 100]
                (eventPublisher Examples.mock0))).
Proof.
  apply (AddOrderToBatch_events Examples.mock0 Examples.after_first_add "order-1" "p1" 5
           "allocated" 100 "20250101000000").
  vm_compute. left.
Defined.

(** The events of the other calls of the service, in a reachable state:
    a call that succeeds publishes one event, of the type of the call,
    carrying the batch as the call left it (for [RemoveOrderFromBatch],
    the batch without the item, also when the batch is then deleted). *)
Theorem successful_call_events {P : Type} `{!BatchEventPublisher P}
    (s s' : State P) (now : Time) :
  reachable s →
  (∀ o st, (None, s') ∈ UpdateOrderStatus o st now s →
     ∃ b item, batches s' !! Batch.ID b = Some b
       ∧ Batch.GetItemByOrderID b o = Ok item ∧ BatchItem.Status item = st
       ∧ eventPublisher s'
         = published [NewBatchItemUpdatedEvent b o item now] (eventPublisher s))
  ∧ (∀ o, (None, s') ∈ RemoveOrderFromBatch o now s →
     ∃ id old b, batches s !! id = Some old ∧ Batch.RemoveItem old o now = Ok b
       ∧ batches s' !! id = (if Batch.IsEmpty b then None else Some b)
       ∧ eventPublisher s'
         = published [NewBatchItemRemovedEvent b o now] (eventPublisher s))
  ∧ (∀ id, (None, s') ∈ ProcessBatch id now s →
     ∃ old b, batches s !! id = Some old ∧ Batch.StartProcessing old now = Ok b
       ∧ batches s' !! id = Some b
       ∧ eventPublisher s'
         = published [NewBatchProcessingStartedEvent b now] (eventPublisher s))
  ∧ (∀ id, (None, s') ∈ CompleteBatch id now s →
     ∃ old b, batches s !! id = Some old ∧ Batch.Complete old now = Ok b
       ∧ batches s' !! id = Some b
       ∧ eventPublisher s' = published [NewBatchCompletedEvent b now] (eventPublisher s))
  ∧ (∀ id, (None, s') ∈ CancelBatch id now s →
     ∃ old b, batches s !! id = Some old ∧ Batch.Cancel old now = Ok b
       ∧ batches s' !! id = Some b
       ∧ eventPublisher s' = published [NewBatchCancelledEvent b now] (eventPublisher s))
  ∧ (∀ id, (None, s') ∈ MarkBatchAsDamaged id now s →
     ∃ old b, batches s !! id = Some old ∧ Batch.MarkAsDamaged old now = Ok b
       ∧ batches s' !! id = Some b
       ∧ eventPublisher s' = published [NewBatchDamagedEvent b now] (eventPublisher s)).
Proof.
  intros Hr. apply reachable_repository_invariant in Hr as (Hk & _ & _).
  assert (Ht : ∀ id step ctx event, is_transition step →
     (None, s') ∈ transition id step ctx event s →
     ∃ old b, batches s !! id = Some old ∧ step old = Ok b
       ∧ batches s' !! id = Some b
       ∧ eventPublisher s' = published [event b] (eventPublisher s));
    [|split; [|split; [|repeat split; intros id H]]].
  4: by apply (Ht id _ _ _ (StartProcessing_transition now)) in H.
  4: by apply (Ht id _ _ _ (Complete_transition now)) in H.
  4: by apply (Ht id _ _ _ (Cancel_transition now)) in H.
  4: by apply (Ht id _ _ _ (MarkAsDamaged_transition now)) in H.
  - intros id step ctx event Hstep H.
    apply transition_full in H
      as [(_ & [? [=]] & _)|(batch & Hl & [(e' & _ & [=] & _)|(b' & Hs & _ & ->)])].
    exists batch, b'. do 2 (split; [done|]). split; [|done].
    destruct (Hstep _ _ Hs) as (Hid & _). simpl.
    rewrite Hid, (Hk _ _ Hl). apply lookup_insert_eq.
  - intros o st H.
    apply UpdateOrderStatus_full in H
      as [([=] & _)|(id & batch & b' & item & _ & _ & Hu & Hitem & _ & ->)].
    exists b', item. split; [apply lookup_insert_eq|]. split; [done|]. split; [|done].
    apply UpdateItemStatus_item_status in Hu. unfold item_status in Hu.
    unfold Batch.GetItemByOrderID in Hitem.
    destruct (find_first _ _); simpl in *; simplify_eq. done.
  - intros o H.
    apply RemoveOrderFromBatch_full in H
      as [([=] & _)|(id & batch & Hl & _ & [(_ & [=] & _)|(b' & _ & Hrm & Hev & H)])].
    exists id, batch, b'. do 2 (split; [done|]). split; [|done].
    destruct (RemoveItem_Ok _ _ _ _ Hrm) as (Hid & _).
    rewrite Hid, (Hk _ _ Hl) in H. rewrite Hl in H.
    destruct (Batch.IsEmpty b'); destruct H as [_ ->].
    + apply lookup_delete_eq.
    + apply lookup_insert_eq.
Qed.

Lemma successful_call_events_witness :
  (None, Examples.after_processing)
    ∈ ProcessBatch "BATCH-p1-20250101000000" 120 Examples.after_first_add
  ∧ ∀ id, (None, Examples.after_processing) ∈ ProcessBatch id 120 Examples.after_first_add →
      ∃ old b, batches Examples.after_first_add !! id = Some old
        ∧ Batch.StartProcessing old 120 = Ok b
        ∧ batches Examples.after_processing !! id = Some b
        ∧ eventPublisher Examples.after_processing
          = published [NewBatchProcessingStartedEvent b 120]
              (eventPublisher Examples.after_first_add).
Proof.
  split; [vm_compute; left|].
  apply (successful_call_events Examples.after_first_add Examples.after_processing 120).
  apply reachable_after_first_add.
Defined.

(** ** The mock publisher *)

Lemma mock_published (events : list BatchEvent.t) (m : MockBatchEventPublisher.t) :
  published events m
  = if MockBatchEventPublisher.ShouldFail m then m
    else MockBatchEventPublisher.mk (MockBatchEventPublisher.PublishedEvents m ++ events)
           false (MockBatchEventPublisher.FailureError m).
Proof.
  unfold published. revert m. induction events as [|event rest IH]; intros m; simpl.
  - destruct m as [l [] e]; simpl; [done|]. by rewrite app_nil_r.
  - rewrite IH. unfold PublishBatchEvent, mock_publisher, MockBatchEventPublisher.Publish.
    destruct m as [l [] e]; simpl.
    + by destruct e.
    + by rewrite <- app_assoc.
Qed.

(** The mock publisher records what it is handed, in order, as long as
    it is not set to fail, and nothing while it is; [GetEventCount] and
    [GetEventsByType] follow; it answers with an error exactly when it is
    set to fail; and [Reset] brings it back to a new mock. *)
Theorem mock_records_what_it_is_handed (m : MockBatchEventPublisher.t)
    (events : list BatchEvent.t) (eventType : BatchEventType) :
  let m' := published events m in
  let recorded := if MockBatchEventPublisher.ShouldFail m then [] else events in
  MockBatchEventPublisher.GetPublishedEvents m'
  = MockBatchEventPublisher.GetPublishedEvents m ++ recorded
  ∧ MockBatchEventPublisher.GetEventCount m'
    = MockBatchEventPublisher.GetEventCount m + Z.of_nat (length recorded)
  ∧ MockBatchEventPublisher.GetEventsByType m' eventType
    = MockBatchEventPublisher.GetEventsByType m eventType
      ++ filter (λ event, BatchEvent.EventType event = eventType) recorded
  ∧ MockBatchEventPublisher.ShouldFail m' = MockBatchEventPublisher.ShouldFail m
  ∧ (∀ event, (PublishBatchEvent event m).1 = None
              ↔ MockBatchEventPublisher.ShouldFail m = false)
  ∧ published events (MockBatchEventPublisher.Reset m)
    = MockBatchEventPublisher.mk events false None.
Proof.
  intros m' recorded. subst m' recorded. rewrite !mock_published.
  unfold MockBatchEventPublisher.GetPublishedEvents, MockBatchEventPublisher.GetEventCount,
    MockBatchEventPublisher.GetEventsByType, PublishBatchEvent, mock_publisher,
    MockBatchEventPublisher.Publish.
  destruct m as [l [] e]; simpl.
  - rewrite !app_nil_r. do 4 (split; [done || lia|]). split; [|done].
    intros event. by destruct e.
  - rewrite length_app, filter_app. do 4 (split; [done || lia|]). done.
Qed.

(** ** The order events the warehouse handles *)

Section OrderEvents.
Context {P : Type} `{!BatchEventPublisher P}.
Implicit Types (s : State P).

(** The branch of [HandleOrderEvent] an event takes, by its type. *)
Lemma HandleOrderEvent_cases (event : OrderEvent.t) now stamp :
  (OrderEvent.EventType event = "order.damage_processed"
   ∧ HandleOrderEvent (P:=P) event now stamp = processDamage event now stamp)
  ∨ (OrderEvent.EventType event = "order.created"
     ∧ HandleOrderEvent (P:=P) event now stamp = allocateInventory event now stamp)
  ∨ (OrderEvent.EventType event = "order.cancelled"
     ∧ HandleOrderEvent (P:=P) event now stamp = releaseInventory event now)
  ∨ (OrderEvent.EventType event = "order.returned"
     ∧ HandleOrderEvent (P:=P) event now stamp = processReturn event now stamp)
  ∨ (OrderEvent.EventType event ≠ "order.created"
     ∧ OrderEvent.EventType event ≠ "order.damage_processed"
     ∧ OrderEvent.EventType event ≠ "order.cancelled"
     ∧ ∃ st, HandleOrderEvent (P:=P) event now stamp
             = UpdateOrderStatus (OrderEvent.OrderID event) st now)
  ∨ (OrderEvent.IsWarehouseRelevant event = false
     ∧ HandleOrderEvent (P:=P) event now stamp = ret None).
Proof.
  destruct (decide (OrderEvent.EventType event = "order.damage_processed")) as [H|H1].
  { left. split; [done|].
    unfold HandleOrderEvent, OrderEvent.IsWarehouseRelevant, OrderEvent.GetWarehouseAction.
    rewrite H. reflexivity. }
  destruct (decide (OrderEvent.EventType event = "order.created")) as [H|H2].
  { right. left. split; [done|].
    unfold HandleOrderEvent, OrderEvent.IsWarehouseRelevant, OrderEvent.GetWarehouseAction.
    rewrite H. reflexivity. }
  destruct (decide (OrderEvent.EventType event = "order.cancelled")) as [H|H3].
  { right. right. left. split; [done|].
    unfold HandleOrderEvent, OrderEvent.IsWarehouseRelevant, OrderEvent.GetWarehouseAction.
    rewrite H. reflexivity. }
  destruct (decide (OrderEvent.EventType event = "order.returned")) as [H|H4].
  { right. right. right. left. split; [done|].
    unfold HandleOrderEvent, OrderEvent.IsWarehouseRelevant, OrderEvent.GetWarehouseAction.
    rewrite H. reflexivity. }
  do 4 right.
  destruct (decide (OrderEvent.EventType event = "order.shipped")) as [H|H5].
  { left. do 3 (split; [done|]). exists "shipped".
    unfold HandleOrderEvent, OrderEvent.IsWarehouseRelevant, OrderEvent.GetWarehouseAction.
    rewrite H. reflexivity. }
  destruct (decide (OrderEvent.EventType event = "order.delivered")) as [H|H6].
  { left. do 3 (split; [done|]). exists "delivered".
    unfold HandleOrderEvent, OrderEvent.IsWarehouseRelevant, OrderEvent.GetWarehouseAction.
    rewrite H. reflexivity. }
  destruct (decide (OrderEvent.EventType event = "order.inventory_allocated")) as [H|H7].
  { left. do 3 (split; [done|]). exists "allocation_confirmed".
    unfold HandleOrderEvent, OrderEvent.IsWarehouseRelevant, OrderEvent.GetWarehouseAction.
    rewrite H. reflexivity. }
  destruct (decide (OrderEvent.EventType event = "order.inventory_released")) as [H|H8].
  { left. do 3 (split; [done|]). exists "release_confirmed".
    unfold HandleOrderEvent, OrderEvent.IsWarehouseRelevant, OrderEvent.GetWarehouseAction.
    rewrite H. reflexivity. }
  right.
  assert (Hrel : OrderEvent.IsWarehouseRelevant event = false).
  { unfold OrderEvent.IsWarehouseRelevant, OrderEvent.warehouseRelevantEvents.
    rewrite (not_elem_of_list_to_map_1 _ (OrderEvent.EventType event)); [done|].
    simpl. rewrite !not_elem_of_cons. repeat split; try done. apply not_elem_of_nil. }
  split; [done|]. unfold HandleOrderEvent. by rewrite Hrel.
Qed.

Lemma UpdateOrderStatus_failure o st now s e s' :
  (Some e, s') ∈ UpdateOrderStatus o st now s →
  s' = s ∧ (∃ ctx cause, e = Wrap ctx cause)
  ∧ ∀ id b, batches s !! id = Some b → Batch.HasOrder b o = false.
Proof.
  intros H. apply UpdateOrderStatus_full in H
    as [([= ->] & -> & Hn)|(id & batch & b' & item & _ & _ & _ & _ & [=] & _)].
  eauto.
Qed.

Lemma RemoveOrderFromBatch_failure o now s e s' :
  keyed_by_id (batches s) →
  (Some e, s') ∈ RemoveOrderFromBatch o now s →
  s' = s ∧ (∃ ctx cause, e = Wrap ctx cause)
  ∧ ((∀ id b, batches s !! id = Some b → Batch.HasOrder b o = false)
     ∨ ∃ id b, batches s !! id = Some b ∧ Batch.HasOrder b o = true
               ∧ Batch.Status b = BatchStatusCompleted).
Proof.
  intros Hk H. apply RemoveOrderFromBatch_full in H
    as [([= ->] & -> & Hn)
       |(id & batch & Hl & Ho & [(Hc & [= ->] & ->)|(b' & _ & Hrm & _ & H)])].
  - eauto 6.
  - split; [done|]. split; [eauto|]. right. eauto 6.
  - exfalso. destruct (RemoveItem_Ok _ _ _ _ Hrm) as (Hid & _).
    rewrite Hid, (Hk _ _ Hl), Hl in H.
    destruct (Batch.IsEmpty b'); by destruct H as [[=] _].
Qed.

Lemma update_or_add_ok event st now stamp s r s' :
  (r, s') ∈ update_or_add event st now stamp s → is_ok r = true.
Proof.
  unfold update_or_add. intros H. apply run_bind in H as (err & s1 & Hu & H).
  destruct err as [e|]; [|apply run_ret in H; by simplify_eq].
  apply run_bind in H as (added & s2 & Ha & H).
  apply AddOrderToBatch_full in Ha as (? & b' & ? & ? & _ & _ & _ & -> & _).
  apply run_ret in H. by simplify_eq.
Qed.

Lemma processDamage_no_error event now stamp s r s' :
  (r, s') ∈ processDamage event now stamp s → r = None.
Proof.
  unfold processDamage. intros Hp. repeat case_bool_decide.
  - apply run_bind in Hp as (x & s1 & Hx & Hp). apply update_or_add_ok in Hx.
    destruct x; [|done]. apply run_ret in Hp. by simplify_eq.
  - apply run_bind in Hp as (x & s1 & Hx & Hp). apply update_or_add_ok in Hx.
    destruct x as [[b|]|]; [| |done].
    + apply run_bind in Hp as (? & ? & _ & Hp). apply run_ret in Hp. by simplify_eq.
    + apply run_bind in Hp as (found & s2 & _ & Hp). destruct found.
      * apply run_bind in Hp as (? & ? & _ & Hp). apply run_ret in Hp. by simplify_eq.
      * apply run_ret in Hp. by simplify_eq.
  - apply run_bind in Hp as (x & s1 & Hx & Hp). apply update_or_add_ok in Hx.
    destruct x; [|done]. apply run_ret in Hp. by simplify_eq.
  - apply run_ret in Hp. by simplify_eq.
Qed.

Lemma HandleOrderEvent_failure (event : OrderEvent.t) now stamp s e s' :
  keyed_by_id (batches s) →
  (Some e, s') ∈ HandleOrderEvent event now stamp s →
  s' = s
  ∧ (∃ ctx cause, e = Wrap ctx cause)
  ∧ OrderEvent.EventType event ≠ "order.created"
  ∧ OrderEvent.EventType event ≠ "order.damage_processed"
  ∧ ((∀ id b, batches s !! id = Some b →
              Batch.HasOrder b (OrderEvent.OrderID event) = false)
     ∨ (OrderEvent.EventType event = "order.cancelled"
        ∧ ∃ id b, batches s !! id = Some b
                  ∧ Batch.HasOrder b (OrderEvent.OrderID event) = true
                  ∧ Batch.Status b = BatchStatusCompleted)).
Proof.
  intros Hk H.
  destruct (HandleOrderEvent_cases event now stamp)
    as [[Ht He]|[[Ht He]|[[Ht He]|[[Ht He]|[(Ht1 & Ht2 & Ht3 & st & He)|[_ He]]]]]];
    rewrite He in H.
  - by apply processDamage_no_error in H.
  - unfold allocateInventory in H. apply run_bind in H as (added & s1 & Ha & H).
    apply AddOrderToBatch_full in Ha as (? & b' & ? & ? & _ & _ & _ & -> & _).
    apply run_ret in H. by simplify_eq.
  - unfold releaseInventory in H.
    apply RemoveOrderFromBatch_failure in H as (-> & Hw & Hc); [|done].
    rewrite Ht. do 4 (split; [done|]). destruct Hc; [by left|by right].
  - unfold processReturn in H. apply run_bind in H as (err & s1 & Hu & H).
    destruct err as [e0|].
    + apply run_ret in H. simplify_eq.
      apply UpdateOrderStatus_failure in Hu as (-> & Hw & Hn).
      rewrite Ht. do 4 (split; [done|]). by left.
    + apply run_bind in H as (added & s2 & Ha & H).
      apply AddOrderToBatch_full in Ha as (? & b' & ? & ? & _ & _ & _ & -> & _).
      apply run_ret in H. by simplify_eq.
  - apply UpdateOrderStatus_failure in H as (-> & Hw & Hn).
    do 4 (split; [done|]). by left.
  - apply run_ret in H. by simplify_eq.
Qed.
End OrderEvents.

(** An order event is answered with an error in two cases only: no batch
    holds the order of an event that updates, returns or releases it; or
    [order.cancelled] meets the order in a completed batch.  The service
    is then left as it was.  [order.created] and [order.damage_processed]
    are never answered with an error, and no event is answered with
    "unknown warehouse action": the table of relevant events and the
    switch of [GetWarehouseAction] list the same eight types. *)
Theorem failed_order_events {P : Type} `{!BatchEventPublisher P} (s s' : State P)
    (event : OrderEvent.t) (now : Time) (stamp : string) (e : error) :
  reachable s →
  (Some e, s') ∈ HandleOrderEvent event now stamp s →
  s' = s
  ∧ (∃ ctx cause, e = Wrap ctx cause)
  ∧ OrderEvent.EventType event ≠ "order.created"
  ∧ OrderEvent.EventType event ≠ "order.damage_processed"
  ∧ ((∀ id b, batches s !! id = Some b →
              Batch.HasOrder b (OrderEvent.OrderID event) = false)
     ∨ (OrderEvent.EventType event = "order.cancelled"
        ∧ ∃ id b, batches s !! id = Some b
                  ∧ Batch.HasOrder b (OrderEvent.OrderID event) = true
                  ∧ Batch.Status b = BatchStatusCompleted)).
Proof.
  intros Hr H. apply reachable_repository_invariant in Hr as (Hk & _ & _).
  by apply (HandleOrderEvent_failure event now stamp s e s').
Qed.

Lemma failed_order_events_witness :
  (Some (Wrap "failed to find batch for order" (ErrNoBatchContainingOrder "order-9")),
   Examples.after_first_add)
    ∈ HandleOrderEvent Examples.shipped_order9 150 "20250101000000" Examples.after_first_add
  ∧ ∀ id b, batches Examples.after_first_add !! id = Some b →
            Batch.HasOrder b "order-9" = false.
Proof.
  assert (Hrun : (Some (Wrap "failed to find batch for order"
                          (ErrNoBatchContainingOrder "order-9")),
                  Examples.after_first_add)
                   ∈ HandleOrderEvent Examples.shipped_order9 150 "20250101000000"
                       Examples.after_first_add) by (vm_compute; left).
  split; [exact Hrun|].
  destruct (failed_order_events Examples.after_first_add Examples.after_first_add
              Examples.shipped_order9 150 "20250101000000" _ reachable_after_first_add Hrun)
    as (_ & _ & _ & _ & [Hn|[Ht _]]); [exact Hn|discriminate Ht].
Defined.

Section Closure.
Context {P : Type} `{!BatchEventPublisher P}.
Implicit Types (s : State P).

Lemma stays_ret {A} (a : A) : stays_reachable (P:=P) (ret a).
Proof. intros s x s' Hr Hx. apply run_ret in Hx. by simplify_eq. Qed.

Lemma stays_bind {A B} (m : M (State P) A) (f : A → M (State P) B) :
  stays_reachable m → (∀ a, stays_reachable (f a)) → stays_reachable (m ≫= f).
Proof.
  intros Hm Hf s x s' Hr Hx. apply run_bind in Hx as (a & s1 & H1 & H2).
  eapply Hf; [|exact H2]. eapply Hm; [|exact H1]. done.
Qed.

Lemma stays_call {A} (m : M (State P) A) c now stamp :
  (∀ s, snd <$> m s = call c now stamp s) → stays_reachable m.
Proof.
  intros Hc s x s' Hr Hx. apply (reachable_call s c now stamp); [done|].
  rewrite <- Hc. apply list_elem_of_fmap. by exists (x, s').
Qed.

Lemma stays_AddOrderToBatch o p q st now stamp :
  stays_reachable (P:=P) (AddOrderToBatch o p q st now stamp).
Proof. by apply (stays_call _ (CallAddOrderToBatch o p q st) now stamp). Qed.

Lemma stays_RemoveOrderFromBatch o now :
  stays_reachable (P:=P) (RemoveOrderFromBatch o now).
Proof. by apply (stays_call _ (CallRemoveOrderFromBatch o) now ""). Qed.

Lemma stays_UpdateOrderStatus o st now :
  stays_reachable (P:=P) (UpdateOrderStatus o st now).
Proof. by apply (stays_call _ (CallUpdateOrderStatus o st) now ""). Qed.

Lemma stays_MarkBatchAsDamaged id now :
  stays_reachable (P:=P) (MarkBatchAsDamaged id now).
Proof. by apply (stays_call _ (CallMarkBatchAsDamaged id) now ""). Qed.

Lemma stays_GetBatchByOrderID o : stays_reachable (P:=P) (GetBatchByOrderID o).
Proof.
  intros s x s' Hr Hx. unfold GetBatchByOrderID in Hx.
  apply FindByOrderID_run in Hx as [-> _]. done.
Qed.

Lemma stays_update_or_add event st now stamp :
  stays_reachable (P:=P) (update_or_add event st now stamp).
Proof.
  unfold update_or_add. apply stays_bind; [apply stays_UpdateOrderStatus|].
  intros [e|]; [|apply stays_ret].
  apply stays_bind; [apply stays_AddOrderToBatch|]. intros [b|e']; apply stays_ret.
Qed.

Lemma stays_processDamage event now stamp :
  stays_reachable (P:=P) (processDamage event now stamp).
Proof.
  unfold processDamage. repeat case_bool_decide.
  - apply stays_bind; [apply stays_update_or_add|]. intros [?|?]; apply stays_ret.
  - apply stays_bind; [apply stays_update_or_add|]. intros [[b|]|e]; [| |apply stays_ret].
    + apply stays_bind; [apply stays_MarkBatchAsDamaged|]. intros ?. apply stays_ret.
    + apply stays_bind; [apply stays_GetBatchByOrderID|]. intros [b|e]; [|apply stays_ret].
      apply stays_bind; [apply stays_MarkBatchAsDamaged|]. intros ?. apply stays_ret.
  - apply stays_bind; [apply stays_update_or_add|]. intros [?|?]; apply stays_ret.
  - apply stays_ret.
Qed.

Lemma stays_HandleOrderEvent event now stamp :
  stays_reachable (P:=P) (HandleOrderEvent event now stamp).
Proof.
  unfold HandleOrderEvent. destruct (negb _); [apply stays_ret|].
  repeat case_bool_decide.
  - apply stays_processDamage.
  - unfold allocateInventory. apply stays_bind; [apply stays_AddOrderToBatch|].
    intros [?|?]; apply stays_ret.
  - apply stays_RemoveOrderFromBatch.
  - apply stays_UpdateOrderStatus.
  - apply stays_UpdateOrderStatus.
  - unfold processReturn. apply stays_bind; [apply stays_UpdateOrderStatus|].
    intros [e|]; [apply stays_ret|].
    apply stays_bind; [apply stays_AddOrderToBatch|]. intros [?|?]; apply stays_ret.
  - apply stays_UpdateOrderStatus.
  - apply stays_UpdateOrderStatus.
  - apply stays_ret.
Qed.

Lemma stays_Start unmarshal reads : stays_reachable (P:=P) (Start unmarshal reads).
Proof.
  induction reads as [|[[[text|value] now] stamp] rest IH]; simpl.
  - apply stays_ret.
  - done.
  - unfold translateMessage. destruct (unmarshal value); [|done].
    apply stays_bind; [apply stays_HandleOrderEvent|]. intros _. done.
Qed.
End Closure.

Section Runs.
Context {P : Type} `{!BatchEventPublisher P}.
Implicit Types (s : State P).

Lemma runs_ret {A} (a : A) : runs (S:=State P) (ret a).
Proof. intros s. eexists. by apply run_ret. Qed.

Lemma runs_bind {A B} (m : M (State P) A) (f : A → M (State P) B) :
  runs m → (∀ a, runs (f a)) → runs (m ≫= f).
Proof.
  intros Hm Hf s. destruct (Hm s) as [[a s1] H1]. destruct (Hf a s1) as [y H2].
  exists y. apply run_bind. eauto.
Qed.

Lemma runs_Save b : runs (S:=State P) (Save b).
Proof. intros s. eexists. by apply Save_run. Qed.

Lemma runs_publish ev : runs (S:=State P) (publish ev).
Proof. intros s. eexists. by apply publish_run. Qed.

Lemma range_find_nonempty p e (r : gmap string Batch.t) :
  ∃ x, x ∈ BatchMemoryRepository.range_find p e r.
Proof.
  unfold BatchMemoryRepository.range_find. destruct (filter _ _) as [|b l].
  - exists (Err e). apply elem_of_cons. by left.
  - exists (Ok b). rewrite fmap_cons. apply elem_of_cons. by left.
Qed.

Lemma runs_FindByOrderID o : runs (S:=State P) (FindByOrderID o).
Proof.
  intros s. unfold FindByOrderID, BatchMemoryRepository.FindByOrderID.
  destruct (range_find_nonempty (λ b, Batch.HasOrder b o) (ErrNoBatchContainingOrder o)
              (batches s)) as [x Hx].
  exists (x, s). apply run_bind. exists (batches s), s. split; [by apply run_gets|].
  apply run_choose. eauto.
Qed.

Lemma runs_FindPendingBatchForProduct p : runs (S:=State P) (FindPendingBatchForProduct p).
Proof. intros s. apply FindPendingBatchForProduct_has_run. Qed.

Lemma runs_Delete id : runs (S:=State P) (Delete id).
Proof.
  intros s. unfold Delete. destruct (BatchMemoryRepository.Delete _ _);
    eexists; apply elem_of_cons; by left.
Qed.

Lemma runs_AddOrderToBatch o p q st now stamp :
  runs (S:=State P) (AddOrderToBatch o p q st now stamp).
Proof. intros s. apply AddOrderToBatch_has_run. Qed.

Lemma runs_UpdateOrderStatus o st now : runs (S:=State P) (UpdateOrderStatus o st now).
Proof.
  unfold UpdateOrderStatus. apply runs_bind; [apply runs_FindByOrderID|].
  intros [batch|e]; [|apply runs_ret].
  destruct (Batch.UpdateItemStatus _ _ _ _) as [b'|e]; [|apply runs_ret].
  apply runs_bind; [apply runs_Save|]. intros _.
  apply runs_bind; [|intros _; apply runs_ret].
  destruct (Batch.GetItemByOrderID _ _); [apply runs_publish|apply runs_ret].
Qed.

Lemma runs_RemoveOrderFromBatch o now : runs (S:=State P) (RemoveOrderFromBatch o now).
Proof.
  unfold RemoveOrderFromBatch. apply runs_bind; [apply runs_FindByOrderID|].
  intros [batch|e]; [|apply runs_ret].
  destruct (Batch.RemoveItem _ _ _) as [b'|e]; [|apply runs_ret].
  apply runs_bind; [apply runs_publish|]. intros _.
  destruct (Batch.IsEmpty b').
  - apply runs_bind; [apply runs_Delete|]. intros [e|]; apply runs_ret.
  - apply runs_bind; [apply runs_Save|]. intros _. apply runs_ret.
Qed.

Lemma runs_transition id step ctx ev : runs (S:=State P) (transition id step ctx ev).
Proof.
  unfold transition. apply runs_bind.
  { intros s. eexists. by apply run_gets. }
  intros [batch|e]; [|apply runs_ret].
  destruct (step batch) as [b'|e]; [|apply runs_ret].
  apply runs_bind; [apply runs_Save|]. intros _.
  apply runs_bind; [apply runs_publish|]. intros _. apply runs_ret.
Qed.

Lemma runs_update_or_add event st now stamp :
  runs (S:=State P) (update_or_add event st now stamp).
Proof.
  unfold update_or_add. apply runs_bind; [apply runs_UpdateOrderStatus|].
  intros [e|]; [|apply runs_ret].
  apply runs_bind; [apply runs_AddOrderToBatch|]. intros [b|e']; apply runs_ret.
Qed.

Lemma runs_processDamage event now stamp :
  runs (S:=State P) (processDamage event now stamp).
Proof.
  unfold processDamage, MarkBatchAsDamaged, GetBatchByOrderID. repeat case_bool_decide.
  - apply runs_bind; [apply runs_update_or_add|]. intros [?|?]; apply runs_ret.
  - apply runs_bind; [apply runs_update_or_add|]. intros [[b|]|e]; [| |apply runs_ret].
    + apply runs_bind; [apply runs_transition|]. intros ?. apply runs_ret.
    + apply runs_bind; [apply runs_FindByOrderID|]. intros [b|e]; [|apply runs_ret].
      apply runs_bind; [apply runs_transition|]. intros ?. apply runs_ret.
  - apply runs_bind; [apply runs_update_or_add|]. intros [?|?]; apply runs_ret.
  - apply runs_ret.
Qed.

Lemma runs_HandleOrderEvent event now stamp :
  runs (S:=State P) (HandleOrderEvent event now stamp).
Proof.
  unfold HandleOrderEvent. destruct (negb _); [apply runs_ret|].
  repeat case_bool_decide.
  - apply runs_processDamage.
  - unfold allocateInventory. apply runs_bind; [apply runs_AddOrderToBatch|].
    intros [?|?]; apply runs_ret.
  - apply runs_RemoveOrderFromBatch.
  - apply runs_UpdateOrderStatus.
  - apply runs_UpdateOrderStatus.
  - unfold processReturn. apply runs_bind; [apply runs_UpdateOrderStatus|].
    intros [e|]; [apply runs_ret|].
    apply runs_bind; [apply runs_AddOrderToBatch|]. intros [?|?]; apply runs_ret.
  - apply runs_UpdateOrderStatus.
  - apply runs_UpdateOrderStatus.
  - apply runs_ret.
Qed.

Lemma runs_Start unmarshal reads : runs (S:=State P) (Start unmarshal reads).
Proof.
  induction reads as [|[[[text|value] now] stamp] rest IH]; simpl.
  - apply runs_ret.
  - done.
  - unfold translateMessage. destruct (unmarshal value); [|done].
    apply runs_bind; [apply runs_HandleOrderEvent|]. intros _. done.
Qed.
End Runs.

(** The consumer of order events keeps the repository sound.  Whatever it
    reads from the topic (read errors, messages that do not decode,
    events of any type, in any order), the loop goes on to the end of the
    reads, and the state it leaves is one the calls of the batch service
    reach, so the invariant of the batches holds in it. *)
Theorem consumer_keeps_repository_sound {P : Type} `{!BatchEventPublisher P}
    (unmarshal : string → option OrderEvent.t) (reads : list (Read * Time * string))
    (s : State P) :
  reachable s →
  (∃ run, run ∈ Start unmarshal reads s)
  ∧ ∀ u s', (u, s') ∈ Start unmarshal reads s →
      reachable s' ∧ batch_invariant (batches s').
Proof.
  intros Hr. split; [apply runs_Start|]. intros u s' Hrun.
  assert (reachable s') as Hr' by (eapply stays_Start; eauto).
  split; [done|].
  apply reachable_repository_invariant in Hr' as (_ & Hw & Hone).
  split; [|done]. intros id b Hl. apply (Hw _ _ Hl).
Qed.

Lemma consumer_keeps_repository_sound_witness :
  (∃ run, run ∈ Start Examples.example_unmarshal Examples.example_reads
                  Examples.after_first_add)
  ∧ ∀ u s', (u, s') ∈ Start Examples.example_unmarshal Examples.example_reads
                         Examples.after_first_add →
      reachable s' ∧ batch_invariant (batches s').
Proof.
  apply (consumer_keeps_repository_sound Examples.example_unmarshal Examples.example_reads
           Examples.after_first_add).
  apply reachable_after_first_add.
Defined.

(** ** Stored batches are never empty *)

Section NonEmpty.
Context {P : Type} `{!BatchEventPublisher P}.

Lemma AddItem_nonempty b o p q st now b' :
  Batch.AddItem b o p q st now = Ok b' → Batch.IsEmpty b' = false.
Proof.
  intros H. apply AddItem_HasOrder in H. apply HasOrder_order_ids in H.
  unfold Batch.IsEmpty, order_ids in *. apply bool_decide_eq_false_2.
  destruct (Batch.Items b'); [|done]. by apply elem_of_nil in H.
Qed.

Lemma call_keeps_nonempty c now stamp (s s' : State P) :
  (∀ id b, batches s !! id = Some b → Batch.IsEmpty b = false) →
  s' ∈ call c now stamp s →
  ∀ id b, batches s' !! id = Some b → Batch.IsEmpty b = false.
Proof.
  intros Hinv.
  assert (Ht : ∀ k step ctx ev r s1, is_transition step →
    (r, s1) ∈ transition k step ctx ev s →
    ∀ id b, batches s1 !! id = Some b → Batch.IsEmpty b = false).
  { intros k step ctx ev r s1 Hstep H.
    apply transition_run in H
      as [(_ & _ & ->)|(batch & Hl & [(e & _ & _ & ->)|(b' & Hs & _ & ->)])]; [done..|].
    apply Hstep in Hs as (_ & _ & Hitems & _).
    intros id b. rewrite lookup_insert_Some. intros [[_ <-]|[_ ?]]; [|by eauto].
    unfold Batch.IsEmpty. rewrite Hitems. apply (Hinv _ _ Hl). }
  destruct c; simpl; rewrite list_elem_of_fmap; intros ([r s1] & -> & H); simpl.
  - apply AddOrderToBatch_run in H as (batch & b' & _ & Hadd & _ & ->).
    intros id b. rewrite lookup_insert_Some. intros [[_ <-]|[_ ?]]; [|by eauto].
    by eapply AddItem_nonempty.
  - apply RemoveOrderFromBatch_run in H
      as [(_ & -> & _)|(k & batch & Hl & _ & [(_ & _ & ->)|(b' & _ & Hr & H)])];
      [done..|].
    destruct (Batch.IsEmpty b') eqn:He.
    + destruct (batches s !! Batch.ID b'); destruct H as [_ ->]; [|done].
      intros id b. rewrite lookup_delete_Some. intros [_ ?]. eauto.
    + destruct H as [_ ->]. intros id b. rewrite lookup_insert_Some.
      intros [[_ <-]|[_ ?]]; eauto.
  - apply UpdateOrderStatus_run in H
      as [(_ & -> & _)|(k & batch & b' & Hl & _ & Hu & _ & ->)]; [done|].
    intros id b. rewrite lookup_insert_Some. intros [[_ <-]|[_ ?]]; [|by eauto].
    apply UpdateItemStatus_order_ids in Hu. specialize (Hinv _ _ Hl).
    unfold Batch.IsEmpty, order_ids in *. apply bool_decide_eq_false_2.
    apply bool_decide_eq_false_1 in Hinv. intros Hlen. apply Hinv.
    apply (f_equal length) in Hu. rewrite !length_fmap in Hu. congruence.
  - eapply Ht; [apply StartProcessing_transition|done].
  - eapply Ht; [apply Complete_transition|done].
  - eapply Ht; [apply Cancel_transition|done].
  - eapply Ht; [apply MarkAsDamaged_transition|done].
Qed.

Lemma reachable_nonempty (s : State P) id b :
  reachable s → batches s !! id = Some b → Batch.IsEmpty b = false.
Proof.
  intros Hr. revert id b.
  induction Hr as [p|s c now stamp s' _ IH Hstep].
  - intros id b H. simpl in H. by rewrite lookup_empty in H.
  - eauto using call_keeps_nonempty.
Qed.
End NonEmpty.

(** The repository never keeps an empty batch: a batch is stored with the
    item just added to it, and a batch that loses its last item is
    deleted on the spot. *)
Theorem stored_batches_hold_items {P : Type} `{!BatchEventPublisher P} (s : State P)
    (id : string) (b : Batch.t) :
  reachable s → batches s !! id = Some b →
  Batch.IsEmpty b = false ∧ 0 < Batch.TotalItems b.
Proof.
  intros Hr Hl. pose proof (reachable_nonempty s id b Hr Hl) as Hne.
  split; [done|].
  apply reachable_repository_invariant in Hr as (_ & Hw & _).
  destruct (Hw _ _ Hl) as [_ Ht]. rewrite Ht.
  unfold Batch.IsEmpty in Hne. apply bool_decide_eq_false_1 in Hne.
  destruct (Batch.Items b); [done|]. simpl. lia.
Qed.

Lemma stored_batches_hold_items_witness :
  Batch.IsEmpty (Examples.batch_with BatchStatusPending) = false
  ∧ 0 < Batch.TotalItems (Examples.batch_with BatchStatusPending).
Proof.
  apply (stored_batches_hold_items Examples.after_first_add "BATCH-p1-20250101000000").
  - apply reachable_after_first_add.
  - vm_compute. reflexivity.
Defined.

(** ** An order created, then cancelled *)

Lemma HandleOrderEvent_created {P : Type} `{!BatchEventPublisher P}
    (event : OrderEvent.t) now stamp :
  OrderEvent.EventType event = "order.created" →
  HandleOrderEvent (P:=P) event now stamp = allocateInventory event now stamp.
Proof.
  intros H. unfold HandleOrderEvent, OrderEvent.IsWarehouseRelevant,
    OrderEvent.GetWarehouseAction. rewrite H. reflexivity.
Qed.

Lemma HandleOrderEvent_cancelled {P : Type} `{!BatchEventPublisher P}
    (event : OrderEvent.t) now stamp :
  OrderEvent.EventType event = "order.cancelled" →
  HandleOrderEvent (P:=P) event now stamp = releaseInventory event now.
Proof.
  intros H. unfold HandleOrderEvent, OrderEvent.IsWarehouseRelevant,
    OrderEvent.GetWarehouseAction. rewrite H. reflexivity.
Qed.

(** [order.created] for an order no batch holds, followed by
    [order.cancelled] for it, brings the repository back: the pending
    batch of the product is as it was but for [UpdatedAt]; and when the
    product had none, the batch made for the order is deleted again (the
    id generated for it being free).  Both events are handled without
    error. *)
Theorem created_then_cancelled {P : Type} `{!BatchEventPublisher P}
    (s s1 s2 : State P) (created cancelled : OrderEvent.t) (now1 now2 : Time)
    (stamp1 stamp2 : string) (r1 r2 : option error) :
  reachable s →
  OrderEvent.EventType created = "order.created" →
  OrderEvent.EventType cancelled = "order.cancelled" →
  OrderEvent.OrderID cancelled = OrderEvent.OrderID created →
  (∀ id b, batches s !! id = Some b →
           Batch.HasOrder b (OrderEvent.OrderID created) = false) →
  (r1, s1) ∈ HandleOrderEvent created now1 stamp1 s →
  (r2, s2) ∈ HandleOrderEvent cancelled now2 stamp2 s1 →
  let p := Order.ProductID (OrderEvent.Order created) in
  r1 = None ∧ r2 = None
  ∧ ((∃ id old,
        batches s !! id = Some old
        ∧ Batch.ProductID old = p ∧ Batch.Status old = BatchStatusPending
        ∧ batches s2
          = <[id := Batch.mk (Batch.ID old) (Batch.ProductID old) (Batch.Status old)
                      (Batch.Items old) (Batch.TotalItems old) (Batch.CreatedAt old)
                      now2 (Batch.ProcessedAt old)]> (batches s))
     ∨ ((∀ id old, batches s !! id = Some old →
                   ¬ (Batch.ProductID old = p ∧ Batch.Status old = BatchStatusPending))
        ∧ (batches s !! generateBatchID p stamp1 = None → batches s2 = batches s))).
Proof.
  intros Hr Hc Hx Hid Hno H1 H2 p.
  pose proof (reachable_repository_invariant s Hr) as (Hk & Hw & _).
  rewrite HandleOrderEvent_created in H1 by done.
  rewrite HandleOrderEvent_cancelled in H2 by done.
  unfold allocateInventory in H1. apply run_bind in H1 as (added & s1' & Hadd & H1).
  apply AddOrderToBatch_full in Hadd
    as (batch & b1 & item & ev & Hsel & Hadd & _ & -> & ->).
  apply run_ret in H1. injection H1 as -> ->.
  unfold releaseInventory in H2. rewrite Hid in H2.
  set (o := OrderEvent.OrderID created) in *.
  assert (Hbo : Batch.HasOrder batch o = false).
  { destruct Hsel as [[(id & Hl & _) _]|[[-> _] _]]; [by eauto|done]. }
  destruct (AddItem_RemoveItem_inverse _ _ _ _ _ _ _ now2 Hbo Hadd) as (_ & _ & Hrm).
  destruct (AddItem_Ok _ _ _ _ _ _ _ Hadd) as (Hid1 & _ & Hst1 & _).
  assert (Hpend : Batch.Status batch = BatchStatusPending).
  { destruct Hsel as [[(id & _ & _ & ?) _]|[[-> _] _]]; done. }
  apply RemoveOrderFromBatch_full in H2
    as [(_ & _ & Hnone)|(id & found & Hl & Ho & [(Hcomp & _)|(b' & _ & Hrm' & _ & H2)])].
  { simpl in Hnone. specialize (Hnone (Batch.ID b1) b1 (lookup_insert_eq _ _ _)).
    apply AddItem_HasOrder in Hadd. congruence. }
  all: simpl in Hl; apply lookup_insert_Some in Hl as [[<- <-]|[_ Hl]];
    [|specialize (Hno _ _ Hl); congruence].
  { congruence. }
  rewrite Hrm in Hrm'. injection Hrm' as <-. simpl in H2.
  split; [done|].
  destruct Hsel as [[(id & Hl & Hp & _) _]|[[-> Hn] _]].
  - assert (Batch.IsEmpty batch = false) as He by (eapply reachable_nonempty; eauto).
    unfold Batch.IsEmpty in *. simpl in H2. rewrite He in H2. destruct H2 as [-> ->].
    split; [done|]. left. exists id, batch. do 3 (split; [done|]).
    simpl. rewrite Hid1, (Hk _ _ Hl), insert_insert_eq. f_equal.
    destruct (Hw _ _ Hl) as [_ Ht]. unfold total_is_length in Ht.
    unfold Batch.with_Items. f_equal; [exact (Hk _ _ Hl)|by rewrite Ht].
  - simpl in *. rewrite Hid1, lookup_insert_eq in H2. destruct H2 as [-> ->].
    split; [done|]. right. split; [done|]. intros Hfree.
    rewrite delete_insert_eq. by apply delete_id.
Qed.

Lemma created_then_cancelled_witness :
  (None, Examples.after_first_add)
    ∈ HandleOrderEvent Examples.created_order1 100 "20250101000000" Examples.mock0
  ∧ (None, Examples.after_removal)
      ∈ HandleOrderEvent Examples.cancelled_order1 200 "20250101000003"
          Examples.after_first_add
  ∧ batches Examples.after_removal = batches Examples.mock0.
Proof.
  assert (H1 : (None, Examples.after_first_add)
                 ∈ HandleOrderEvent Examples.created_order1 100 "20250101000000"
                     Examples.mock0) by (vm_compute; left).
  assert (H2 : (None, Examples.after_removal)
                 ∈ HandleOrderEvent Examples.cancelled_order1 200 "20250101000003"
                     Examples.after_first_add) by (vm_compute; left).
  do 2 (split; [done|]).
  assert (Hno : ∀ id b, batches Examples.mock0 !! id = Some b →
                        Batch.HasOrder b (OrderEvent.OrderID Examples.created_order1) = false).
  { intros id b Hl. simpl in Hl. by rewrite lookup_empty in Hl. }
  destruct (created_then_cancelled Examples.mock0 Examples.after_first_add
              Examples.after_removal Examples.created_order1 Examples.cancelled_order1
              100 200 "20250101000000" "20250101000003" None None
              (reachable_new _) eq_refl eq_refl eq_refl Hno H1 H2)
    as (_ & _ & [(id & old & Hl & _)|[_ Hback]]).
  - simpl in Hl. by rewrite lookup_empty in Hl.
  - apply Hback. reflexivity.
Defined.

(** ** The repository: what is saved is what is found *)

(** [Save] then [FindByID] gives the batch back, whatever was stored under
    its id, and leaves the other ids alone; the count grows by one exactly
    when the id is new.  [Delete] of an id that is not stored is an error
    and changes nothing; of a stored id, it makes [FindByID] fail for that
    id only, and the count drops by one.  [Delete] undoes the [Save] of a
    batch whose id was free. *)
Theorem repository_round_trips (r : gmap string Batch.t) (b : Batch.t) (id : string) :
  BatchMemoryRepository.FindByID (BatchMemoryRepository.Save r b) (Batch.ID b) = Ok b
  ∧ (id ≠ Batch.ID b →
     BatchMemoryRepository.FindByID (BatchMemoryRepository.Save r b) id
     = BatchMemoryRepository.FindByID r id)
  ∧ BatchMemoryRepository.GetBatchCount (BatchMemoryRepository.Save r b)
    = (if BatchMemoryRepository.FindByID r (Batch.ID b) is Ok _
       then BatchMemoryRepository.GetBatchCount r
       else BatchMemoryRepository.GetBatchCount r + 1)
  ∧ match BatchMemoryRepository.Delete r id with
    | Ok r' =>
        BatchMemoryRepository.FindByID r' id = Err (ErrBatchNotFound id)
        ∧ (∀ id', id' ≠ id →
             BatchMemoryRepository.FindByID r' id' = BatchMemoryRepository.FindByID r id')
        ∧ BatchMemoryRepository.GetBatchCount r'
          = BatchMemoryRepository.GetBatchCount r - 1
        ∧ BatchMemoryRepository.Delete r' id = Err (ErrBatchNotFound id)
    | Err e =>
        e = ErrBatchNotFound id
        ∧ BatchMemoryRepository.FindByID r id = Err (ErrBatchNotFound id)
    end
  ∧ (BatchMemoryRepository.FindByID r (Batch.ID b) = Err (ErrBatchNotFound (Batch.ID b)) →
     BatchMemoryRepository.Delete (BatchMemoryRepository.Save r b) (Batch.ID b) = Ok r).
Proof.
  unfold BatchMemoryRepository.FindByID, BatchMemoryRepository.Save,
    BatchMemoryRepository.Delete, BatchMemoryRepository.GetBatchCount.
  split; [by rewrite lookup_insert_eq|]. split.
  { intros Hne. by rewrite lookup_insert_ne. }
  split.
  { destruct (r !! Batch.ID b) as [old|] eqn:Hl.
    - rewrite <- (insert_delete_id r (Batch.ID b) old) at 2 by done.
      rewrite <- (insert_delete_eq r (Batch.ID b) b).
      rewrite !map_size_insert_None by apply lookup_delete_eq. done.
    - rewrite map_size_insert_None by done. lia. }
  split.
  { destruct (r !! id) as [old|] eqn:Hl; [|done].
    rewrite lookup_delete_eq. split; [done|]. split.
    { intros id' Hne. by rewrite lookup_delete_ne. }
    split; [|done].
    rewrite <- (insert_delete_id r id old) at 2 by done.
    rewrite map_size_insert_None by apply lookup_delete_eq. lia. }
  destruct (r !! Batch.ID b) eqn:Hl; [done|]. intros _.
  rewrite lookup_insert_eq, delete_insert_eq. f_equal. by apply delete_id.
Qed.

Lemma filter_by_status_lengths (l : list Batch.t) :
  (length (filter (λ b, bool_decide (Batch.Status b = BatchStatusPending) = true) l)
   + length (filter (λ b, bool_decide (Batch.Status b = BatchStatusProcessing) = true) l)
   + length (filter (λ b, bool_decide (Batch.Status b = BatchStatusCompleted) = true) l)
   + length (filter (λ b, bool_decide (Batch.Status b = BatchStatusCancelled) = true) l)
   + length (filter (λ b, bool_decide (Batch.Status b = BatchStatusDamaged) = true) l)
   = length l)%nat.
Proof.
  induction l as [|b l IH]; [done|].
  rewrite !filter_cons. destruct (Batch.Status b) eqn:Hs;
    repeat (case_decide as Hd; [apply bool_decide_eq_true_1 in Hd; try discriminate Hd|]);
    repeat match goal with
    | H : ¬ bool_decide _ = true |- _ =>
        rewrite bool_decide_eq_true_2 in H by done; destruct H; done
    end; simpl; lia.
Qed.

Lemma filter_all {A} (Q : A → Prop) `{!∀ x, Decision (Q x)} (l : list A) :
  (∀ x, Q x) → filter Q l = l.
Proof.
  intros HQ. induction l as [|x l IH]; [done|].
  rewrite filter_cons. destruct (decide (Q x)) as [_|Hn]; [by rewrite IH|].
  by destruct Hn.
Qed.

Lemma range_collect_spec p (r : gmap string Batch.t) l :
  l ∈ BatchMemoryRepository.range_collect p r →
  l ≡ₚ filter (λ b, p b = true) ((map_to_list r).*2).
Proof.
  unfold BatchMemoryRepository.range_collect. rewrite list_elem_of_fmap.
  intros (visited & -> & Hv). apply permutations_Permutation in Hv. by rewrite Hv.
Qed.

Lemma range_collect_elem p (r : gmap string Batch.t) l b :
  l ∈ BatchMemoryRepository.range_collect p r →
  b ∈ l ↔ ∃ id, r !! id = Some b ∧ p b = true.
Proof.
  intros Hl. rewrite (range_collect_spec _ _ _ Hl).
  rewrite list_elem_of_filter, list_elem_of_fmap. split.
  - intros (Hp & [id b'] & -> & Hin). apply elem_of_map_to_list in Hin. eauto.
  - intros (id & Hin & Hp). split; [done|]. exists (id, b).
    split; [done|]. by apply elem_of_map_to_list.
Qed.

(** The listings of the repository.  Whatever the order in which the map
    is walked, [GetAll] lists every stored batch, as many as
    [GetBatchCount] says; [FindByStatus] and [FindByProductID] list the
    stored batches of that status, or product, and no other; and the
    listings by status, over the five statuses, share out the batches of
    [GetAll]. *)
Theorem repository_listings (r : gmap string Batch.t) (all : list Batch.t)
    (by_status : BatchStatus → list Batch.t) (productID : string)
    (by_product : list Batch.t) :
  all ∈ BatchMemoryRepository.GetAll r →
  (∀ status, by_status status ∈ BatchMemoryRepository.FindByStatus r status) →
  by_product ∈ BatchMemoryRepository.FindByProductID r productID →
  (∀ b, b ∈ all ↔ ∃ id, r !! id = Some b)
  ∧ Z.of_nat (length all) = BatchMemoryRepository.GetBatchCount r
  ∧ (∀ status b, b ∈ by_status status ↔ ∃ id, r !! id = Some b ∧ Batch.Status b = status)
  ∧ (∀ b, b ∈ by_product ↔ ∃ id, r !! id = Some b ∧ Batch.ProductID b = productID)
  ∧ (length (by_status BatchStatusPending) + length (by_status BatchStatusProcessing)
     + length (by_status BatchStatusCompleted) + length (by_status BatchStatusCancelled)
     + length (by_status BatchStatusDamaged) = length all)%nat.
Proof.
  intros Hall Hst Hpr.
  assert (Hlen : length all = length ((map_to_list r).*2)).
  { apply range_collect_spec in Hall. rewrite Hall.
    by rewrite filter_all. }
  split.
  { intros b. rewrite (range_collect_elem _ _ _ b Hall).
    split; [intros (id & ? & _)|intros (id & ?)]; eauto. }
  split.
  { unfold BatchMemoryRepository.GetBatchCount. rewrite Hlen, length_fmap.
    by rewrite length_map_to_list. }
  split.
  { intros status b. rewrite (range_collect_elem _ _ _ b (Hst status)).
    by setoid_rewrite bool_decide_eq_true. }
  split.
  { intros b. rewrite (range_collect_elem _ _ _ b Hpr).
    by setoid_rewrite bool_decide_eq_true. }
  rewrite Hlen, <- (filter_by_status_lengths ((map_to_list r).*2)).
  by rewrite !(Permutation_length (range_collect_spec _ _ _ (Hst _))).
Qed.

Lemma repository_listings_witness :
  (∀ b, b ∈ [Examples.batch_with BatchStatusPending]
        ↔ ∃ id, batches Examples.after_first_add !! id = Some b)
  ∧ Z.of_nat (length [Examples.batch_with BatchStatusPending])
    = BatchMemoryRepository.GetBatchCount (batches Examples.after_first_add)
  ∧ (∀ status b, b ∈ Examples.listed_by_status status
                 ↔ ∃ id, batches Examples.after_first_add !! id = Some b
                         ∧ Batch.Status b = status)
  ∧ (∀ b, b ∈ [Examples.batch_with BatchStatusPending]
          ↔ ∃ id, batches Examples.after_first_add !! id = Some b
                  ∧ Batch.ProductID b = "p1")
  ∧ (length (Examples.listed_by_status BatchStatusPending)
     + length (Examples.listed_by_status BatchStatusProcessing)
     + length (Examples.listed_by_status BatchStatusCompleted)
     + length (Examples.listed_by_status BatchStatusCancelled)
     + length (Examples.listed_by_status BatchStatusDamaged)
     = length [Examples.batch_with BatchStatusPending])%nat.
Proof.
  apply (repository_listings (batches Examples.after_first_add)
           [Examples.batch_with BatchStatusPending] Examples.listed_by_status "p1"
           [Examples.batch_with BatchStatusPending]).
  - vm_compute. left.
  - intros status. destruct status; vm_compute; left.
  - vm_compute. left.
Defined.

(** ** The HTTP API of the batch service *)

#[local] Instance ToBatchItemDTO_inj : Inj (=) (=) ToBatchItemDTO.
Proof. intros [] [] [=]. by simplify_eq. Qed.

#[local] Instance BatchStatus_string_inj : Inj (=) (=) BatchStatus_string.
Proof. intros [] []; simpl; intros [=]; done. Qed.

Lemma BatchStatus_of_string_string status :
  BatchStatus_of_string (BatchStatus_string status) = Some status.
Proof. by destruct status. Qed.

Lemma ToBatchDTO_eq (b1 b2 : Batch.t) : ToBatchDTO b1 = ToBatchDTO b2 → b1 = b2.
Proof.
  intros H. destruct b1, b2. unfold ToBatchDTO in H. simpl in H.
  injection H as -> -> Hs Hi -> -> -> ->.
  apply (inj BatchStatus_string) in Hs as ->.
  apply (inj (fmap ToBatchItemDTO)) in Hi as ->. done.
Qed.

#[local] Instance ToBatchDTO_inj : Inj (=) (=) ToBatchDTO.
Proof. intros b1 b2. apply ToBatchDTO_eq. Qed.

(** A DTO shows all there is in a batch: two batches have the same DTO
    only when they are the same batch, field by field and item by item,
    and so for lists of batches; the status read back from the DTO is the
    status of the batch, and a list of DTOs has one DTO per batch. *)
Theorem ToBatchDTO_loses_nothing (b1 b2 : Batch.t) (l1 l2 : list Batch.t) :
  (ToBatchDTO b1 = ToBatchDTO b2 ↔ b1 = b2)
  ∧ (ToBatchDTOs l1 = ToBatchDTOs l2 ↔ l1 = l2)
  ∧ BatchStatus_of_string (BatchDTO.Status (ToBatchDTO b1)) = Some (Batch.Status b1)
  ∧ length (BatchDTO.Items (ToBatchDTO b1)) = length (Batch.Items b1)
  ∧ length (ToBatchDTOs l1) = length l1.
Proof.
  split; [|split; [|split; [|split]]].
  - split; [apply ToBatchDTO_eq|by intros ->].
  - split; [|by intros ->]. unfold ToBatchDTOs. apply (inj (fmap ToBatchDTO)).
  - simpl. apply BatchStatus_of_string_string.
  - simpl. by rewrite length_fmap.
  - unfold ToBatchDTOs. by rewrite length_fmap.
Qed.

Section ApiRuns.
Context {P : Type} `{!BatchEventPublisher P}.
Implicit Types (s : State P).

Lemma GetAllBatches_run s x s' :
  (x, s') ∈ GetAllBatches s →
  s' = s ∧ ∃ found, x = Ok found ∧ found ∈ BatchMemoryRepository.GetAll (batches s).
Proof. unfold GetAllBatches. intros H. run_inv. eauto. Qed.

Lemma GetBatchesByStatus_run status s x s' :
  (x, s') ∈ GetBatchesByStatus status s →
  s' = s ∧ ∃ found, x = Ok found
                    ∧ found ∈ BatchMemoryRepository.FindByStatus (batches s) status.
Proof. unfold GetBatchesByStatus. intros H. run_inv. eauto. Qed.

Lemma GetBatchesByProductID_run p s x s' :
  (x, s') ∈ GetBatchesByProductID p s →
  s' = s ∧ ∃ found, x = Ok found
                    ∧ found ∈ BatchMemoryRepository.FindByProductID (batches s) p.
Proof. unfold GetBatchesByProductID. intros H. run_inv. eauto. Qed.
End ApiRuns.

(** [GET /api/v1/batches/order/:orderId] answers 404 exactly when no
    stored batch holds the order, and otherwise 200 with the DTO of a
    stored batch that holds it; an empty id is a 400.  The handler leaves
    the service as it is. *)
Theorem getBatchByOrderHandler_answers {P : Type} `{!BatchEventPublisher P}
    (s s' : State P) (orderID : string) (response : Gin.Response) :
  (response, s') ∈ getBatchByOrderHandler orderID s →
  s' = s
  ∧ (Gin.code response = 400 ↔ orderID = "")
  ∧ (Gin.code response = 404 ↔
       orderID ≠ "" ∧ ∀ id b, batches s !! id = Some b → Batch.HasOrder b orderID = false)
  ∧ (Gin.code response ≠ 400 → Gin.code response ≠ 404 →
     ∃ id b, batches s !! id = Some b ∧ Batch.HasOrder b orderID = true
             ∧ response = Gin.mkResponse 200
                            [("order_id", Gin.VString orderID);
                             ("batch", Gin.VBatch (ToBatchDTO b))]).
Proof.
  unfold getBatchByOrderHandler, GetBatchByOrderID. case_bool_decide as He.
  - intros H. apply run_ret in H. injection H as -> ->. simpl.
    split; [done|]. split; [done|]. split; [|done]. split; [done|]. by intros [? _].
  - intros H. svc_inv. destruct Hrun as [[-> Hn]|(id & b & -> & Hl & Ho)]; svc_inv; simpl.
    + split; [done|]. split; [done|]. split; [|done]. done.
    + split; [done|]. split; [done|]. split.
      { split; [done|]. intros [_ Hn]. rewrite (Hn _ _ Hl) in Ho. done. }
      intros _ _. eauto.
Qed.

Lemma getBatchByOrderHandler_answers_witness :
  (Examples.order1_response, Examples.after_first_add)
    ∈ getBatchByOrderHandler "order-1" Examples.after_first_add
  ∧ ∃ id b, batches Examples.after_first_add !! id = Some b
            ∧ Batch.HasOrder b "order-1" = true
            ∧ Examples.order1_response
              = Gin.mkResponse 200
                  [("order_id", Gin.VString "order-1");
                   ("batch", Gin.VBatch (ToBatchDTO b))].
Proof.
  assert (Hrun : (Examples.order1_response, Examples.after_first_add)
                   ∈ getBatchByOrderHandler "order-1" Examples.after_first_add)
    by (vm_compute; left).
  split; [exact Hrun|].
  destruct (getBatchByOrderHandler_answers Examples.after_first_add Examples.after_first_add
              "order-1" Examples.order1_response Hrun) as (_ & _ & _ & Hok).
  apply Hok; discriminate.
Defined.

Lemma range_collect_has_run p (r : gmap string Batch.t) :
  ∃ found, found ∈ BatchMemoryRepository.range_collect p r.
Proof.
  eexists. unfold BatchMemoryRepository.range_collect. apply list_elem_of_fmap.
  eexists. split; [reflexivity|]. apply permutations_refl.
Qed.

(** The listing handlers always answer, 200, with the DTOs of the batches
    listed and their number, and leave the service as it is: all the
    stored batches for [GET /api/v1/batches], those of the status for
    [GET /api/v1/batches/status/:status], those of the product for
    [GET /api/v1/batches/product/:productId].  The count is the length of
    the list sent. *)
Theorem listing_handlers_count {P : Type} `{!BatchEventPublisher P}
    (s s' : State P) (response : Gin.Response) :
  (∃ answer, (answer, s) ∈ getAllBatchesHandler s)
  ∧ ((response, s') ∈ getAllBatchesHandler s →
     s' = s
     ∧ ∃ dtos, response = Gin.mkResponse 200
                            [("batches", Gin.VBatches dtos);
                             ("count", Gin.VInt (Z.of_nat (length dtos)))]
               ∧ Z.of_nat (length dtos) = BatchMemoryRepository.GetBatchCount (batches s)
               ∧ ∀ dto, dto ∈ dtos ↔ ∃ id b, batches s !! id = Some b ∧ dto = ToBatchDTO b)
  ∧ (∀ status,
       (response, s') ∈ getBatchesByStatusHandler (BatchStatus_string status) s →
     s' = s
     ∧ ∃ dtos, response = Gin.mkResponse 200
                            [("status", Gin.VString (BatchStatus_string status));
                             ("batches", Gin.VBatches dtos);
                             ("count", Gin.VInt (Z.of_nat (length dtos)))]
               ∧ ∀ dto, dto ∈ dtos ↔ ∃ id b, batches s !! id = Some b
                                             ∧ Batch.Status b = status
                                             ∧ dto = ToBatchDTO b)
  ∧ (∀ productID, productID ≠ "" →
       (response, s') ∈ getBatchesByProductHandler productID s →
     s' = s
     ∧ ∃ dtos, response = Gin.mkResponse 200
                            [("product_id", Gin.VString productID);
                             ("batches", Gin.VBatches dtos);
                             ("count", Gin.VInt (Z.of_nat (length dtos)))]
               ∧ ∀ dto, dto ∈ dtos ↔ ∃ id b, batches s !! id = Some b
                                             ∧ Batch.ProductID b = productID
                                             ∧ dto = ToBatchDTO b).
Proof.
  split; [|split; [|split]].
  - destruct (range_collect_has_run (λ _, true) (batches s)) as [found Hf].
    eexists. unfold getAllBatchesHandler. apply run_bind. exists (Ok found), s. split.
    + unfold GetAllBatches. apply run_bind. exists (batches s), s.
      split; [by apply run_gets|]. apply run_bind. exists found, s. split.
      * apply run_choose. by exists found.
      * by apply run_ret.
    + by apply run_ret.
  - unfold getAllBatchesHandler. intros H. apply run_bind in H as (x & s1 & Hx & H).
    apply GetAllBatches_run in Hx as (-> & found & -> & Hf).
    apply run_ret in H. injection H as -> ->. split; [done|].
    exists (ToBatchDTOs found). split; [done|]. split.
    + unfold ToBatchDTOs. rewrite length_fmap.
      apply range_collect_spec in Hf. rewrite Hf, filter_all by done.
      unfold BatchMemoryRepository.GetBatchCount. by rewrite length_fmap, length_map_to_list.
    + intros dto. unfold ToBatchDTOs. rewrite list_elem_of_fmap.
      split.
      * intros (b & -> & Hb). apply (range_collect_elem _ _ _ b Hf) in Hb as (id & Hl & _).
        eauto.
      * intros (id & b & Hl & ->). exists b. split; [done|].
        apply (range_collect_elem _ _ _ b Hf). eauto.
  - intros status. unfold getBatchesByStatusHandler.
    rewrite bool_decide_eq_false_2 by (by destruct status).
    rewrite BatchStatus_of_string_string.
    intros H. apply run_bind in H as (x & s1 & Hx & H).
    apply GetBatchesByStatus_run in Hx as (-> & found & -> & Hf).
    apply run_ret in H. injection H as -> ->. split; [done|].
    exists (ToBatchDTOs found). split; [done|].
    intros dto. unfold ToBatchDTOs. rewrite list_elem_of_fmap. split.
    + intros (b & -> & Hb). apply (range_collect_elem _ _ _ b Hf) in Hb as (id & Hl & Hs).
      apply bool_decide_eq_true in Hs. eauto.
    + intros (id & b & Hl & Hs & ->). exists b. split; [done|].
      apply (range_collect_elem _ _ _ b Hf). exists id. split; [done|].
      by apply bool_decide_eq_true.
  - intros productID Hne. unfold getBatchesByProductHandler.
    rewrite bool_decide_eq_false_2 by done.
    intros H. apply run_bind in H as (x & s1 & Hx & H).
    apply GetBatchesByProductID_run in Hx as (-> & found & -> & Hf).
    apply run_ret in H. injection H as -> ->. split; [done|].
    exists (ToBatchDTOs found). split; [done|].
    intros dto. unfold ToBatchDTOs. rewrite list_elem_of_fmap. split.
    + intros (b & -> & Hb). apply (range_collect_elem _ _ _ b Hf) in Hb as (id & Hl & Hs).
      apply bool_decide_eq_true in Hs. eauto.
    + intros (id & b & Hl & Hs & ->). exists b. split; [done|].
      apply (range_collect_elem _ _ _ b Hf). exists id. split; [done|].
      by apply bool_decide_eq_true.
Qed.

(** ** The order aggregator, continued *)

Section OrderService.
Import OrderManagement.

Lemma order_Update_stored (r : gmap string Order.t) (o : Order.t) :
  is_Some (r !! Order.ID o) →
  MemoryOrderRepository.Update r o = Ok (<[Order.ID o := o]> r).
Proof. intros [old H]. unfold MemoryOrderRepository.Update. by rewrite H. Qed.

Lemma order_status_update_run {P : Type} `{!OrderEventPublisher P} (s : State P)
    (id status : string) (now : Time) :
  reachable s →
  match orders s !! id with
  | None =>
      UpdateOrderStatus id status now s
      = (Err (Wrap "order not found" (ErrOrderNotFound id)), s)
  | Some old =>
      let updated :=
        Order.mk id (Order.CustomerID old) (Order.ProductID old) (Order.Quantity old)
          status (Order.TotalAmount old) (Order.CreatedAt old) now in
      UpdateOrderStatus id status now s
      = (Ok updated,
         mkState (<[id := updated]> (orders s))
           (PublishOrderEvent (OrderEvent.mk "order.updated" id updated now)
              (eventPublisher s)).2)
  end.
Proof.
  intros Hr. apply reachable_keyed_by_id in Hr.
  unfold UpdateOrderStatus, MemoryOrderRepository.FindByID.
  destruct (orders s !! id) as [old|] eqn:Hl; [|reflexivity].
  pose proof (Hr _ _ Hl) as Hid. simpl.
  rewrite order_Update_stored by (simpl; rewrite Hid, Hl; eauto).
  unfold publish, Order.with_Status. simpl. by rewrite Hid.
Qed.

(** [UpdateOrderStatus] for an id that is not stored answers with an
    error, stores nothing and publishes nothing.  For a stored id it
    changes the status and [UpdatedAt] of that order and nothing else,
    leaves the other orders alone, and publishes one [order.updated]
    event that carries the order as updated. *)
Theorem order_status_update {P : Type} `{!OrderEventPublisher P} (s : State P)
    (id status : string) (now : Time) :
  reachable s →
  match orders s !! id with
  | None =>
      UpdateOrderStatus id status now s
      = (Err (Wrap "order not found" (ErrOrderNotFound id)), s)
  | Some old =>
      let updated :=
        Order.mk id (Order.CustomerID old) (Order.ProductID old) (Order.Quantity old)
          status (Order.TotalAmount old) (Order.CreatedAt old) now in
      UpdateOrderStatus id status now s
      = (Ok updated,
         mkState (<[id := updated]> (orders s))
           (PublishOrderEvent (OrderEvent.mk "order.updated" id updated now)
              (eventPublisher s)).2)
      ∧ ∀ id', id' ≠ id → GetOrder id' (UpdateOrderStatus id status now s).2 = GetOrder id' s
  end.
Proof.
  intros Hr. pose proof (order_status_update_run s id status now Hr) as Hu.
  destruct (orders s !! id) as [old|]; [|done]. split; [done|].
  intros id' Hne. rewrite Hu. unfold GetOrder, MemoryOrderRepository.FindByID. simpl.
  by rewrite lookup_insert_ne.
Qed.

Lemma order_status_update_witness :
  (UpdateOrderStatus "order-1" "shipped" 60 OrderExamples.with_order1).1
  = Ok (Order.mk "order-1" "c1" "p1" 5 "shipped" 10 50 60)
  ∧ ∀ id', id' ≠ "order-1" →
      GetOrder id' (UpdateOrderStatus "order-1" "shipped" 60 OrderExamples.with_order1).2
      = GetOrder id' OrderExamples.with_order1.
Proof.
  pose proof (order_status_update OrderExamples.with_order1 "order-1" "shipped" 60
                (reachable_CreateOrder _ "order-1" "c1" "p1" 5 10%float 50
                   (reachable_new _))) as H.
  assert (Hl : orders OrderExamples.with_order1 !! "order-1"
               = Some (Order.mk "order-1" "c1" "p1" 5 "created" 10 50 50))
    by (vm_compute; reflexivity).
  rewrite Hl in H. destruct H as [Hu Hother]. split; [|exact Hother].
  rewrite Hu. reflexivity.
Defined.

(** An order that is created, then given a status, is found with that
    status: [GetOrder] answers with the order as created but for the
    status and [UpdatedAt]; the other orders are as they were; and the
    publisher was handed [order.created], then [order.updated]. *)
Theorem created_order_is_found {P : Type} `{!OrderEventPublisher P} (s : State P)
    (id customerID productID : string) (quantity : Z) (totalAmount : float)
    (status : string) (t1 t2 : Time) :
  let created := Order.mk id customerID productID quantity "created" totalAmount t1 t1 in
  let updated := Order.mk id customerID productID quantity status totalAmount t1 t2 in
  let s1 := (CreateOrder id customerID productID quantity totalAmount t1 s).2 in
  let s2 := (UpdateOrderStatus id status t2 s1).2 in
  (CreateOrder id customerID productID quantity totalAmount t1 s).1 = Ok created
  ∧ GetOrder id s1 = Ok created
  ∧ (UpdateOrderStatus id status t2 s1).1 = Ok updated
  ∧ GetOrder id s2 = Ok updated
  ∧ (∀ id', id' ≠ id → GetOrder id' s2 = GetOrder id' s)
  ∧ eventPublisher s2
    = (PublishOrderEvent (OrderEvent.mk "order.updated" id updated t2)
         (PublishOrderEvent (OrderEvent.mk "order.created" id created t1)
            (eventPublisher s)).2).2.
Proof.
  intros created updated s1 s2. subst s1 s2.
  unfold CreateOrder, UpdateOrderStatus, GetOrder, MemoryOrderRepository.FindByID,
    MemoryOrderRepository.Save, publish. simpl.
  rewrite lookup_insert_eq. simpl.
  rewrite order_Update_stored by (simpl; rewrite lookup_insert_eq; eauto). simpl.
  rewrite lookup_insert_eq, insert_insert_eq.
  do 4 (split; [done|]). split; [|done].
  intros id' Hne. by rewrite lookup_insert_ne.
Qed.

Lemma HandleOrderDamageEvent_no_error {P : Type} `{!OrderEventPublisher P}
    (event : OrderDamageEvent.t) (now : Time) (s : State P) :
  keyed_by_id (orders s) →
  (OrderService_HandleOrderDamageEvent event now s).1 = None.
Proof.
  intros Hk.
  unfold OrderService_HandleOrderDamageEvent, MemoryOrderRepository.FindByID.
  destruct (orders s !! OrderDamageEvent.OrderID event) as [old|] eqn:Hl; simpl.
  - rewrite order_Update_stored; [done|]. simpl. rewrite (Hk _ _ Hl), Hl. eauto.
  - rewrite order_Update_stored; [done|]. simpl.
    unfold MemoryOrderRepository.Save. simpl. rewrite lookup_insert_eq. eauto.
Qed.

Lemma HandleOrderDamageEvent_reachable {P : Type} `{!OrderEventPublisher P}
    (event : OrderDamageEvent.t) (now : Time) (s : State P) :
  reachable s → reachable (OrderService_HandleOrderDamageEvent event now s).2.
Proof. apply reachable_HandleOrderDamageEvent. Qed.

Lemma consume_order_service {P : Type} `{!OrderEventPublisher P}
    (json : Json) (body : string) (now : Time) (s : State P) :
  reachable s →
  (consume json body now s).1 ≠ NackRequeue ∧ reachable (consume json body now s).2.
Proof.
  intros Hr. unfold consume.
  destruct (translateMessage json body now) as [[e|e]|e]; simpl; [| |done].
  - pose proof (HandleOrderDamageEvent_no_error e now s (reachable_keyed_by_id s Hr)) as Hn.
    pose proof (HandleOrderDamageEvent_reachable e now s Hr) as Hr'.
    destruct (OrderService_HandleOrderDamageEvent e now s) as [r s']. simpl in *.
    by rewrite Hn.
  - done.
Qed.

(** With the order service behind the consumer no delivery goes back to
    the queue: the service answers every event without error (a damage
    event for an unknown order first stores the order, so the update that
    follows finds it), and each delivery is acked, or dropped when the
    payload of a damage wrapper does not decode. *)
Theorem order_service_never_requeues {P : Type} `{!OrderEventPublisher P}
    (json : Json) (deliveries : list (string * Time)) (s : State P) :
  reachable s →
  (NackRequeue ∉ (Start json deliveries s).1)
  ∧ length (Start json deliveries s).1 = length deliveries
  ∧ reachable (Start json deliveries s).2.
Proof.
  revert s. induction deliveries as [|[body now] rest IH]; intros s Hr; simpl.
  - split; [apply not_elem_of_nil|done].
  - destruct (consume_order_service json body now s Hr) as [Hn Hr'].
    destruct (consume json body now s) as [settled s1]. simpl in *.
    destruct (IH s1 Hr') as (Hrest & Hlen & Hr'').
    destruct (Start json rest s1) as [more s2]. simpl in *.
    split; [|split; [by rewrite Hlen|done]].
    rewrite not_elem_of_cons. split; [congruence|done].
Qed.

Lemma order_service_never_requeues_witness :
  (NackRequeue ∉ (Start OrderExamples.example_json OrderExamples.example_deliveries
                    OrderExamples.working).1)
  ∧ length (Start OrderExamples.example_json OrderExamples.example_deliveries
              OrderExamples.working).1
    = length OrderExamples.example_deliveries
  ∧ reachable (Start OrderExamples.example_json OrderExamples.example_deliveries
                 OrderExamples.working).2.
Proof.
  apply (order_service_never_requeues OrderExamples.example_json
           OrderExamples.example_deliveries OrderExamples.working).
  apply (reachable_new (OrderExamples.publisher_with (λ _, None))).
Defined.

(** The codes of the API of the order service (under [/api/v1]), in a
    reachable state: [GET /orders/:id] is a 404 exactly when the id is
    not stored, a 200 otherwise; [PUT /orders/:id/status] is a 400 when
    the body does not bind, a 404 when the id is not stored, a 200
    otherwise, and changes the service on a 200 only; [POST /orders] is a
    400 when the body does not bind and a 201 otherwise, and then the
    order is stored; [GET /orders] is a 200 with the stored orders, each
    once, in the order the map is walked. *)
Theorem order_api_codes {P : Type} `{!OrderEventPublisher P} (s : State P)
    (id : string) (now : Time) :
  reachable s →
  code (getOrderHandler id s) = (if orders s !! id is Some _ then 200 else 404)
  ∧ (∀ bound,
       code (updateOrderStatusHandler id bound now s).1
       = match bound with
         | inr _ => 400
         | inl _ => if orders s !! id is Some _ then 200 else 404
         end
       ∧ (code (updateOrderStatusHandler id bound now s).1 ≠ 200 →
          (updateOrderStatusHandler id bound now s).2 = s))
  ∧ (∀ bound,
       code (createOrderHandler bound id now s).1
       = match bound with inr _ => 400 | inl _ => 201 end
       ∧ match bound with
         | inr _ => (createOrderHandler bound id now s).2 = s
         | inl req =>
             code (getOrderHandler id (createOrderHandler bound id now s).2) = 200
         end)
  ∧ (∀ response, response ∈ getAllOrdersHandler s →
       ∃ found, response = mkResponse 200 (OrdersBody found)
                ∧ length found = size (orders s)
                ∧ ∀ o, o ∈ found ↔ ∃ id', orders s !! id' = Some o).
Proof.
  intros Hr. split; [|split; [|split]].
  4: { intros response. unfold getAllOrdersHandler, GetAllOrders, MemoryOrderRepository.FindAll.
       rewrite list_elem_of_fmap. intros (r & -> & Hr').
       apply list_elem_of_fmap in Hr' as (found & -> & Hp).
       apply permutations_Permutation in Hp. exists found. split; [done|]. split.
       - by rewrite <- Hp, length_fmap, length_map_to_list.
       - intros o. rewrite <- Hp, list_elem_of_fmap. split.
         + intros ([id' o'] & -> & Hin). apply elem_of_map_to_list in Hin. eauto.
         + intros (id' & Hl). exists (id', o). split; [done|].
           by apply elem_of_map_to_list. }
  - unfold getOrderHandler, GetOrder, MemoryOrderRepository.FindByID.
    by destruct (orders s !! id).
  - intros [status|text]; [|done]. unfold updateOrderStatusHandler.
    pose proof (order_status_update_run s id status now Hr) as Hu.
    destruct (orders s !! id) as [old|]; rewrite Hu; simpl; split; done.
  - intros [req|text]; [|done]. unfold createOrderHandler, CreateOrder. simpl.
    split; [done|]. unfold getOrderHandler, GetOrder, MemoryOrderRepository.FindByID,
      MemoryOrderRepository.Save, publish. simpl. by rewrite lookup_insert_eq.
Qed.
Lemma order_api_codes_witness :
  code (getOrderHandler "order-1" OrderExamples.with_order1) = 200
  ∧ code (getOrderHandler "order-2" OrderExamples.with_order1) = 404
  ∧ code (updateOrderStatusHandler "order-2" (inl "shipped") 60 OrderExamples.with_order1).1
    = 404.
Proof.
  assert (Hr : reachable OrderExamples.with_order1).
  { apply (reachable_CreateOrder _ "order-1" "c1" "p1" 5 10%float 50 (reachable_new _)). }
  destruct (order_api_codes OrderExamples.with_order1 "order-1" 60 Hr) as (Hg1 & _).
  destruct (order_api_codes OrderExamples.with_order1 "order-2" 60 Hr) as (Hg2 & Hu2 & _).
  destruct (Hu2 (inl "shipped")) as [Hc _].
  rewrite Hg1, Hg2, Hc. repeat split; vm_compute; reflexivity.
Defined.

End OrderService.

(** ** Configuration *)

Lemma getEnv_nonempty environ key defaultValue :
  defaultValue ≠ "" → getEnv environ key defaultValue ≠ "".
Proof. intros Hd. unfold getEnv. by case_bool_decide. Qed.

(** Whatever the environment holds, no field of the configuration of the
    batch service or of the order service is empty: a variable that is
    unset or set to the empty string gives way to its default.  The URL
    of RabbitMQ is [RABBITMQ_URL] when that is set, and is otherwise made
    of the host, port, user and password, each with its default. *)
Theorem LoadConfig_fills_every_field (environ : gmap string string) :
  let w := Warehouse.Config.LoadConfig environ in
  let o := OrderManagement.Config.LoadConfig environ in
  Warehouse.Config.OrderEventsTopic (Warehouse.Config.Kafka w) ≠ ""
  ∧ Warehouse.Config.BatchEventsTopic (Warehouse.Config.Kafka w) ≠ ""
  ∧ Warehouse.Config.BrokerAddress (Warehouse.Config.Kafka w) ≠ ""
  ∧ Warehouse.Config.GroupID (Warehouse.Config.Kafka w) ≠ ""
  ∧ Warehouse.Config.Port (Warehouse.Config.HTTP w) ≠ ""
  ∧ OrderManagement.Config.URL (OrderManagement.Config.RabbitMQ o) ≠ ""
  ∧ OrderManagement.Config.ExchangeName (OrderManagement.Config.RabbitMQ o) ≠ ""
  ∧ OrderManagement.Config.ConsumerQueueName (OrderManagement.Config.RabbitMQ o) ≠ ""
  ∧ OrderManagement.Config.ConsumerRoutingKey (OrderManagement.Config.RabbitMQ o) ≠ ""
  ∧ OrderManagement.Config.PublisherQueueName (OrderManagement.Config.RabbitMQ o) ≠ ""
  ∧ OrderManagement.Config.PublisherRoutingKey (OrderManagement.Config.RabbitMQ o) ≠ ""
  ∧ OrderManagement.Config.Port (OrderManagement.Config.HTTP o) ≠ ""
  ∧ OrderManagement.Config.URL (OrderManagement.Config.RabbitMQ o)
    = (if decide (Getenv environ "RABBITMQ_URL" = "") then
         "amqp://" +:+ getEnv environ "RABBITMQ_USER" "guest" +:+ ":"
         +:+ getEnv environ "RABBITMQ_PASSWORD" "guest" +:+ "@"
         +:+ getEnv environ "RABBITMQ_HOST" "localhost" +:+ ":"
         +:+ getEnv environ "RABBITMQ_PORT" "5672" +:+ "/"
       else Getenv environ "RABBITMQ_URL").
Proof.
  intros w o. subst w o. simpl.
  repeat (split; [by apply getEnv_nonempty|]).
  assert (Hurl : getEnv environ "RABBITMQ_URL" ""
                 = Getenv environ "RABBITMQ_URL").
  { unfold getEnv. by case_bool_decide. }
  rewrite Hurl. split.
  - case_bool_decide; done.
  - repeat (split; [by apply getEnv_nonempty|]).
    case_bool_decide; by destruct (decide _).
Qed.

(** ** The damage detector, continued *)

Section Detector.
Import Detector.

Lemma AddEvent_events es e :
  EventStore.events (EventStore.AddEvent es e)
  = drop (length (EventStore.events es) + 1 - EventStore.maxSize es)
      (EventStore.events es ++ [e])
  ∧ EventStore.maxSize (EventStore.AddEvent es e) = EventStore.maxSize es.
Proof.
  unfold EventStore.AddEvent. rewrite length_app. simpl.
  destruct (_ <? _)%nat eqn:Hlt; simpl; [done|].
  apply Nat.ltb_ge in Hlt. split; [|done].
  replace (_ + 1 - _)%nat with 0%nat by lia. done.
Qed.

Lemma store_after (m : nat) (l : list Event.t) :
  EventStore.events (foldl EventStore.AddEvent (EventStore.NewEventStore m) l)
  = drop (length l - m) l
  ∧ EventStore.maxSize (foldl EventStore.AddEvent (EventStore.NewEventStore m) l) = m.
Proof.
  induction l as [|e l IH] using rev_ind; [done|].
  rewrite foldl_app. simpl. destruct IH as [IHe IHm].
  destruct (AddEvent_events (foldl EventStore.AddEvent (EventStore.NewEventStore m) l) e)
    as [-> ->].
  split; [|done]. rewrite IHe, IHm, length_drop, length_app. simpl.
  destruct (decide (length l < m)%nat) as [Hlt|Hge].
  - replace (length l - m)%nat with 0%nat by lia.
    replace (length l + 1 - m)%nat with 0%nat by lia.
    rewrite Nat.sub_0_r. replace (length l + 1 - m)%nat with 0%nat by lia. done.
  - rewrite <- drop_app_le by lia. rewrite drop_drop. f_equal. lia.
Qed.

(** The store of the detector keeps the most recent [maxSize] events, in
    the order they came: after any run of [AddEvent] it holds the last
    [maxSize] of the events added, never more; [GetEventCount] is the
    smaller of the two numbers; and [GetLatestEvent] is the event added
    last (nothing for an empty store, or one of size 0). *)
Theorem event_store_keeps_the_latest (maxSize : nat) (added : list Event.t) :
  let es := foldl EventStore.AddEvent (EventStore.NewEventStore maxSize) added in
  EventStore.GetEvents es = drop (length added - maxSize) added
  ∧ EventStore.GetEventCount es = Z.min (Z.of_nat (length added)) (Z.of_nat maxSize)
  ∧ EventStore.GetLatestEvent es = (if decide (maxSize = 0%nat) then None else last added).
Proof.
  intros es. subst es. unfold EventStore.GetEvents, EventStore.GetEventCount,
    EventStore.GetLatestEvent.
  destruct (store_after maxSize added) as [-> _].
  split; [done|]. split; [rewrite length_drop; lia|].
  destruct (decide (maxSize = 0%nat)) as [->|Hm].
  - rewrite Nat.sub_0_r, drop_all. done.
  - destruct added as [|e l _] using rev_ind; [done|].
    rewrite length_app. simpl. rewrite drop_app_le by lia. by rewrite !last_snoc.
Qed.
Lemma handle_messages_store env messages g :
  eventStore (handle_messages env messages g).1
  = foldl EventStore.AddEvent (eventStore g) (omap (λ message, message.1.2) messages).
Proof.
  revert g. induction messages as [|[[topic payload] now] rest IH]; intros g; [done|].
  simpl. assert (Hstore : eventStore (messageHandler env topic payload now g).1
                          = match payload with
                            | Some event => EventStore.AddEvent (eventStore g) event
                            | None => eventStore g
                            end).
  { unfold messageHandler. destruct payload as [event|]; [|done]. simpl.
    by destruct (_ <? _)%float. }
  destruct (messageHandler env topic payload now g) as [g1 attempts]. simpl in Hstore.
  specialize (IH g1). destruct (handle_messages env rest g1) as [g2 more]. simpl in *.
  rewrite IH, Hstore. by destruct payload.
Qed.

(** What the HTTP endpoints of the detector show after any messages:
    [/events] the last 1000 of the events that decoded, oldest first,
    with their number; [/events/count] that number; [/events/latest] the
    event decoded last, and a 404 while no message has decoded.  A
    message that does not decode leaves no trace. *)
Theorem detector_endpoints (env : Environment)
    (messages : list (string * option Event.t * Time)) (publisher : MqttPublisher) :
  let g := (handle_messages env messages (started publisher)).1 in
  let decoded := omap (λ message, message.1.2) messages in
  let shown := drop (length decoded - 1000) decoded in
  eventsHandler g = (200, EventsBody shown (Z.of_nat (length shown)))
  ∧ length shown = (length decoded `min` 1000)%nat
  ∧ countHandler g = (200, CountBody (Z.of_nat (length shown)))
  ∧ latestHandler g
    = match last decoded with
      | Some event => (200, EventBody event)
      | None => (404, ErrorBody "No events available")
      end.
Proof.
  intros g decoded shown. subst g shown.
  unfold eventsHandler, countHandler, latestHandler, EventStore.GetEvents,
    EventStore.GetEventCount, EventStore.GetLatestEvent.
  rewrite handle_messages_store. fold decoded. simpl.
  destruct (store_after 1000 decoded) as [-> _].
  split; [done|]. split; [rewrite length_drop; lia|]. split; [done|].
  destruct decoded as [|e l _] using rev_ind; [done|].
  rewrite length_app. simpl. rewrite drop_app_le by lia. by rewrite !last_snoc.
Qed.
End Detector.

(** ** Readings, thresholds and severity *)

Lemma Prim2SF_10 : Prim2SF 10 = S754_finite false 5629499534213120 (-49).
Proof. reflexivity. Qed.

Lemma SFcompare_finite_positive m1 e1 m2 e2 :
  SFcompare (S754_finite false m1 e1) (S754_finite false m2 e2)
  = Some match e1 ?= e2 with
         | Lt => Lt
         | Gt => Gt
         | Eq => Pos.compare_cont Eq m1 m2
         end.
Proof. reflexivity. Qed.

(** A float below 10 is not at or above a positive float of a greater
    exponent. *)
Lemma below_10_not_above (t c : float) m e :
  (t <? 10)%float = true → Prim2SF c = S754_finite false m e → -49 < e →
  (c <=? t)%float = false.
Proof.
  rewrite ltb_spec, leb_spec. unfold SFltb, SFleb. rewrite Prim2SF_10.
  intros H -> He. destruct (Prim2SF t) as [s|s| |s m' e'].
  - by destruct s.
  - by destruct s.
  - discriminate H.
  - destruct s; [reflexivity|].
    rewrite SFcompare_finite_positive in H. rewrite SFcompare_finite_positive.
    destruct (Z.compare_spec e' (-49)) as [He1|He1|He1];
      destruct (Z.compare_spec e e') as [He2|He2|He2];
      try reflexivity; try discriminate H; exfalso; clear H; lia.
Qed.

Lemma deriveSeverity_below_10 (t h : float) :
  (t <? 10)%float = true →
  Detector.deriveSeverity t h = Detector.severity_by_humidity h.
Proof.
  intros Ht. unfold Detector.deriveSeverity, Detector.severity_by_humidity.
  rewrite (below_10_not_above t 30 8444249301319680 (-48) Ht eq_refl) by lia.
  rewrite (below_10_not_above t 40 5629499534213120 (-47) Ht eq_refl) by lia.
  simpl. destruct (90 <=? h)%float; [done|]. by destruct (80 <=? h)%float.
Qed.

Section DetectorRuns.
Import Detector.

Lemma messageHandler_minTemperature env topic payload now g :
  minTemperature (messageHandler env topic payload now g).1 = minTemperature g
  ∧ orderPublisher (messageHandler env topic payload now g).1 = orderPublisher g.
Proof.
  unfold messageHandler. destruct payload as [event|]; [|done]. simpl.
  by destruct (_ <? _)%float.
Qed.

Lemma messageHandler_attempt env topic payload now g attempt :
  minTemperature g = 10%float →
  attempt ∈ (messageHandler env topic payload now g).2 →
  let details := OrderDamageEvent.Details (sent attempt) in
  (DamageDetails.Temperature details <? 10)%float = true
  ∧ OrderDamageEvent.Severity (sent attempt)
    = severity_by_humidity (DamageDetails.Humidity details)
  ∧ timeout attempt = 5.
Proof.
  intros Hmin. unfold messageHandler. destruct payload as [event|]; simpl.
  2: { intros H. by apply elem_of_nil in H. }
  rewrite Hmin. destruct (_ <? 10)%float eqn:Ht; simpl.
  2: { intros H. by apply elem_of_nil in H. }
  unfold MqttPublisher_PublishOrderDamageFromSensor.
  destruct (orderPublisher g) as [pubTopic|]; simpl.
  2: { intros H. by apply elem_of_nil in H. }
  destruct (json_Marshal env _) as [payload|text]; simpl.
  2: { intros H. by apply elem_of_nil in H. }
  intros H. apply list_elem_of_singleton in H as ->. simpl.
  split; [done|]. split; [|done]. by apply deriveSeverity_below_10.
Qed.

Lemma handle_messages_attempt env messages g attempt :
  minTemperature g = 10%float →
  attempt ∈ (handle_messages env messages g).2 →
  let details := OrderDamageEvent.Details (sent attempt) in
  (DamageDetails.Temperature details <? 10)%float = true
  ∧ OrderDamageEvent.Severity (sent attempt)
    = severity_by_humidity (DamageDetails.Humidity details)
  ∧ timeout attempt = 5.
Proof.
  revert g. induction messages as [|[[topic payload] now] rest IH]; intros g Hmin; simpl.
  { intros H. by apply elem_of_nil in H. }
  pose proof (messageHandler_minTemperature env topic payload now g) as [Hm _].
  pose proof (messageHandler_attempt env topic payload now g attempt Hmin) as Hone.
  destruct (messageHandler env topic payload now g) as [g1 attempts]. simpl in *.
  specialize (IH g1). destruct (handle_messages env rest g1) as [g2 more]. simpl in *.
  rewrite elem_of_app. intros [H|H]; [by apply Hone|]. apply IH; [congruence|done].
Qed.
End DetectorRuns.

(** The severity of every damage event the detector publishes is decided
    by the humidity of the reading alone.  The detector publishes for
    readings below 10 degrees only ([minTemperature] is never written
    to), so the tests of [deriveSeverity] on the temperature, at 30 and
    at 40 degrees, are never met: the event is critical from 90 %
    humidity, major from 80 %, minor below. *)
Theorem severity_is_decided_by_humidity (env : Detector.Environment)
    (messages : list (string * option Detector.Event.t * Time))
    (publisher : Detector.MqttPublisher) (attempt : Detector.Attempt) :
  attempt ∈ (Detector.handle_messages env messages (Detector.started publisher)).2 →
  let details := Detector.OrderDamageEvent.Details (Detector.sent attempt) in
  (Detector.DamageDetails.Temperature details <? 10)%float = true
  ∧ Detector.OrderDamageEvent.Severity (Detector.sent attempt)
    = Detector.severity_by_humidity (Detector.DamageDetails.Humidity details).
Proof.
  intros H.
  by destruct (handle_messages_attempt env messages (Detector.started publisher) attempt
                eq_refl H) as (? & ? & _).
Qed.

Lemma severity_is_decided_by_humidity_witness :
  DetectorExamples.cold_humid_attempt
    ∈ (Detector.handle_messages DetectorExamples.quiet_env
         DetectorExamples.cold_humid_messages
         (Detector.started (Some "events/order-damage"))).2
  ∧ Detector.OrderDamageEvent.Severity (Detector.sent DetectorExamples.cold_humid_attempt)
    = "major".
Proof.
  assert (Hin : DetectorExamples.cold_humid_attempt
                  ∈ (Detector.handle_messages DetectorExamples.quiet_env
                       DetectorExamples.cold_humid_messages
                       (Detector.started (Some "events/order-damage"))).2)
    by (vm_compute; left).
  split; [exact Hin|].
  destruct (severity_is_decided_by_humidity DetectorExamples.quiet_env
              DetectorExamples.cold_humid_messages (Some "events/order-damage")
              DetectorExamples.cold_humid_attempt Hin) as [_ Hs].
  rewrite Hs. vm_compute. reflexivity.
Defined.

(** ** The event generator *)

Lemma generator_humidity_cases (v : Z) :
  -29 ≤ v ≤ 29 →
  let h := (50 + (Generator.float64_of_int v - 15))%float in
  (80 <=? h)%float = false ∧ (90 <=? h)%float = false
  ∧ (0 ≤ v → (35 <=? h)%float = true ∧ (h <=? 64)%float = true).
Proof.
  intros Hv.
  assert (Hall : forallb (λ v,
            let h := (50 + (Generator.float64_of_int v - 15))%float in
            negb (80 <=? h)%float && negb (90 <=? h)%float
            && ((v <? 0) || ((35 <=? h)%float && (h <=? 64)%float)))
          (seqZ (-29) 59) = true) by (vm_compute; reflexivity).
  rewrite forallb_forall in Hall. specialize (Hall v).
  assert (Hin : In v (seqZ (-29) 59)).
  { apply list_elem_of_In, elem_of_seqZ. lia. }
  specialize (Hall Hin). simpl in Hall.
  apply andb_prop in Hall as [Hall Hpos]. apply andb_prop in Hall as [H80 H90].
  apply negb_true_iff in H80, H90. split; [done|]. split; [done|].
  intros H0. apply orb_prop in Hpos as [Hneg|Hr].
  - apply Z.ltb_lt in Hneg. lia.
  - by apply andb_prop in Hr.
Qed.

(** The humidity of a generated event stays between 35 and 64 % (the
    source says 35-65) at any time from 1970 on; and at any time it is
    below 80 %, so a generated reading that is cold enough for the
    detector to publish it as damage is published as minor, whatever the
    limits of the generator and the draw of the temperature. *)
Theorem generated_readings_are_minor (render : Z → string) (g : Generator.Limits)
    (unix : Z) (now : Time) (r : float) :
  let data := Generator.Event.Data (Generator.generateEvent render g unix now r) in
  (0 ≤ unix →
   (35 <=? Generator.EventData.Humidity data)%float = true
   ∧ (Generator.EventData.Humidity data <=? 64)%float = true)
  ∧ ((Generator.EventData.Temperature data <? 10)%float = true →
     Detector.deriveSeverity (Generator.EventData.Temperature data)
       (Generator.EventData.Humidity data) = "minor").
Proof.
  intros data. subst data. simpl.
  assert (Hv : -29 ≤ Z.rem unix 30 ≤ 29).
  { pose proof (Z.rem_bound_abs unix 30). lia. }
  destruct (generator_humidity_cases _ Hv) as (H80 & H90 & Hpos).
  split.
  - intros H0. apply Hpos. apply Z.rem_nonneg; lia.
  - intros Ht. rewrite (deriveSeverity_below_10 _ _ Ht).
    unfold Detector.severity_by_humidity, Generator.humidity. by rewrite H90, H80.
Qed.

Lemma temperatureLimitsHandler_ordered method decoded g :
  (Generator.MaxTemperature g <=? Generator.MinTemperature g)%float = false →
  (Generator.MaxTemperature (Generator.temperatureLimitsHandler method decoded g).2
   <=? Generator.MinTemperature (Generator.temperatureLimitsHandler method decoded g).2)%float
  = false.
Proof.
  intros Hg. unfold Generator.temperatureLimitsHandler.
  destruct (negb _); [done|]. destruct decoded as [req|]; [|done].
  destruct (Generator.TemperatureLimitsRequest.MaxTemperature req
            <=? Generator.TemperatureLimitsRequest.MinTemperature req)%float eqn:Hreq;
    done.
Qed.

(** The settings of the generator.  The interval read from the
    environment is positive (the default replaces a value that is not a
    number, or not above zero), and any positive number [strconv.Atoi]
    accepts is taken as it is, with no upper bound.  The period of the
    ticker is the interval in nanoseconds as long as the interval is at
    most 9223372036854 ms, as the default is; from there to
    18446744073709 ms the product wraps to a negative [int64] and
    [time.NewTicker] panics.  The limits the generator starts with, and
    the limits in force after any requests to [/temperature-limits],
    never have the minimum at or above the maximum, in the sense of [>=]
    on [float64] (which a NaN never meets); a request is answered 200
    exactly when it is a POST whose body decodes with the minimum not at
    or above the maximum, and any other request leaves the limits alone. *)
Theorem generator_settings (atoi : string → option Z)
    (parse : string → option float) (environ : gmap string string)
    (requests : list (string * option Generator.TemperatureLimitsRequest.t)) :
  0 < Generator.getEventIntervalMs atoi environ "EVENT_INTERVAL_MILLISECONDS" 10000
  ∧ (∀ interval, Getenv environ "EVENT_INTERVAL_MILLISECONDS" ≠ "" →
       atoi (Getenv environ "EVENT_INTERVAL_MILLISECONDS") = Some interval →
       0 < interval →
       Generator.getEventIntervalMs atoi environ "EVENT_INTERVAL_MILLISECONDS" 10000
       = interval)
  ∧ (∀ interval, 0 < interval ≤ 9223372036854 →
       Generator.tickerPeriod interval = interval * 1000000
       ∧ Generator.NewTicker_panics (Generator.tickerPeriod interval) = false)
  ∧ (∀ interval, 9223372036854 < interval ≤ 18446744073709 →
       Generator.NewTicker_panics (Generator.tickerPeriod interval) = true)
  ∧ (∀ g, Generator.startup parse environ = Some g →
       (Generator.MaxTemperature (Generator.serve requests g)
        <=? Generator.MinTemperature (Generator.serve requests g))%float = false)
  ∧ (∀ method decoded g,
       ((Generator.temperatureLimitsHandler method decoded g).1 = 200
        ↔ method = "POST"
          ∧ ∃ req, decoded = Some req
                   ∧ (Generator.TemperatureLimitsRequest.MaxTemperature req
                      <=? Generator.TemperatureLimitsRequest.MinTemperature req)%float
                     = false)
       ∧ ((Generator.temperatureLimitsHandler method decoded g).1 ≠ 200 →
          (Generator.temperatureLimitsHandler method decoded g).2 = g)).
Proof.
  split; [|split; [|split; [|split; [|split]]]].
  - unfold Generator.getEventIntervalMs. destruct (negb _); [|done].
    destruct (atoi _) as [interval|]; [|done].
    destruct (0 <? interval) eqn:Hi; [|done]. by apply Z.ltb_lt.
  - intros interval Hset Hatoi Hpos. unfold Generator.getEventIntervalMs.
    rewrite bool_decide_eq_false_2 by done. simpl. rewrite Hatoi.
    by rewrite (proj2 (Z.ltb_lt 0 interval) Hpos).
  - intros interval Hi. unfold Generator.tickerPeriod, Generator.NewTicker_panics, wrap64.
    assert (Hw : (interval + 2 ^ 63) mod 2 ^ 64 - 2 ^ 63 = interval).
    { rewrite Z.mod_small by lia. lia. }
    rewrite Hw.
    assert (Hp : (interval * 1000000 + 2 ^ 63) mod 2 ^ 64 - 2 ^ 63 = interval * 1000000).
    { rewrite Z.mod_small by lia. lia. }
    rewrite Hp. split; [done|]. apply Z.leb_gt. lia.
  - intros interval Hi. unfold Generator.tickerPeriod, Generator.NewTicker_panics, wrap64.
    assert (Hw : (interval + 2 ^ 63) mod 2 ^ 64 - 2 ^ 63 = interval).
    { rewrite Z.mod_small by lia. lia. }
    rewrite Hw. apply Z.leb_le.
    assert (Hp : (interval * 1000000 + 2 ^ 63) mod 2 ^ 64
                 = interval * 1000000 + 2 ^ 63 - 2 ^ 64).
    { symmetry. apply (Z.mod_unique _ _ 1); lia. }
    rewrite Hp. lia.
  - intros g Hg. unfold Generator.startup in Hg.
    destruct (_ <=? _)%float eqn:Hs in Hg; [done|]. injection Hg as <-.
    unfold Generator.serve. revert Hs.
    generalize (Generator.mkLimits
                  (Generator.getEnvFloat parse environ "TEMP_MIN" 7)
                  (Generator.getEnvFloat parse environ "TEMP_MAX" 12)).
    induction requests as [|[method decoded] rest IH]; intros g Hg; [done|].
    simpl. apply IH. by apply temperatureLimitsHandler_ordered.
  - intros method decoded g. unfold Generator.temperatureLimitsHandler.
    case_bool_decide as Hm; simpl.
    + destruct decoded as [req|]; simpl.
      * destruct (Generator.TemperatureLimitsRequest.MaxTemperature req
                  <=? Generator.TemperatureLimitsRequest.MinTemperature req)%float eqn:Hreq;
          simpl.
        -- split; [|done]. split; [done|]. intros (_ & req' & [= <-] & Hf). congruence.
        -- split; [|done]. split; [|done]. intros _. eauto.
      * split; [|done]. split; [done|]. by intros (_ & req' & [=] & _).
    + split; [|done]. split; [done|]. by intros [? _].
Qed.
